(** * A task tracker: query engine, id allocation and JSON store

    Shallow embedding of [tasks.py] (the core) and of [main] in [app.py]:
    the filter section and the sort selector (the render path), the form
    that adds a task and the buttons of a displayed task.  The properties
    the specification states about them come first, further properties of
    the code after them.

    Conventions of the embedding.
    - A Python [str] is a [string]: a sequence of code points below 256.
      The search is modelled a second time on texts of further code
      points ([Unicode]), where [str.lower()] is no longer a map of code
      points; on strings the two agree ([search_tasks_codes]).
    - A Python [int] is a [Z].
    - A task is a Python [dict].  The query functions read it through
      [task.get(key, default)] or [task[key]]; the record [Task.t] carries
      the keys the code reads, with the types of the data model, a key read
      with [.get] somewhere being optional ([None] when the dict has no
      such key).  The [id] is only ever read by subscript.
    - The store is handed and returns Python values, [pyval]: the values
      JSON carries.  [task_to_py] is the dict of a task and [task_of_py]
      reads a dict as a task.
    - An exception is a value of [exn]; code that may raise returns a
      [result].
    - The clock, the widgets of the page and the files are arguments: the
      reading [now], the values selected, the [world].
    - A file holds a text, or bytes that are no text; writing a file
      succeeds.  The limits of the interpreter (recursion depth, digits of
      an [int] turned to text) are not part of the model: what is stated
      about a text found in a file is stated within them
      ([within_limits]). *)

From Stdlib Require Import ZArith List Ascii String Bool Lia Permutation Sorted.
From Stdlib Require DecimalFacts DecimalPos.
From stdpp Require Import base option list gmap strings.

Local Open Scope string_scope.
Local Open Scope list_scope.
Local Open Scope Z_scope.

#[local] Arguments String.append !s1 s2 : simpl nomatch.

(** * The program *)

(** ** Python strings *)

(** [c.lower()] for one code point below 256: the ASCII capitals and the
    Latin-1 capitals U+00C0..U+00DE except the multiplication sign U+00D7. *)
Definition lower_char (c : ascii) : ascii :=
  let n := N_of_ascii c in
  if ((65 <=? n) && (n <=? 90) ||
      (192 <=? n) && (n <=? 222) && negb (n =? 215))%N
  then ascii_of_N (n + 32) else c.

(** [s.lower()] on a text of code points below 256, where every code point
    is lowered on its own ([Unicode.lower] is [str.lower()] beyond). *)
Fixpoint str_lower (s : string) : string :=
  match s with
  | EmptyString => EmptyString
  | String c s' => String (lower_char c) (str_lower s')
  end.

(** [q in s] for two strings: [q] occurs in [s] as a contiguous run. *)
Fixpoint str_in (q s : string) : bool :=
  String.prefix q s ||
  match s with
  | EmptyString => false
  | String _ s' => str_in q s'
  end.

(** [a < b] on strings: lexicographic on code points. *)
Definition str_lt (a b : string) : bool := String.ltb a b.

(** Truth value of a string: [if s:] holds for a non-empty string. *)
Definition str_truthy (s : string) : bool :=
  match s with EmptyString => false | _ => true end.

(** ** Exceptions and results *)

Inductive exn : Type :=
  | KeyError (key : string)
  | ValueError
  | OverflowError
  | FileNotFoundError
  | JSONDecodeError
  | UnicodeDecodeError.

Inductive result (A : Type) : Type :=
  | Ok (a : A)
  | Raise (e : exn).
Arguments Ok {A} a.
Arguments Raise {A} e.

Definition bind {A B} (m : result A) (k : A -> result B) : result B :=
  match m with
  | Ok a => k a
  | Raise e => Raise e
  end.

Notation "'let*' x ':=' m 'in' k" := (bind m (fun x => k))
  (at level 10, x name, m at level 100, k at level 200).

(** ** Tasks *)

Module Task.
Record t : Type := mk {
  id : Z;
  title : option string;
  description : option string;
  priority : option string;
  category : option string;
  due_date : option string;
  completed : option bool;
  created_at : option string
}.
End Task.

(** [task.get(key, dflt)] on an optional field. *)
Definition get {A} (field : option A) (dflt : A) : A :=
  match field with Some v => v | None => dflt end.

(** [task[key]]: [KeyError] when the dict has no such key. *)
Definition subscript {A} (key : string) (field : option A) : result A :=
  match field with Some v => Ok v | None => Raise (KeyError key) end.

(** [task.get(key) == value], the key's value being a string when present
    and [value] a string: an absent key gives [None], equal to no string. *)
Definition get_eq (field : option string) (value : string) : bool :=
  match field with Some v => String.eqb v value | None => false end.

(** ** Id allocator *)

(** [max(xs)] over a non-empty sequence of ints, given as head and tail. *)
Definition py_max (x : Z) (xs : list Z) : Z := fold_left Z.max xs x.

Definition generate_unique_id (tasks : list Task.t) : Z :=
  match tasks with
  | [] => 1
  | t :: ts => py_max (Task.id t) (map Task.id ts) + 1
  end.

(** ** Filters and search *)

Definition filter_tasks_by_priority (tasks : list Task.t) (priority : string)
  : list Task.t :=
  List.filter (fun task => get_eq (Task.priority task) priority) tasks.

Definition filter_tasks_by_category (tasks : list Task.t) (category : string)
  : list Task.t :=
  List.filter (fun task => get_eq (Task.category task) category) tasks.

(** [task.get("completed") == completed]: an absent key gives [None], which
    equals neither [True] nor [False]. *)
Definition filter_tasks_by_completion (tasks : list Task.t) (completed : bool)
  : list Task.t :=
  List.filter
    (fun task =>
       match Task.completed task with
       | Some b => Bool.eqb b completed
       | None => false
       end) tasks.

(** The condition of the comprehension of [search_tasks], on the query
    already lowered. *)
Definition search_match (query : string) (task : Task.t) : bool :=
  str_in query (str_lower (get (Task.title task) "")) ||
  str_in query (str_lower (get (Task.description task) "")).

Definition search_tasks (tasks : list Task.t) (query : string) : list Task.t :=
  let query := str_lower query in
  List.filter (search_match query) tasks.

(** ** Search on text of any code point

    [str_lower] is [str.lower()] on a text of code points below 256: there
    every code point is lowered on its own.  Beyond, [str.lower()] lowers
    the capital sigma U+03A3 by its place in the word.  [Unicode] holds the
    search on texts given by their code points.  It knows the code points
    below 256 and the unaccented Greek letters; a text with any other code
    point is outside it ([None]). *)

Module Unicode.

Definition text : Type := list N.

Definition CAPITAL_SIGMA : N := 931.
Definition FINAL_SIGMA : N := 962.
Definition SMALL_SIGMA : N := 963.

Definition modelled (c : N) : bool :=
  ((c <? 256) || (913 <=? c) && (c <=? 929) || (931 <=? c) && (c <=? 937) ||
   (945 <=? c) && (c <=? 969))%N.

(** The capitals among them: A to Z, U+00C0 to U+00DE without the
    multiplication sign U+00D7, Alpha to Rho and Sigma to Omega. *)
Definition is_capital (c : N) : bool :=
  ((65 <=? c) && (c <=? 90) ||
   (192 <=? c) && (c <=? 222) && negb (c =? 215) ||
   (913 <=? c) && (c <=? 929) || (931 <=? c) && (c <=? 937))%N.

(** [_PyUnicode_ToLowerFull]: a capital has its small letter 32 code
    points further. *)
Definition to_lower (c : N) : N := if is_capital c then (c + 32)%N else c.

(** [_PyUnicode_IsCased]: the letters, with the ordinal indicators U+00AA
    and U+00BA and the micro sign U+00B5. *)
Definition is_cased (c : N) : bool :=
  ((65 <=? c) && (c <=? 90) || (97 <=? c) && (c <=? 122) ||
   (c =? 170) || (c =? 181) || (c =? 186) ||
   (192 <=? c) && (c <=? 214) || (216 <=? c) && (c <=? 246) ||
   (248 <=? c) && (c <=? 255) ||
   (913 <=? c) && (c <=? 929) || (931 <=? c) && (c <=? 937) ||
   (945 <=? c) && (c <=? 969))%N.

(** [_PyUnicode_IsCaseIgnorable]: apostrophe, full stop, colon, circumflex,
    grave, diaeresis, soft hyphen, macron, acute, middle dot, cedilla. *)
Definition is_case_ignorable (c : N) : bool :=
  ((c =? 39) || (c =? 46) || (c =? 58) || (c =? 94) || (c =? 96) ||
   (c =? 168) || (c =? 173) || (c =? 175) || (c =? 180) || (c =? 183) ||
   (c =? 184))%N.

Fixpoint skip_case_ignorable (s : text) : text :=
  match s with
  | c :: s' => if is_case_ignorable c then skip_case_ignorable s' else s
  | [] => []
  end.

(** [handle_capital_sigma]: a capital sigma is lowered to the final sigma
    when, case-ignorable code points set aside, a cased code point comes
    before it and none comes after it.  [before] is the text before the
    sigma, nearest code point first. *)
Definition handle_capital_sigma (before after : text) : N :=
  let final_sigma :=
    match skip_case_ignorable before with
    | c :: _ =>
        is_cased c &&
        match skip_case_ignorable after with
        | d :: _ => negb (is_cased d)
        | [] => true
        end
    | [] => false
    end in
  if final_sigma then FINAL_SIGMA else SMALL_SIGMA.

Fixpoint lower_from (before s : text) : text :=
  match s with
  | [] => []
  | c :: s' =>
      (if (c =? CAPITAL_SIGMA)%N then handle_capital_sigma before s'
       else to_lower c) :: lower_from (c :: before) s'
  end.

(** [s.lower()] *)
Definition lower (s : text) : option text :=
  if forallb modelled s then Some (lower_from [] s) else None.

Fixpoint starts_with (q s : text) : bool :=
  match q, s with
  | [], _ => true
  | c :: q', d :: s' => (c =? d)%N && starts_with q' s'
  | _ :: _, [] => false
  end.

(** [q in s] *)
Fixpoint contains (q s : text) : bool :=
  starts_with q s ||
  match s with
  | [] => false
  | _ :: s' => contains q s'
  end.

Module Task.
Record t : Type := mk {
  id : Z;
  title : option text;
  description : option text;
  priority : option text;
  category : option text;
  due_date : option text;
  completed : option bool;
  created_at : option text
}.
End Task.

(** The condition of the comprehension of [search_tasks], on the query
    already lowered: the description is lowered when the title does not
    hold the query. *)
Definition search_match (query : text) (task : Task.t) : option bool :=
  match lower (get (Task.title task) []) with
  | Some title =>
      if contains query title then Some true
      else
        match lower (get (Task.description task) []) with
        | Some description => Some (contains query description)
        | None => None
        end
  | None => None
  end.

(** [[x for x in l if cond(x)]] *)
Fixpoint comprehension {A} (cond : A -> option bool) (l : list A)
  : option (list A) :=
  match l with
  | [] => Some []
  | x :: l' =>
      match cond x, comprehension cond l' with
      | Some b, Some found => Some (if b then x :: found else found)
      | _, _ => None
      end
  end.

Definition search_tasks (tasks : list Task.t) (query : text)
  : option (list Task.t) :=
  match lower query with
  | Some query => comprehension (search_match query) tasks
  | None => None
  end.

(** A text of code points below 256, by its code points. *)
Definition codes (s : string) : text :=
  List.map N_of_ascii (list_ascii_of_string s).

End Unicode.

(** A task whose texts have code points below 256, as a task of
    [Unicode]. *)
Definition unicode_task (t : Task.t) : Unicode.Task.t :=
  Unicode.Task.mk (Task.id t)
    (option_map Unicode.codes (Task.title t))
    (option_map Unicode.codes (Task.description t))
    (option_map Unicode.codes (Task.priority t))
    (option_map Unicode.codes (Task.category t))
    (option_map Unicode.codes (Task.due_date t))
    (Task.completed t)
    (option_map Unicode.codes (Task.created_at t)).

(** ** Dates and moments

    The part of [datetime] the code uses: construction with its range
    checks, comparison, adding one day, [strftime] and [strptime] with the
    one format ["%Y-%m-%d"]. *)

Record datetime : Type := mkdt {
  year : Z; month : Z; day : Z;
  hour : Z; minute : Z; second : Z; microsecond : Z
}.

Definition is_leap (y : Z) : bool :=
  (y mod 4 =? 0) && (negb (y mod 100 =? 0) || (y mod 400 =? 0)).

Definition days_in_month (y m : Z) : Z :=
  if (m =? 2) && is_leap y then 29
  else nth (Z.to_nat m) [0; 31; 28; 31; 30; 31; 30; 31; 31; 30; 31; 30; 31] 0.

Definition MINYEAR : Z := 1.
Definition MAXYEAR : Z := 9999.

(** The range checks of the [date] constructor. *)
Definition check_date_fields (y m d : Z) : bool :=
  (MINYEAR <=? y) && (y <=? MAXYEAR) &&
  (1 <=? m) && (m <=? 12) &&
  (1 <=? d) && (d <=? days_in_month y m).

(** The range checks of the [time] part. *)
Definition check_time_fields (dt : datetime) : bool :=
  (0 <=? hour dt) && (hour dt <=? 23) &&
  (0 <=? minute dt) && (minute dt <=? 59) &&
  (0 <=? second dt) && (second dt <=? 59) &&
  (0 <=? microsecond dt) && (microsecond dt <=? 999999).

(** A value that [datetime.now()] or [datetime(...)] can return. *)
Definition valid_datetime (dt : datetime) : bool :=
  check_date_fields (year dt) (month dt) (day dt) && check_time_fields dt.

(** [datetime(y, m, d)]: midnight of the stated day. *)
Definition make_date (y m d : Z) : result datetime :=
  if check_date_fields y m d then Ok (mkdt y m d 0 0 0 0)
  else Raise ValueError.

(** [datetime.max] *)
Definition datetime_max : datetime := mkdt 9999 12 31 23 59 59 999999.

(** Comparison of two moments: field by field, most significant first. *)
Fixpoint lex_lt (a b : list Z) : bool :=
  match a, b with
  | x :: a', y :: b' => (x <? y) || ((x =? y) && lex_lt a' b')
  | _, _ => false
  end.

Definition fields (dt : datetime) : list Z :=
  [year dt; month dt; day dt; hour dt; minute dt; second dt; microsecond dt].

Definition datetime_lt (a b : datetime) : bool := lex_lt (fields a) (fields b).

(** [a <= b] *)
Definition datetime_le (a b : datetime) : bool := negb (datetime_lt b a).

(** [dt + timedelta(days=1)]: the same time of day on the next calendar
    day, [OverflowError] past the last day of [MAXYEAR]. *)
Definition add_one_day (dt : datetime) : result datetime :=
  let '(y, m, d) :=
    if day dt <? days_in_month (year dt) (month dt)
    then (year dt, month dt, day dt + 1)
    else if month dt <? 12 then (year dt, month dt + 1, 1)
    else (year dt + 1, 1, 1) in
  if y <=? MAXYEAR
  then Ok (mkdt y m d (hour dt) (minute dt) (second dt) (microsecond dt))
  else Raise OverflowError.

(** *** Decimal digits *)

Definition is_digit (c : ascii) : bool :=
  (48 <=? N_of_ascii c)%N && (N_of_ascii c <=? 57)%N.

Definition digit_val (c : ascii) : Z := Z.of_N (N_of_ascii c) - 48.

Definition digit_char (d : Z) : ascii := ascii_of_N (Z.to_N (d + 48)).

(** [d] between two digit characters, as a character class [[lo-hi]]. *)
Definition in_range (lo hi c : ascii) : bool :=
  (N_of_ascii lo <=? N_of_ascii c)%N && (N_of_ascii c <=? N_of_ascii hi)%N.

(** *** [strftime("%Y-%m-%d")]

    The year is written with four digits, as every platform writes a year
    from 1000 on.  Below year 1000 the C library decides: glibc writes the
    year without padding.  What is stated about the order of these texts
    is stated for a clock from year 1000 on. *)

Definition two_digits (n : Z) : string :=
  String (digit_char (n / 10)) (String (digit_char (n mod 10)) "").

Definition four_digits (n : Z) : string :=
  (two_digits (n / 100) ++ two_digits (n mod 100))%string.

Definition strftime_ymd (dt : datetime) : string :=
  (four_digits (year dt) ++ "-" ++ two_digits (month dt) ++ "-" ++
   two_digits (day dt))%string.

(** *** [strptime(s, "%Y-%m-%d")]

    The format compiles to the regular expression
    [(\d\d\d\d)-(1[0-2]|0[1-9]|[1-9])-(3[0-1]|[1-2]\d|0[1-9]|[1-9]| [1-9])].
    Each group is a function from the input to the matches of the group in
    the order the matcher tries them, each with the text left over. *)

Definition re_year (s : string) : list (Z * string) :=
  match s with
  | String a (String b (String c (String d r))) =>
      if is_digit a && is_digit b && is_digit c && is_digit d
      then [(1000 * digit_val a + 100 * digit_val b + 10 * digit_val c
             + digit_val d, r)]
      else []
  | _ => []
  end.

Definition re_month (s : string) : list (Z * string) :=
  (match s with
   | String "1" (String c r) =>
       if in_range "0" "2" c then [(10 + digit_val c, r)] else []
   | _ => []
   end) ++
  (match s with
   | String "0" (String c r) =>
       if in_range "1" "9" c then [(digit_val c, r)] else []
   | _ => []
   end) ++
  (match s with
   | String c r => if in_range "1" "9" c then [(digit_val c, r)] else []
   | _ => []
   end).

Definition re_day (s : string) : list (Z * string) :=
  (match s with
   | String "3" (String c r) =>
       if in_range "0" "1" c then [(30 + digit_val c, r)] else []
   | _ => []
   end) ++
  (match s with
   | String t (String c r) =>
       if in_range "1" "2" t && is_digit c
       then [(10 * digit_val t + digit_val c, r)] else []
   | _ => []
   end) ++
  (match s with
   | String "0" (String c r) =>
       if in_range "1" "9" c then [(digit_val c, r)] else []
   | _ => []
   end) ++
  (match s with
   | String c r => if in_range "1" "9" c then [(digit_val c, r)] else []
   | _ => []
   end) ++
  (match s with
   | String " " (String c r) =>
       if in_range "1" "9" c then [(digit_val c, r)] else []
   | _ => []
   end).

(** A literal character of the pattern. *)
Definition re_lit (c : ascii) (s : string) : list string :=
  match s with
  | String c' r => if Ascii.eqb c c' then [r] else []
  | _ => []
  end.

(** All the matches of the whole pattern at the start of [s], in the order
    of the matcher, each with the year, month, day and the text left. *)
Definition re_ymd (s : string) : list (Z * Z * Z * string) :=
  flat_map (fun '(y, r1) =>
    flat_map (fun r2 =>
      flat_map (fun '(m, r3) =>
        flat_map (fun r4 =>
          List.map (fun '(d, r5) => (y, m, d, r5)) (re_day r4))
        (re_lit "-" r3))
      (re_month r2))
    (re_lit "-" r1))
  (re_year s).

(** [datetime.strptime(s, "%Y-%m-%d")]: the first match of the pattern is
    taken; text left over after it, or a day that does not exist, is a
    [ValueError]. *)
Definition strptime_ymd (s : string) : result datetime :=
  match re_ymd s with
  | [] => Raise ValueError
  | (y, m, d, rest) :: _ =>
      match rest with
      | EmptyString => make_date y m d
      | _ => Raise ValueError
      end
  end.

(** ** Due-date queries

    The clock reading [datetime.now()] is the argument [now]. *)

Definition get_overdue_tasks (now : datetime) (tasks : list Task.t)
  : list Task.t :=
  let today := strftime_ymd now in
  List.filter
    (fun task =>
       negb (get (Task.completed task) false) &&
       str_lt (get (Task.due_date task) "") today)
    tasks.

(** The body of the loop of [get_due_soon_tasks]: whether the task is
    appended. *)
Definition due_soon (now tomorrow : datetime) (task : Task.t) : bool :=
  if get (Task.completed task) false then false
  else
    let due_date_str := get (Task.due_date task) "" in
    if str_truthy due_date_str then
      match strptime_ymd due_date_str with
      | Ok due_date => datetime_le now due_date && datetime_le due_date tomorrow
      | Raise _ => false
      end
    else false.

Definition get_due_soon_tasks (now : datetime) (tasks : list Task.t)
  : result (list Task.t) :=
  let* tomorrow := add_one_day now in
  Ok (List.filter (due_soon now tomorrow) tasks).

(** ** Sorting *)

Section Sorted.
Context {A K : Type} (lt : K -> K -> bool) (key : A -> K).

(** [x] goes after the elements whose key is smaller and before the first
    element whose key is not. *)
Fixpoint insert_by (x : A) (s : list A) : list A :=
  match s with
  | [] => [x]
  | y :: s' =>
      if lt (key y) (key x) then y :: insert_by x s' else x :: y :: s'
  end.

(** [sorted(l, key=key)]: the stable sort, which compares keys with [<]
    only. *)
Fixpoint sorted (l : list A) : list A :=
  match l with
  | [] => []
  | x :: l' => insert_by x (sorted l')
  end.
End Sorted.

(** [priority_order.get(p, 3)] *)
Definition priority_order_get (p : string) : Z :=
  if String.eqb p "High" then 1
  else if String.eqb p "Medium" then 2
  else if String.eqb p "Low" then 3
  else 3.

Definition priority_key (t : Task.t) : Z :=
  priority_order_get (get (Task.priority t) "Low").

Definition sort_tasks_by_priority (tasks : list Task.t) : list Task.t :=
  sorted Z.ltb priority_key tasks.

Definition parse_due_date (task : Task.t) : datetime :=
  match strptime_ymd (get (Task.due_date task) "") with
  | Ok d => d
  | Raise _ => datetime_max
  end.

Definition sort_tasks_by_due_date (tasks : list Task.t) : list Task.t :=
  sorted datetime_lt parse_due_date tasks.

(** ** The filter section of the render path ([app.py], [main])

    The widgets' values are the arguments; [tasks] is what [load_tasks]
    returned.  The state is the variable [filtered_tasks]. *)

(** [[task for task in l if not task["completed"]]] *)
Fixpoint hide_completed (l : list Task.t) : result (list Task.t) :=
  match l with
  | [] => Ok []
  | task :: l' =>
      let* c := subscript "completed" (Task.completed task) in
      let* r := hide_completed l' in
      Ok (if negb c then task :: r else r)
  end.

(** The three [if]s that follow the comment "Apply filters", and again
    "Then apply filters". *)
Definition apply_filters (filter_category filter_priority : string)
    (show_completed : bool) (filtered_tasks : list Task.t)
  : result (list Task.t) :=
  let filtered_tasks :=
    if negb (String.eqb filter_category "All")
    then filter_tasks_by_category filtered_tasks filter_category
    else filtered_tasks in
  let filtered_tasks :=
    if negb (String.eqb filter_priority "All")
    then filter_tasks_by_priority filtered_tasks filter_priority
    else filtered_tasks in
  if negb show_completed then hide_completed filtered_tasks
  else Ok filtered_tasks.

(** Lines "Apply filters" to the last filter: the value of
    [filtered_tasks] handed to the sort and the display. *)
Definition render_filters (tasks : list Task.t)
    (filter_category filter_priority : string) (show_completed : bool)
    (search_query : string) : result (list Task.t) :=
  let filtered_tasks := tasks in
  let* filtered_tasks :=
    apply_filters filter_category filter_priority show_completed
      filtered_tasks in
  let filtered_tasks := tasks in
  let filtered_tasks :=
    if str_truthy search_query then search_tasks filtered_tasks search_query
    else filtered_tasks in
  apply_filters filter_category filter_priority show_completed filtered_tasks.

(** ** Python values that JSON carries

    [None], [bool], [int], [str], [list] and [dict] with [str] keys.  A
    [dict] is the list of its items in insertion order; its keys are
    distinct ([wf_pyval]). *)

#[warnings="-register-all"]
Inductive pyval : Type :=
  | PNone
  | PBool (b : bool)
  | PInt (n : Z)
  | PStr (s : string)
  | PList (values : list pyval)
  | PDict (items : list (string * pyval)).

(** The representation invariant of a [dict], all the way down. *)
Fixpoint wf_pyval (v : pyval) : Prop :=
  match v with
  | PList values => fold_right (fun x P => wf_pyval x /\ P) True values
  | PDict items =>
      NoDup (List.map fst items) /\
      fold_right (fun kv P => wf_pyval (snd kv) /\ P) True items
  | _ => True
  end.

(** [d[k] = v] on the items of a dict: a key already there keeps its
    place and takes the new value. *)
Fixpoint dict_set (k : string) (v : pyval) (items : list (string * pyval))
  : list (string * pyval) :=
  match items with
  | [] => [(k, v)]
  | (k', v') :: items' =>
      if String.eqb k' k then (k', v) :: items'
      else (k', v') :: dict_set k v items'
  end.

(** [dict(pairs)] *)
Definition dict_of_pairs (pairs : list (string * pyval))
  : list (string * pyval) :=
  fold_left (fun d kv => dict_set (fst kv) (snd kv) d) pairs [].

(** The dict of a task: the keys in the order the form writes them, a key
    being there when the field is. *)
Definition opt_item {A} (key : string) (inj : A -> pyval) (field : option A)
  : list (string * pyval) :=
  match field with Some v => [(key, inj v)] | None => [] end.

Definition task_to_py (t : Task.t) : pyval :=
  PDict ([("id", PInt (Task.id t))] ++
         opt_item "title" PStr (Task.title t) ++
         opt_item "description" PStr (Task.description t) ++
         opt_item "priority" PStr (Task.priority t) ++
         opt_item "category" PStr (Task.category t) ++
         opt_item "due_date" PStr (Task.due_date t) ++
         opt_item "completed" PBool (Task.completed t) ++
         opt_item "created_at" PStr (Task.created_at t)).

(** A collection of tasks as the Python value the store is handed. *)
Definition tasks_to_py (tasks : list Task.t) : pyval :=
  PList (List.map task_to_py tasks).

(** ** [json.dump(obj, f, indent=2)]

    The text written, as a list of characters. *)

Definition chars (s : string) : list ascii := list_ascii_of_string s.

Definition hex_char (n : N) : ascii :=
  if (n <? 10)%N then ascii_of_N (48 + n) else ascii_of_N (87 + n).

(** One character of a string between the quotes: the escapes of
    [ESCAPE_DCT], the printable ASCII characters as they are, anything else
    as [\u00xx]. *)
Definition escape_char (c : ascii) : list ascii :=
  let n := N_of_ascii c in
  if (n =? 92)%N then chars "\\"
  else if (n =? 34)%N then ["\"%char; "034"%char]
  else if (n =? 8)%N then chars "\b"
  else if (n =? 12)%N then chars "\f"
  else if (n =? 10)%N then chars "\n"
  else if (n =? 13)%N then chars "\r"
  else if (n =? 9)%N then chars "\t"
  else if (32 <=? n)%N && (n <=? 126)%N then [c]
  else chars "\u00" ++ [hex_char (n / 16); hex_char (n mod 16)].

(** [encode_basestring_ascii(s)] *)
Definition encode_basestring_ascii (s : string) : list ascii :=
  ["034"%char] ++ flat_map escape_char (chars s) ++ ["034"%char].

Fixpoint uint_chars (d : Decimal.uint) : list ascii :=
  match d with
  | Decimal.Nil => []
  | Decimal.D0 d => "0"%char :: uint_chars d
  | Decimal.D1 d => "1"%char :: uint_chars d
  | Decimal.D2 d => "2"%char :: uint_chars d
  | Decimal.D3 d => "3"%char :: uint_chars d
  | Decimal.D4 d => "4"%char :: uint_chars d
  | Decimal.D5 d => "5"%char :: uint_chars d
  | Decimal.D6 d => "6"%char :: uint_chars d
  | Decimal.D7 d => "7"%char :: uint_chars d
  | Decimal.D8 d => "8"%char :: uint_chars d
  | Decimal.D9 d => "9"%char :: uint_chars d
  end.

(** [int.__repr__(n)] *)
Definition int_repr (n : Z) : list ascii :=
  match n with
  | Z0 => ["0"%char]
  | Zpos p => uint_chars (Pos.to_uint p)
  | Zneg p => "-"%char :: uint_chars (Pos.to_uint p)
  end.

(** A line break and the indentation of a nesting level. *)
Definition newline_indent (level : nat) : list ascii :=
  "010"%char :: repeat " "%char (2 * level).

(** The chunks of [_iterencode] put together, at a nesting level. *)
Fixpoint iterencode (level : nat) (o : pyval) : list ascii :=
  match o with
  | PNone => chars "null"
  | PBool true => chars "true"
  | PBool false => chars "false"
  | PInt n => int_repr n
  | PStr s => encode_basestring_ascii s
  | PList [] => chars "[]"
  | PList (value :: values) =>
      chars "[" ++ newline_indent (S level) ++ iterencode (S level) value ++
      flat_map
        (fun value =>
           chars "," ++ newline_indent (S level) ++ iterencode (S level) value)
        values ++
      newline_indent level ++ chars "]"
  | PDict [] => chars "{}"
  | PDict (item :: items) =>
      chars "{" ++ newline_indent (S level) ++
      encode_basestring_ascii (fst item) ++ chars ": " ++
      iterencode (S level) (snd item) ++
      flat_map
        (fun item =>
           chars "," ++ newline_indent (S level) ++
           encode_basestring_ascii (fst item) ++ chars ": " ++
           iterencode (S level) (snd item))
        items ++
      newline_indent level ++ chars "}"
  end.

Definition json_dumps (obj : pyval) : string :=
  string_of_list_ascii (iterencode 0 obj).

(** ** [json.load(f)]

    The decoder reads a list of characters.  A step of it returns the value
    read and the text left, or fails as [JSONDecodeError] does.  Two
    outcomes are the model's own: [Unmodelled], for a text whose value is
    outside [pyval] (a float, [NaN], an infinity, a code point above 255),
    and [OutOfFuel], which [json_loads] never meets
    ([json_loads_has_fuel]). *)

Inductive decoded (A : Type) : Type :=
  | Decoded (a : A) (rest : list ascii)
  | DecodeError
  | Unmodelled
  | OutOfFuel.
Arguments Decoded {A} a rest.
Arguments DecodeError {A}.
Arguments Unmodelled {A}.
Arguments OutOfFuel {A}.

Definition decoded_map {A B} (f : A -> B) (d : decoded A) : decoded B :=
  match d with
  | Decoded a rest => Decoded (f a) rest
  | DecodeError => DecodeError
  | Unmodelled => Unmodelled
  | OutOfFuel => OutOfFuel
  end.

Definition char_is (c : ascii) (code : N) : bool := (N_of_ascii c =? code)%N.

(** The characters of [WHITESPACE]: space, tab, line feed, carriage
    return. *)
Definition is_ws (c : ascii) : bool :=
  char_is c 32 || char_is c 9 || char_is c 10 || char_is c 13.

Fixpoint skip_ws (s : list ascii) : list ascii :=
  match s with
  | c :: r => if is_ws c then skip_ws r else s
  | [] => []
  end.

Definition hex_val (c : ascii) : option N :=
  let n := N_of_ascii c in
  if (48 <=? n)%N && (n <=? 57)%N then Some (n - 48)%N
  else if (97 <=? n)%N && (n <=? 102)%N then Some (n - 87)%N
  else if (65 <=? n)%N && (n <=? 70)%N then Some (n - 55)%N
  else None.

(** [_decode_uXXXX]: the four characters after [\u] as a number. *)
Definition decode_uXXXX (a b c d : ascii) : option N :=
  match hex_val a, hex_val b, hex_val c, hex_val d with
  | Some x, Some y, Some z, Some w => Some (((x * 16 + y) * 16 + z) * 16 + w)%N
  | _, _, _, _ => None
  end.

(** [BACKSLASH]: the character an escape letter stands for. *)
Definition backslash (esc : ascii) : option ascii :=
  let n := N_of_ascii esc in
  if (n =? 34)%N then Some "034"%char
  else if (n =? 92)%N then Some "\"%char
  else if (n =? 47)%N then Some "/"%char
  else if (n =? 98)%N then Some "008"%char
  else if (n =? 102)%N then Some "012"%char
  else if (n =? 110)%N then Some "010"%char
  else if (n =? 114)%N then Some "013"%char
  else if (n =? 116)%N then Some "009"%char
  else None.

(** [scanstring], strict, from the character after the opening quote: the
    characters of the string and the text after the closing quote. *)
Fixpoint scanstring (s : list ascii) : decoded (list ascii) :=
  match s with
  | [] => DecodeError
  | c :: r =>
      if char_is c 34 then Decoded [] r
      else if char_is c 92 then
        match r with
        | [] => DecodeError
        | esc :: r1 =>
            if char_is esc 117 then
              match r1 with
              | h1 :: h2 :: h3 :: h4 :: r2 =>
                  match decode_uXXXX h1 h2 h3 h4 with
                  | Some uni =>
                      if (uni <? 256)%N
                      then decoded_map (cons (ascii_of_N uni)) (scanstring r2)
                      else Unmodelled
                  | None => DecodeError
                  end
              | _ => DecodeError
              end
            else
              match backslash esc with
              | Some ch => decoded_map (cons ch) (scanstring r1)
              | None => DecodeError
              end
        end
      else if (N_of_ascii c <? 32)%N then DecodeError
      else decoded_map (cons c) (scanstring r)
  end.

Definition digit_of_char (c : ascii) : option (Decimal.uint -> Decimal.uint) :=
  let n := N_of_ascii c in
  if (n =? 48)%N then Some Decimal.D0
  else if (n =? 49)%N then Some Decimal.D1
  else if (n =? 50)%N then Some Decimal.D2
  else if (n =? 51)%N then Some Decimal.D3
  else if (n =? 52)%N then Some Decimal.D4
  else if (n =? 53)%N then Some Decimal.D5
  else if (n =? 54)%N then Some Decimal.D6
  else if (n =? 55)%N then Some Decimal.D7
  else if (n =? 56)%N then Some Decimal.D8
  else if (n =? 57)%N then Some Decimal.D9
  else None.

(** The longest run of digits at the start of the text. *)
Fixpoint scan_digits (s : list ascii) : Decimal.uint * list ascii :=
  match s with
  | [] => (Decimal.Nil, [])
  | c :: r =>
      match digit_of_char c with
      | Some D => let (d, r') := scan_digits r in (D d, r')
      | None => (Decimal.Nil, s)
      end
  end.

(** The integer part of [NUMBER_RE]: a zero, or a digit that is not zero
    and the digits that follow. *)
Definition scan_integer (s : list ascii)
  : option (Decimal.uint * list ascii) :=
  match s with
  | c :: r =>
      if char_is c 48 then Some (Decimal.D0 Decimal.Nil, r)
      else if is_digit c then Some (scan_digits s)
      else None
  | [] => None
  end.

(** Whether a fraction (a point and a digit) or an exponent (an [e], an
    optional sign and a digit) follows: the number is then a float. *)
Definition float_follows (s : list ascii) : bool :=
  match s with
  | c :: d :: r =>
      (char_is c 46 && is_digit d) ||
      ((char_is c 101 || char_is c 69) &&
       (is_digit d ||
        ((char_is d 43 || char_is d 45) &&
         match r with e :: _ => is_digit e | [] => false end)))
  | _ => false
  end.

(** [s[idx:idx + len(p)] == p] *)
Fixpoint starts_with (p s : list ascii) : bool :=
  match p, s with
  | [], _ => true
  | a :: p', b :: s' => Ascii.eqb a b && starts_with p' s'
  | _ :: _, [] => false
  end.

(** The optional minus sign of [NUMBER_RE]. *)
Definition split_sign (s : list ascii) : bool * list ascii :=
  match s with
  | c :: r => if char_is c 45 then (true, r) else (false, s)
  | [] => (false, s)
  end.

(** The last branches of [scan_once]: a number, or one of the constants
    [NaN], [Infinity], [-Infinity]. *)
Definition scan_number (s : list ascii) : decoded pyval :=
  let (neg, s1) := split_sign s in
  match scan_integer s1 with
  | Some (d, rest) =>
      if float_follows rest then Unmodelled
      else
        let n := Z.of_N (Pos.of_uint d) in
        Decoded (PInt (if neg then - n else n)) rest
  | None =>
      if starts_with (chars "NaN") s || starts_with (chars "Infinity") s ||
         starts_with (chars "-Infinity") s
      then Unmodelled
      else DecodeError
  end.

(** The loop of [JSONArray], on a scanner for the values. *)
Fixpoint array_items (scan : list ascii -> decoded pyval) (fuel : nat)
    (values : list pyval) (s : list ascii) : decoded pyval :=
  match fuel with
  | O => OutOfFuel
  | S fuel =>
      match scan s with
      | Decoded value r =>
          match skip_ws r with
          | c :: r' =>
              if char_is c 93 then Decoded (PList (values ++ [value])) r'
              else if char_is c 44
              then array_items scan fuel (values ++ [value]) (skip_ws r')
              else DecodeError
          | [] => DecodeError
          end
      | DecodeError => DecodeError
      | Unmodelled => Unmodelled
      | OutOfFuel => OutOfFuel
      end
  end.

(** [JSONArray], from the character after the bracket. *)
Definition JSONArray (scan : list ascii -> decoded pyval) (fuel : nat)
    (s : list ascii) : decoded pyval :=
  match skip_ws s with
  | c :: r =>
      if char_is c 93 then Decoded (PList []) r
      else array_items scan fuel [] (c :: r)
  | [] => array_items scan fuel [] []
  end.

(** The loop of [JSONObject], from the character after the opening quote
    of a key. *)
Fixpoint object_items (scan : list ascii -> decoded pyval) (fuel : nat)
    (pairs : list (string * pyval)) (s : list ascii) : decoded pyval :=
  match fuel with
  | O => OutOfFuel
  | S fuel =>
      match scanstring s with
      | Decoded key r =>
          match skip_ws r with
          | c :: r1 =>
              if char_is c 58 then
                match scan (skip_ws r1) with
                | Decoded value r2 =>
                    let pairs :=
                      pairs ++ [(string_of_list_ascii key, value)] in
                    match skip_ws r2 with
                    | c2 :: r3 =>
                        if char_is c2 125
                        then Decoded (PDict (dict_of_pairs pairs)) r3
                        else if char_is c2 44 then
                          match skip_ws r3 with
                          | q :: r4 =>
                              if char_is q 34
                              then object_items scan fuel pairs r4
                              else DecodeError
                          | [] => DecodeError
                          end
                        else DecodeError
                    | [] => DecodeError
                    end
                | DecodeError => DecodeError
                | Unmodelled => Unmodelled
                | OutOfFuel => OutOfFuel
                end
              else DecodeError
          | [] => DecodeError
          end
      | DecodeError => DecodeError
      | Unmodelled => Unmodelled
      | OutOfFuel => OutOfFuel
      end
  end.

(** [JSONObject], from the character after the brace. *)
Definition JSONObject (scan : list ascii -> decoded pyval) (fuel : nat)
    (s : list ascii) : decoded pyval :=
  match skip_ws s with
  | c :: r =>
      if char_is c 125 then Decoded (PDict []) r
      else if char_is c 34 then object_items scan fuel [] r
      else DecodeError
  | [] => DecodeError
  end.

(** [scan_once]: one value at the start of the text. *)
Fixpoint scan_once (fuel : nat) (s : list ascii) : decoded pyval :=
  match fuel with
  | O => OutOfFuel
  | S fuel =>
      match s with
      | [] => DecodeError
      | c :: r =>
          if char_is c 34
          then decoded_map (fun k => PStr (string_of_list_ascii k))
                 (scanstring r)
          else if char_is c 123 then JSONObject (scan_once fuel) fuel r
          else if char_is c 91 then JSONArray (scan_once fuel) fuel r
          else if starts_with (chars "null") s
          then Decoded PNone (skipn 4 s)
          else if starts_with (chars "true") s
          then Decoded (PBool true) (skipn 4 s)
          else if starts_with (chars "false") s
          then Decoded (PBool false) (skipn 5 s)
          else scan_number s
      end
  end.

(** [JSONDecoder.decode]: one value between optional whitespace, and
    nothing else. *)
Definition decode (fuel : nat) (s : list ascii) : decoded pyval :=
  match scan_once fuel (skip_ws s) with
  | Decoded obj r =>
      match skip_ws r with
      | [] => Decoded obj []
      | _ :: _ => DecodeError
      end
  | d => d
  end.

(** [json.loads(text)]: [None] when the text has a value outside the
    model. *)
Definition json_loads (text : string) : option (result pyval) :=
  match decode (S (String.length text)) (chars text) with
  | Decoded obj _ => Some (Ok obj)
  | DecodeError => Some (Raise JSONDecodeError)
  | Unmodelled => None
  | OutOfFuel => None
  end.

(** ** The store

    The world the store acts on: what each file that exists holds, and the
    lines printed so far.  A file is named by its path: two spellings of
    the path of one file are not told apart from two files, so nothing is
    stated about them. *)

(** What a file holds.  Opened in text mode, its bytes either are a text
    in the encoding of the platform, or they are not, and then reading
    them raises [UnicodeDecodeError]. *)
Inductive content : Type :=
  | Text (text : string)
  | Undecodable.

Record world : Type := mkWorld {
  files : gmap string content;
  stdout : list string
}.

(** [open(file_path, "r")] and [f.read()] *)
Definition open_read (file_path : string) (w : world) : result string :=
  match files w !! file_path with
  | Some (Text text) => Ok text
  | Some Undecodable => Raise UnicodeDecodeError
  | None => Raise FileNotFoundError
  end.

(** [open(file_path, "w")] and the writes: the text replaces what the file
    held. *)
Definition open_write (file_path text : string) (w : world) : world :=
  mkWorld (<[file_path := Text text]> (files w)) (stdout w).

Definition print (line : string) (w : world) : world :=
  mkWorld (files w) (stdout w ++ [line]).

Definition DEFAULT_TASKS_FILE : string := "tasks.json".

Definition invalid_json_warning (file_path : string) : string :=
  ("Warning: " ++ file_path ++
   " contains invalid JSON. Creating new tasks list.")%string.

(** The result and the world after the call; [None] when the file holds a
    value outside the model. *)
Definition load_tasks (file_path : string) (w : world)
  : option (result pyval * world) :=
  let body :=
    match open_read file_path w with
    | Ok text => json_loads text
    | Raise e => Some (Raise e)
    end in
  match body with
  | None => None
  | Some (Ok obj) => Some (Ok obj, w)
  | Some (Raise FileNotFoundError) => Some (Ok (PList []), w)
  | Some (Raise JSONDecodeError) =>
      Some (Ok (PList []), print (invalid_json_warning file_path) w)
  | Some (Raise e) => Some (Raise e, w)
  end.

Definition save_tasks (tasks : pyval) (file_path : string) (w : world)
  : world :=
  open_write file_path (json_dumps tasks) w.

(** A world with no file and nothing printed. *)
Definition empty_world : world := mkWorld ∅ [].

(** ** The sort selector of the render path ([app.py], [main])

    The value of [sort_option] is one of ["None"], ["Priority"],
    ["Due Date"]. *)

Definition apply_sort (sort_option : string) (filtered_tasks : list Task.t)
  : list Task.t :=
  if String.eqb sort_option "Priority"
  then sort_tasks_by_priority filtered_tasks
  else if String.eqb sort_option "Due Date"
  then sort_tasks_by_due_date filtered_tasks
  else filtered_tasks.

(** The list the display loop runs over. *)
Definition render_list (tasks : list Task.t)
    (filter_category filter_priority : string) (show_completed : bool)
    (search_query sort_option : string) : result (list Task.t) :=
  let* filtered_tasks :=
    render_filters tasks filter_category filter_priority show_completed
      search_query in
  Ok (apply_sort sort_option filtered_tasks).

(** ** The form that adds a task ([app.py], [main])

    The values of the form are the arguments, [task_due_date] being the
    date picked ([st.date_input] returns a date: only its year, month and
    day are read).  The clock is read twice: [now] in the condition and
    [now'] for [created_at]. *)

(** [a.date() <= b] on the dates of two moments. *)
Definition date_le (a b : datetime) : bool :=
  negb (lex_lt [year b; month b; day b] [year a; month a; day a]).

(** [strftime("%Y-%m-%d H:%M:%S")]: the format has the letter [H] where a
    directive for the hour would be. *)
Definition strftime_created_at (dt : datetime) : string :=
  (strftime_ymd dt ++ " H:" ++ two_digits (minute dt) ++ ":" ++
   two_digits (second dt))%string.

Definition new_task (task_title task_description task_priority
    task_category : string) (task_due_date now' : datetime)
    (tasks : list Task.t) : Task.t :=
  Task.mk (generate_unique_id tasks) (Some task_title)
    (Some task_description) (Some task_priority) (Some task_category)
    (Some (strftime_ymd task_due_date)) (Some false)
    (Some (strftime_created_at now')).

(** The body of [with st.sidebar.form(...)] after the widgets: the list
    [tasks] and the world after it. *)
Definition add_task (submit_button : bool)
    (task_title task_description task_priority task_category : string)
    (task_due_date now now' : datetime) (tasks : list Task.t) (w : world)
  : list Task.t * world :=
  if submit_button && str_truthy task_title && str_truthy task_description &&
     date_le now task_due_date
  then
    let tasks :=
      tasks ++ [new_task task_title task_description task_priority
                  task_category task_due_date now' tasks] in
    (tasks, save_tasks (tasks_to_py tasks) DEFAULT_TASKS_FILE w)
  else (tasks, w).

(** ** The buttons of a displayed task ([app.py], [main])

    A click is given by the [id] of the task displayed beside the button.
    Both handlers end in [st.rerun()], which stops the run: the result is
    the list written and the world after the write. *)

(** [t["completed"] = c], the key being there. *)
Definition set_completed (t : Task.t) (c : bool) : Task.t :=
  Task.mk (Task.id t) (Task.title t) (Task.description t) (Task.priority t)
    (Task.category t) (Task.due_date t) (Some c) (Task.created_at t).

(** The loop [for t in tasks] of the Complete/Undo button up to the
    [st.rerun()] of the first task whose id is the one clicked: the list
    with that task toggled, or [None] when the loop ends without a
    match. *)
Fixpoint toggle_first (id : Z) (tasks : list Task.t)
  : result (option (list Task.t)) :=
  match tasks with
  | [] => Ok None
  | t :: rest =>
      if Task.id t =? id then
        let* c := subscript "completed" (Task.completed t) in
        Ok (Some (set_completed t (negb c) :: rest))
      else
        let* r := toggle_first id rest in
        Ok (option_map (cons t) r)
  end.

Definition complete_click (id : Z) (tasks : list Task.t) (w : world)
  : result (list Task.t * world) :=
  let* r := toggle_first id tasks in
  match r with
  | Some tasks =>
      Ok (tasks, save_tasks (tasks_to_py tasks) DEFAULT_TASKS_FILE w)
  | None => Ok (tasks, w)
  end.

Definition delete_click (id : Z) (tasks : list Task.t) (w : world)
  : list Task.t * world :=
  let tasks := List.filter (fun t => negb (Task.id t =? id)) tasks in
  (tasks, save_tasks (tasks_to_py tasks) DEFAULT_TASKS_FILE w).

(** * Statements

    What the specification says of the operations, in its own terms, and
    the measures the proofs use; the properties below relate these to the
    code above. *)

#[global] Instance Task_eq_dec : EqDecision Task.t.
Proof. solve_decision. Defined.

(** The statement of the search: [q] occurs in [s] up to case, that is,
    some contiguous run of [s] and [q] have the same lowering. *)
Definition ci_substring (q s : string) : Prop :=
  exists pre mid suf,
    s = (pre ++ mid ++ suf)%string /\ str_lower mid = str_lower q.

(** A task matches when its title or its description holds the query up
    to case; an absent title or description counts as empty. *)
Definition matches (q : string) (t : Task.t) : Prop :=
  ci_substring q (get (Task.title t) "") \/
  ci_substring q (get (Task.description t) "").

(** The filters of the render path on a list that carries the keys they
    read: the value ["All"] of a selector keeps everything. *)
Definition by_category (c : string) (l : list Task.t) : list Task.t :=
  if String.eqb c "All" then l
  else List.filter (fun t => bool_decide (Task.category t = Some c)) l.

Definition by_priority (p : string) (l : list Task.t) : list Task.t :=
  if String.eqb p "All" then l
  else List.filter (fun t => bool_decide (Task.priority t = Some p)) l.

Definition by_visibility (show_completed : bool) (l : list Task.t)
  : list Task.t :=
  if show_completed then l
  else List.filter (fun t => bool_decide (Task.completed t <> Some true)) l.

#[global] Instance datetime_eq_dec : EqDecision datetime.
Proof. solve_decision. Defined.

(** The task has a due date that [strptime] accepts. *)
Definition has_due_date (t : Task.t) : bool :=
  match strptime_ymd (get (Task.due_date t) "") with
  | Ok _ => true
  | Raise _ => false
  end.

(** The three priority classes of the sort: a priority that is absent or
    is none of High, Medium, Low falls in the class of Low. *)
Definition is_high (t : Task.t) : bool :=
  bool_decide (Task.priority t = Some "High").

Definition is_medium (t : Task.t) : bool :=
  bool_decide (Task.priority t = Some "Medium").

Definition is_low (t : Task.t) : bool := negb (is_high t) && negb (is_medium t).

(** The number of days from the start of the calendar to a date: day 1 is
    the first of January of year 1. *)
Definition days_before_year (y : Z) : Z :=
  let y := y - 1 in y * 365 + y / 4 - y / 100 + y / 400.

Definition days_before_month (y m : Z) : Z :=
  nth (Z.to_nat m) [0; 0; 31; 59; 90; 120; 151; 181; 212; 243; 273; 304; 334] 0
  + (if (2 <? m) && is_leap y then 1 else 0).

Definition ordinal (y m d : Z) : Z :=
  days_before_year y + days_before_month y m + d.

(** A moment as a timestamp: the microseconds from the start of the
    calendar. *)
Definition timestamp (dt : datetime) : Z :=
  (((ordinal (year dt) (month dt) (day dt) * 24 + hour dt) * 60 + minute dt)
   * 60 + second dt) * 1000000 + microsecond dt.

(** Twenty-four hours, in microseconds. *)
Definition day_us : Z := 86400000000.

(** The statement of the due-soon query at the moment [now]: the task is
    not completed (an absent flag counts as not completed) and its due
    date parses to a day whose midnight lies between [now] and twenty-four
    hours later, both ends included. *)
Definition DueSoon (now : datetime) (t : Task.t) : Prop :=
  get (Task.completed t) false = false /\
  exists d, strptime_ymd (get (Task.due_date t) "") = Ok d /\
            timestamp now <= timestamp d <= timestamp now + day_us.

(** The statement of the overdue query at the moment [now]: the task is
    not completed (an absent flag counts as not completed) and its due
    date parses to a day strictly before the day of [now]. *)
Definition Overdue (now : datetime) (t : Task.t) : Prop :=
  get (Task.completed t) false = false /\
  exists d, strptime_ymd (get (Task.due_date t) "") = Ok d /\
            lex_lt [year d; month d; day d]
                   [year now; month now; day now] = true.

(** A due date of four, two and two digits, the form the page writes:
    [strftime("%Y-%m-%d")] of a date. *)
Definition canonical_due_date (t : Task.t) : Prop :=
  exists d, check_date_fields (year d) (month d) (day d) = true /\
            Task.due_date t = Some (strftime_ymd d).

(** The last day a moment can be on. *)
Definition last_day : datetime := mkdt 9999 12 31 0 0 0 0.

(** A bound on the steps the decoder takes to read a value back: one for
    the value, one for each element of a list or dict, and the steps of
    the elements. *)
Fixpoint pysize (v : pyval) : nat :=
  match v with
  | PList values => S (fold_right (fun x n => (pysize x + S n)%nat) O values)
  | PDict items =>
      S (fold_right (fun kv n => (pysize (snd kv) + S n)%nat) O items)
  | _ => 1%nat
  end.

(** A text that ends a number: the end of the text, a comma or a line
    break. *)
Definition delimited (rest : list ascii) : Prop :=
  match rest with
  | [] => True
  | c :: _ => char_is c 44 || char_is c 10 = true
  end.

(** The first character of a value: no whitespace, no closing bracket. *)
Definition value_start (s : list ascii) : Prop :=
  match s with
  | c :: _ => is_ws c = false /\ char_is c 93 = false
  | [] => False
  end.

(** ** Tasks read from Python values

    [d.get(key)] on the items of a dict, and the record of a dict of the
    data model: the [id] an int, the [completed] flag a bool, the other
    fields strings. *)
Fixpoint py_get (key : string) (items : list (string * pyval))
  : option pyval :=
  match items with
  | [] => None
  | (k, v) :: items' => if String.eqb k key then Some v else py_get key items'
  end.

Definition get_str (key : string) (items : list (string * pyval))
  : option string :=
  match py_get key items with Some (PStr s) => Some s | _ => None end.

Definition get_bool (key : string) (items : list (string * pyval))
  : option bool :=
  match py_get key items with Some (PBool b) => Some b | _ => None end.

Definition task_of_py (v : pyval) : option Task.t :=
  match v with
  | PDict items =>
      match py_get "id" items with
      | Some (PInt i) =>
          Some (Task.mk i (get_str "title" items)
                  (get_str "description" items) (get_str "priority" items)
                  (get_str "category" items) (get_str "due_date" items)
                  (get_bool "completed" items) (get_str "created_at" items))
      | _ => None
      end
  | _ => None
  end.

Fixpoint all_some {A} (l : list (option A)) : option (list A) :=
  match l with
  | [] => Some []
  | Some x :: l' =>
      match all_some l' with Some r => Some (x :: r) | None => None end
  | None :: _ => None
  end.

Definition tasks_of_py (v : pyval) : option (list Task.t) :=
  match v with
  | PList values => all_some (List.map task_of_py values)
  | _ => None
  end.

(** A scanner that reads at least one character of what it is given. *)
Definition consumes (scan : list ascii -> decoded pyval) : Prop :=
  forall s v r, scan s = Decoded v r -> (length r < length s)%nat.

(** A scanner that has the fuel for every text of fewer than [m]
    characters. *)
Definition fuelled (scan : list ascii -> decoded pyval) (m : nat) : Prop :=
  forall s, (length s < m)%nat -> scan s <> OutOfFuel.

(** ** Text up to case

    Two code points are the same letter when they are equal or one is the
    capital of the other.  The capitals are A to Z, U+00C0 to U+00DE
    without the multiplication sign, Alpha to Rho and Sigma to Omega, each
    with its small letter 32 code points further; the final sigma U+03C2
    has the capital of the sigma U+03A3. *)

Definition capital_of (C c : N) : Prop :=
  ((65 <= C <= 90 \/ (192 <= C <= 222 /\ C <> 215) \/ 913 <= C <= 929 \/
    931 <= C <= 937) /\ c = C + 32)%N \/
  (C = 931 /\ c = 962)%N.

Definition same_letter (c d : N) : Prop :=
  c = d \/ capital_of c d \/ capital_of d c.

(** [q] occurs in [s] up to case: a contiguous run of [s] is [q] letter
    by letter. *)
Definition ci_contains (q s : Unicode.text) : Prop :=
  exists pre mid suf, s = pre ++ mid ++ suf /\ Forall2 same_letter mid q.

Definition text_matches (q : Unicode.text) (t : Unicode.Task.t) : Prop :=
  ci_contains q (get (Unicode.Task.title t) []) \/
  ci_contains q (get (Unicode.Task.description t) []).

(** A text that the model knows and that holds no capital sigma: every
    code point of it is lowered on its own. *)
Definition plain (s : Unicode.text) : Prop :=
  Forall (fun c => Unicode.modelled c = true /\ c <> Unicode.CAPITAL_SIGMA) s.

Definition plain_task (t : Unicode.Task.t) : Prop :=
  plain (get (Unicode.Task.title t) []) /\
  plain (get (Unicode.Task.description t) []).

(** The condition of the search on plain texts, as a test. *)
Definition plain_match (q : Unicode.text) (t : Unicode.Task.t) : bool :=
  Unicode.contains (List.map Unicode.to_lower q)
    (List.map Unicode.to_lower (get (Unicode.Task.title t) [])) ||
  Unicode.contains (List.map Unicode.to_lower q)
    (List.map Unicode.to_lower (get (Unicode.Task.description t) [])).


(** ** The limits of the interpreter

    The decoder of the interpreter gives up on a text that is nested too
    deep ([RecursionError]) and on an integer of more than 4300 digits
    ([ValueError]); neither is a [JSONDecodeError].  The model of the
    decoder has no such limit: what is stated about a text found in a file
    is stated for a text within both limits. *)









(** ** Days and times of day *)

(** The dates of two moments are the same. *)
Definition same_date (a b : datetime) : Prop :=
  year a = year b /\ month a = month b /\ day a = day b.

(** The time of day of a moment is midnight. *)
Definition at_midnight (dt : datetime) : Prop :=
  hour dt = 0 /\ minute dt = 0 /\ second dt = 0 /\ microsecond dt = 0.

(** ** Sample data

    The two tasks of the test fixture, at a clock reading of
    2026-11-04 10:30: the first is due the next day, the second was due
    the day before. *)

Definition now0 : datetime := mkdt 2026 11 4 10 30 0 0.

Definition task_one : Task.t :=
  Task.mk 1 (Some "Task One") (Some "First task") (Some "High") (Some "Work")
    (Some "2026-11-05") (Some false) (Some "2026-11-04 10:30:00").

Definition task_two : Task.t :=
  Task.mk 2 (Some "Task Two") (Some "Second task") (Some "Low")
    (Some "Personal") (Some "2026-11-03") (Some false)
    (Some "2026-11-04 10:30:00").

Definition sample_tasks : list Task.t := [task_one; task_two].

(** A task that is not completed and has no [due_date] key. *)
Definition task_undated : Task.t :=
  Task.mk 3 (Some "Some day") (Some "No date set") (Some "Low") (Some "Other")
    None (Some false) (Some "2026-11-04 10:30:00").

(** A task whose [due_date] is no date at all. *)
Definition task_malformed : Task.t :=
  Task.mk 4 (Some "Typo") (Some "Bad date") (Some "Low") (Some "Other")
    (Some "1999-13-45") (Some false) (Some "2026-11-04 10:30:00").

(** A task due on the first of September 2026, written without padding:
    [strptime] accepts it. *)
Definition task_unpadded : Task.t :=
  Task.mk 5 (Some "Old") (Some "Past date") (Some "Low") (Some "Other")
    (Some "2026-9-1") (Some false) (Some "2026-11-04 10:30:00").

(** A task whose title is the Greek word for road in capitals, ending in
    a capital sigma. *)
Definition task_odos : Unicode.Task.t :=
  Unicode.Task.mk 6 (Some [927; 916; 927; 931]%N) (Some [])
    (Some (Unicode.codes "Low")) (Some (Unicode.codes "Other"))
    (Some (Unicode.codes "2026-11-05")) (Some false)
    (Some (Unicode.codes "2026-11-04 H:30:00")).


(** * Properties *)

(** ** Strings *)

Lemma prefix_nil (s : string) : String.prefix "" s = true.
Proof. destruct s; reflexivity. Qed.

Lemma prefix_iff (q s : string) :
  String.prefix q s = true <-> exists suf, s = (q ++ suf)%string.
Proof.
  revert s. induction q as [|c q IH]; intros s.
  - rewrite prefix_nil. split; [intros _; now exists s | reflexivity].
  - destruct s as [|d s]; simpl.
    + split; [discriminate | intros [suf H]; discriminate].
    + destruct (ascii_dec c d) as [->|Hne].
      * rewrite IH. split; intros [suf H]; exists suf; congruence.
      * split; [discriminate | intros [suf H]; congruence].
Qed.

(** [str_in] decides occurrence as a contiguous run. *)
Lemma str_in_iff (q s : string) :
  str_in q s = true <-> exists pre suf, s = (pre ++ q ++ suf)%string.
Proof.
  induction s as [|c s IH].
  - cbn [str_in]. rewrite orb_false_r, prefix_iff. split.
    + intros [suf H]. now exists "", suf.
    + intros [[|x pre] [suf H]]; [now exists suf | discriminate].
  - cbn [str_in]. rewrite orb_true_iff, prefix_iff, IH. split.
    + intros [[suf H] | (pre & suf & H)].
      * now exists "", suf.
      * exists (String c pre), suf. simpl. now rewrite H.
    + intros ([|x pre] & suf & H).
      * left. now exists suf.
      * right. exists pre, suf. simpl in H. congruence.
Qed.

Lemma str_lower_app (a b : string) :
  str_lower (a ++ b) = (str_lower a ++ str_lower b)%string.
Proof. induction a as [|x a IH]; simpl; [reflexivity | now rewrite IH]. Qed.

(** A split of the lowered string comes from a split of the string. *)
Lemma str_lower_split (s a b : string) :
  str_lower s = (a ++ b)%string ->
  exists s1 s2, s = (s1 ++ s2)%string /\ str_lower s1 = a /\ str_lower s2 = b.
Proof.
  revert s. induction a as [|x a IH]; intros s H.
  - exists "", s. auto.
  - destruct s as [|c s]; [discriminate|]. simpl in H.
    injection H as Hc Hs. destruct (IH _ Hs) as (s1 & s2 & -> & H1 & H2).
    exists (String c s1), s2. simpl. now rewrite Hc, H1.
Qed.

Lemma str_in_lower_iff (q s : string) :
  str_in (str_lower q) (str_lower s) = true <-> ci_substring q s.
Proof.
  rewrite str_in_iff. split.
  - intros (pre & suf & H).
    apply str_lower_split in H as (s1 & s2 & -> & H1 & H2).
    apply str_lower_split in H2 as (s3 & s4 & -> & H3 & H4).
    now exists s1, s3, s4.
  - intros (pre & mid & suf & -> & H).
    exists (str_lower pre), (str_lower suf).
    now rewrite !str_lower_app, H.
Qed.

Lemma search_match_iff (q : string) (t : Task.t) :
  search_match (str_lower q) t = true <-> matches q t.
Proof.
  unfold search_match, matches.
  now rewrite orb_true_iff, !str_in_lower_iff.
Qed.


(** ** Search *)

Lemma filter_nil_iff {A} (f : A -> bool) (l : list A) :
  List.filter f l = [] <-> Forall (fun x => f x = false) l.
Proof.
  induction l as [|x l IH]; simpl.
  - split; [constructor | reflexivity].
  - destruct (f x) eqn:E; split; intros H.
    + discriminate.
    + inversion H; congruence.
    + constructor; [assumption | now apply IH].
    + inversion H; now apply IH.
Qed.

Lemma filter_sublist {A} (f : A -> bool) (l : list A) :
  sublist (List.filter f l) l.
Proof.
  induction l as [|x l IH]; simpl; [constructor|].
  destruct (f x); now constructor.
Qed.

Lemma count_occ_filter {A} (dec : forall x y : A, {x = y} + {x <> y})
    (f : A -> bool) (l : list A) (x : A) :
  count_occ dec (List.filter f l) x =
  if f x then count_occ dec l x else 0%nat.
Proof.
  induction l as [|y l IH]; simpl.
  - now destruct (f x).
  - destruct (f y) eqn:Ey; simpl; destruct (dec y x) as [->|Hne];
      rewrite IH; try reflexivity.
    + now rewrite Ey.
    + now rewrite Ey.
Qed.

(** On strings, that is, on text of code points below 256, [search_tasks]
    returns exactly the tasks whose title or description holds the query as
    a substring up to case: the result is the input with the other tasks
    dropped, in the same order and with no task repeated more often than
    the input has it; when no task matches it is empty. *)
Theorem search_tasks_exact (tasks : list Task.t) (q : string) :
  (forall t, In t (search_tasks tasks q) <-> In t tasks /\ matches q t) /\
  sublist (search_tasks tasks q) tasks /\
  (forall t, matches q t ->
     count_occ Task_eq_dec (search_tasks tasks q) t =
     count_occ Task_eq_dec tasks t) /\
  (Forall (fun t => ~ matches q t) tasks -> search_tasks tasks q = []).
Proof.
  unfold search_tasks. split; [|split; [|split]].
  - intros t. rewrite filter_In, search_match_iff. reflexivity.
  - apply filter_sublist.
  - intros t Ht. rewrite count_occ_filter.
    apply search_match_iff in Ht. now rewrite Ht.
  - intros H. apply filter_nil_iff.
    eapply Forall_impl; [exact H|]. intros t Ht. cbv beta in Ht.
    destruct (search_match (str_lower q) t) eqn:E; [|reflexivity].
    exfalso. apply Ht. now apply search_match_iff.
Qed.

(** C10: with the empty query, [search_tasks] returns its input unchanged. *)
Theorem search_tasks_empty_query (tasks : list Task.t) :
  search_tasks tasks "" = tasks.
Proof.
  unfold search_tasks. induction tasks as [|t l IH]; [reflexivity|].
  cbn [List.filter]. unfold search_match at 1. cbn [str_lower].
  assert (H : forall s, str_in "" s = true).
  { intros s. apply str_in_iff. now exists "", s. }
  rewrite H. cbn [orb]. now f_equal.
Qed.

(** ** Search on text of any code point *)


Lemma modelled_spec (c : N) :
  Unicode.modelled c = true <->
  (c < 256 \/ 913 <= c <= 929 \/ 931 <= c <= 937 \/ 945 <= c <= 969)%N.
Proof.
  unfold Unicode.modelled.
  rewrite !orb_true_iff, !andb_true_iff, !N.leb_le, N.ltb_lt. lia.
Qed.


Lemma plain_app (a b : Unicode.text) : plain (a ++ b) <-> plain a /\ plain b.
Proof. apply Forall_app. Qed.

Lemma lower_from_plain (before s : Unicode.text) :
  plain s -> Unicode.lower_from before s = List.map Unicode.to_lower s.
Proof.
  intros H. revert before.
  induction H as [|c s [_ Hc] Hs IH]; intros before; [reflexivity|].
  cbn [Unicode.lower_from List.map].
  apply N.eqb_neq in Hc. rewrite Hc. now rewrite IH.
Qed.

(** On a plain text [str.lower()] lowers every code point on its own. *)
Lemma lower_plain (s : Unicode.text) :
  plain s -> Unicode.lower s = Some (List.map Unicode.to_lower s).
Proof.
  intros H. unfold Unicode.lower.
  assert (Hm : forallb Unicode.modelled s = true).
  { apply forallb_forall. intros c Hc. unfold plain in H.
    rewrite Forall_forall in H. apply list_elem_of_In in Hc.
    now destruct (H c Hc). }
  rewrite Hm. now rewrite lower_from_plain.
Qed.

Lemma starts_with_iff (q s : Unicode.text) :
  Unicode.starts_with q s = true <-> exists suf, s = q ++ suf.
Proof.
  revert s. induction q as [|c q IH]; intros s; cbn [Unicode.starts_with].
  - split; [intros _; now exists s | reflexivity].
  - destruct s as [|d s].
    + split; [discriminate | intros [suf H]; discriminate].
    + rewrite andb_true_iff, N.eqb_eq, IH. split.
      * intros [-> [suf ->]]. now exists suf.
      * intros [suf H]. injection H as -> ->. split; [reflexivity|].
        now exists suf.
Qed.

(** [contains] decides occurrence as a contiguous run. *)
Lemma contains_iff (q s : Unicode.text) :
  Unicode.contains q s = true <-> exists pre suf, s = pre ++ q ++ suf.
Proof.
  induction s as [|c s IH]; cbn [Unicode.contains].
  - rewrite orb_false_r, starts_with_iff. split.
    + intros [suf H]. now exists [], suf.
    + intros ([|x pre] & suf & H); [now exists suf | discriminate].
  - rewrite orb_true_iff, starts_with_iff, IH. split.
    + intros [[suf H] | (pre & suf & H)].
      * now exists [], suf.
      * exists (c :: pre), suf. cbn [app]. now rewrite H.
    + intros ([|x pre] & suf & H).
      * left. now exists suf.
      * right. exists pre, suf. cbn [app] in H. congruence.
Qed.



Lemma search_match_plain (q : Unicode.text) (t : Unicode.Task.t) :
  plain_task t ->
  Unicode.search_match (List.map Unicode.to_lower q) t =
    Some (plain_match q t).
Proof.
  intros [Ht Hd]. unfold Unicode.search_match, plain_match.
  rewrite (lower_plain _ Ht), (lower_plain _ Hd).
  now destruct (Unicode.contains _ _).
Qed.


Lemma comprehension_total {A} (cond : A -> option bool) (f : A -> bool)
    (l : list A) :
  Forall (fun x => cond x = Some (f x)) l ->
  Unicode.comprehension cond l = Some (List.filter f l).
Proof.
  induction 1 as [|x l Hx Hl IH]; [reflexivity|].
  cbn [Unicode.comprehension List.filter]. now rewrite Hx, IH.
Qed.

(** On plain texts the search is a filter. *)
Lemma search_tasks_plain_filter (tasks : list Unicode.Task.t)
    (q : Unicode.text) :
  plain q -> Forall plain_task tasks ->
  Unicode.search_tasks tasks q = Some (List.filter (plain_match q) tasks).
Proof.
  intros Hq Hall. unfold Unicode.search_tasks. rewrite (lower_plain q Hq).
  apply comprehension_total.
  eapply Forall_impl; [exact Hall|]. intros t Ht.
  now apply search_match_plain.
Qed.


Lemma plain_codes (s : string) : plain (Unicode.codes s).
Proof.
  unfold plain, Unicode.codes. apply Forall_forall. intros c Hc.
  apply list_elem_of_In, in_map_iff in Hc as (a & <- & _).
  pose proof (N_ascii_bounded a) as Hb.
  split; [apply modelled_spec; now left|].
  unfold Unicode.CAPITAL_SIGMA. lia.
Qed.

Lemma plain_unicode_task (t : Task.t) : plain_task (unicode_task t).
Proof.
  unfold plain_task, unicode_task.
  cbn [Unicode.Task.title Unicode.Task.description].
  destruct (Task.title t), (Task.description t); cbn [option_map get];
    split; try apply plain_codes; constructor.
Qed.


(** C9: with a capital sigma the search is not occurrence up to case.  The
    query that is the sigma alone occurs, as it is, in a title that ends in
    this sigma, and the search does not find the task, because the sigma
    of the title is lowered to the final sigma and the sigma of the query
    to the small sigma. *)
Theorem search_tasks_final_sigma :
  In task_odos [task_odos] /\
  text_matches [Unicode.CAPITAL_SIGMA] task_odos /\
  Unicode.search_tasks [task_odos] [Unicode.CAPITAL_SIGMA] = Some [].
Proof.
  split; [now left|]. split; [|reflexivity].
  left. exists [927; 916; 927]%N, [Unicode.CAPITAL_SIGMA], [].
  split; [reflexivity|]. constructor; [now left | constructor].
Qed.

(** *** The search on text of code points below 256 *)

Lemma to_lower_code (c : ascii) :
  Unicode.to_lower (N_of_ascii c) = N_of_ascii (lower_char c).
Proof. destruct c as [[] [] [] [] [] [] [] []]; reflexivity. Qed.

Lemma codes_str_lower (s : string) :
  List.map Unicode.to_lower (Unicode.codes s) = Unicode.codes (str_lower s).
Proof.
  unfold Unicode.codes. induction s as [|c s IH]; [reflexivity|].
  cbn [list_ascii_of_string List.map str_lower]. now rewrite to_lower_code, IH.
Qed.

(** [str_lower] is [str.lower()] on a text of code points below 256. *)
Lemma lower_codes (s : string) :
  Unicode.lower (Unicode.codes s) = Some (Unicode.codes (str_lower s)).
Proof. now rewrite (lower_plain _ (plain_codes s)), codes_str_lower. Qed.

Lemma codes_app (a b : string) :
  Unicode.codes (a ++ b) = Unicode.codes a ++ Unicode.codes b.
Proof.
  unfold Unicode.codes. induction a as [|c a IH]; [reflexivity|].
  cbn [String.append list_ascii_of_string List.map app]. now rewrite IH.
Qed.

Lemma codes_inj (a b : string) : Unicode.codes a = Unicode.codes b -> a = b.
Proof.
  unfold Unicode.codes. revert b.
  induction a as [|c a IH]; intros [|d b]; cbn [list_ascii_of_string List.map];
    try discriminate; [reflexivity|].
  intros H. injection H as Hc Hs.
  rewrite <- (ascii_N_embedding c), <- (ascii_N_embedding d), Hc.
  f_equal. now apply IH.
Qed.

Lemma codes_split (s : string) (a b : Unicode.text) :
  Unicode.codes s = a ++ b ->
  exists s1 s2, s = (s1 ++ s2)%string /\ Unicode.codes s1 = a /\
                Unicode.codes s2 = b.
Proof.
  revert s. induction a as [|x a IH]; intros s H.
  - exists "", s. auto.
  - destruct s as [|c s]; [discriminate|].
    unfold Unicode.codes in H. cbn [list_ascii_of_string List.map app] in H.
    injection H as Hc Hs. destruct (IH s Hs) as (s1 & s2 & -> & H1 & H2).
    exists (String c s1), s2. split; [reflexivity|]. split; [|exact H2].
    unfold Unicode.codes. cbn [list_ascii_of_string List.map].
    unfold Unicode.codes in H1. now rewrite Hc, H1.
Qed.

Lemma contains_codes (q s : string) :
  Unicode.contains (Unicode.codes q) (Unicode.codes s) = str_in q s.
Proof.
  apply Bool.eq_iff_eq_true. rewrite contains_iff, str_in_iff. split.
  - intros (pre & suf & H).
    apply codes_split in H as (s1 & s2 & -> & H1 & H2).
    apply codes_split in H2 as (s3 & s4 & -> & H3 & H4).
    apply codes_inj in H3 as ->. now exists s1, s4.
  - intros (pre & suf & ->). exists (Unicode.codes pre), (Unicode.codes suf).
    now rewrite !codes_app.
Qed.

(** The search of the model on strings is the search of the code on texts
    of code points below 256. *)
Lemma search_tasks_codes (tasks : list Task.t) (q : string) :
  Unicode.search_tasks (List.map unicode_task tasks) (Unicode.codes q) =
  Some (List.map unicode_task (search_tasks tasks q)).
Proof.
  unfold Unicode.search_tasks, search_tasks. rewrite lower_codes.
  induction tasks as [|t l IH]; [reflexivity|].
  cbn [List.map Unicode.comprehension List.filter]. rewrite IH.
  assert (E : Unicode.search_match (Unicode.codes (str_lower q))
                (unicode_task t) = Some (search_match (str_lower q) t)).
  { unfold Unicode.search_match, search_match, unicode_task.
    cbn [Unicode.Task.title Unicode.Task.description].
    assert (G : forall o : option string,
              Unicode.lower (get (option_map Unicode.codes o) []) =
              Some (Unicode.codes (str_lower (get o "")))).
    { intros [s|]; cbn [option_map get]; [apply lower_codes | reflexivity]. }
    rewrite !G, !contains_codes.
    now destruct (str_in (str_lower q) (str_lower (get (Task.title t) ""))). }
  rewrite E. now destruct (search_match (str_lower q) t).
Qed.

(** ** Id allocator *)

Lemma py_max_spec (x : Z) (xs : list Z) :
  In (py_max x xs) (x :: xs) /\ Forall (fun y => y <= py_max x xs) (x :: xs).
Proof.
  unfold py_max. revert x. induction xs as [|y xs IH]; intros x.
  - simpl. split; [now left | constructor; [lia | constructor]].
  - cbn [fold_left]. destruct (IH (Z.max x y)) as [Hin Hall].
    inversion Hall as [|? ? Hm Hxs]; subst. split.
    + destruct Hin as [Hin | Hin]; [|now right; right].
      rewrite <- Hin. destruct (Z.max_spec x y) as [[_ ->] | [_ ->]];
        [right; now left | now left].
    + constructor; [lia|]. constructor; [lia | assumption].
Qed.

(** C3: [generate_unique_id] is 1 on the empty list and one more than the
    largest id otherwise, and no task of the list has the id returned. *)
Theorem generate_unique_id_spec (tasks : list Task.t) :
  match tasks with
  | [] => generate_unique_id tasks = 1
  | _ :: _ =>
      exists m, In m (map Task.id tasks) /\
                Forall (fun i => i <= m) (map Task.id tasks) /\
                generate_unique_id tasks = 1 + m
  end /\
  Forall (fun t => Task.id t <> generate_unique_id tasks) tasks.
Proof.
  destruct tasks as [|t ts]; [split; [reflexivity | constructor]|].
  destruct (py_max_spec (Task.id t) (map Task.id ts)) as [Hin Hall].
  split.
  - exists (py_max (Task.id t) (map Task.id ts)).
    cbn [map generate_unique_id]. repeat split; [assumption.. | lia].
  - change (Task.id t :: map Task.id ts) with (map Task.id (t :: ts)) in Hall.
    rewrite Forall_map in Hall.
    eapply Forall_impl; [exact Hall|].
    intros a Ha. cbv beta in Ha. cbn [generate_unique_id]. lia.
Qed.

(** ** The render path *)

Lemma get_eq_decide (field : option string) (value : string) :
  get_eq field value = bool_decide (field = Some value).
Proof.
  unfold get_eq. destruct field as [v|].
  - destruct (String.eqb_spec v value) as [->|Hne]; symmetry.
    + now apply bool_decide_eq_true_2.
    + apply bool_decide_eq_false_2. congruence.
  - symmetry. now apply bool_decide_eq_false_2.
Qed.

Lemma filter_ext_eq {A} (f g : A -> bool) (l : list A) :
  (forall x, f x = g x) -> List.filter f l = List.filter g l.
Proof.
  intros H. induction l as [|x l IH]; simpl; [reflexivity|].
  now rewrite H, IH.
Qed.

Lemma by_category_code (c : string) (l : list Task.t) :
  (if negb (String.eqb c "All") then filter_tasks_by_category l c else l)
  = by_category c l.
Proof.
  unfold by_category, filter_tasks_by_category.
  destruct (String.eqb c "All"); [reflexivity|]. cbn [negb].
  apply filter_ext_eq. intros t. apply get_eq_decide.
Qed.

Lemma by_priority_code (p : string) (l : list Task.t) :
  (if negb (String.eqb p "All") then filter_tasks_by_priority l p else l)
  = by_priority p l.
Proof.
  unfold by_priority, filter_tasks_by_priority.
  destruct (String.eqb p "All"); [reflexivity|]. cbn [negb].
  apply filter_ext_eq. intros t. apply get_eq_decide.
Qed.

(** When the comprehension over [task["completed"]] returns, it has kept
    the tasks that are not completed. *)
Lemma hide_completed_ok (l r : list Task.t) :
  hide_completed l = Ok r -> r = by_visibility false l.
Proof.
  unfold by_visibility. revert r.
  induction l as [|t l IH]; intros r H; simpl in H.
  - now injection H as <-.
  - destruct (Task.completed t) as [c|] eqn:Ec; [|discriminate].
    cbn [subscript bind] in H.
    destruct (hide_completed l) as [r'|e]; [|discriminate].
    cbn [bind] in H. injection H as <-. cbn [List.filter].
    rewrite Ec, (IH r' eq_refl). now destruct c.
Qed.

(** It returns when every task carries the key. *)
Lemma hide_completed_total (l : list Task.t) :
  Forall (fun t => is_Some (Task.completed t)) l ->
  hide_completed l = Ok (by_visibility false l).
Proof.
  intros H. destruct (hide_completed l) as [r|e] eqn:E.
  - now rewrite (hide_completed_ok _ _ E).
  - exfalso. revert e E. induction H as [|t l [c Hc] Hl IH]; intros e E.
    + discriminate.
    + simpl in E. rewrite Hc in E. cbn [subscript bind] in E.
      destruct (hide_completed l) as [r'|e'] eqn:E'; [discriminate|].
      now apply (IH e').
Qed.

Lemma apply_filters_ok (c p : string) (show : bool) (l r : list Task.t) :
  apply_filters c p show l = Ok r ->
  r = by_visibility show (by_priority p (by_category c l)).
Proof.
  unfold apply_filters. rewrite by_category_code, by_priority_code.
  destruct show; cbn [negb].
  - now intros [= <-].
  - apply hide_completed_ok.
Qed.

Lemma Forall_filter_keep {A} (P : A -> Prop) (f : A -> bool) (l : list A) :
  Forall P l -> Forall P (List.filter f l).
Proof.
  intros H. induction H as [|x l Hx Hl IH]; simpl; [constructor|].
  destruct (f x); [now constructor | assumption].
Qed.

Lemma apply_filters_total (c p : string) (show : bool) (l : list Task.t) :
  Forall (fun t => is_Some (Task.completed t)) l ->
  apply_filters c p show l =
  Ok (by_visibility show (by_priority p (by_category c l))).
Proof.
  intros H. unfold apply_filters. rewrite by_category_code, by_priority_code.
  destruct show; cbn [negb]; [reflexivity|].
  apply hide_completed_total.
  unfold by_priority, by_category.
  destruct (String.eqb p "All"), (String.eqb c "All");
    repeat apply Forall_filter_keep; assumption.
Qed.

(** C2: with a non-empty search query, the list handed to the display is
    the category, priority and visibility filters applied to the search of
    the whole collection: whenever the render path produces a list it is
    that one, and it produces it whenever every task carries the
    [completed] key.  Nothing of the filtering done before the search
    reaches the result. *)
Theorem render_filters_search_first
    (tasks : list Task.t) (filter_category filter_priority : string)
    (show_completed : bool) (search_query : string) :
  search_query <> "" ->
  let shown :=
    by_visibility show_completed
      (by_priority filter_priority
         (by_category filter_category (search_tasks tasks search_query))) in
  (forall l,
     render_filters tasks filter_category filter_priority show_completed
       search_query = Ok l -> l = shown) /\
  (Forall (fun t => is_Some (Task.completed t)) tasks ->
   render_filters tasks filter_category filter_priority show_completed
     search_query = Ok shown).
Proof.
  intros Hq shown. unfold render_filters.
  assert (Ht : str_truthy search_query = true)
    by (destruct search_query; [congruence | reflexivity]).
  rewrite Ht. split.
  - intros l H.
    destruct (apply_filters _ _ _ tasks) as [r0|e]; [|discriminate].
    cbn [bind] in H. now apply apply_filters_ok in H.
  - intros Hall. rewrite (apply_filters_total _ _ _ tasks Hall). cbn [bind].
    apply apply_filters_total. now apply Forall_filter_keep.
Qed.

(** ** The stable sort *)

Section SortedFacts.
Context {A K : Type} `{EqDecision K}.
Variable lt : K -> K -> bool.
Variable key : A -> K.

Hypothesis lt_asym : forall a b, lt a b = true -> lt b a = false.
Hypothesis lt_trans :
  forall a b c, lt a b = true -> lt b c = true -> lt a c = true.
Hypothesis lt_total : forall a b, lt a b = false -> lt b a = false -> a = b.

(** [a <= b] on keys. *)
Let le (a b : K) : Prop := lt b a = false.
Let le_key (x y : A) : Prop := le (key x) (key y).

Lemma lt_irrefl a : lt a a = false.
Proof.
  destruct (lt a a) eqn:E; [|reflexivity].
  pose proof (lt_asym _ _ E). congruence.
Qed.

Lemma le_trans a b c : le a b -> le b c -> le a c.
Proof.
  unfold le. intros Hab Hbc. destruct (lt c a) eqn:Hca; [|reflexivity].
  destruct (lt a b) eqn:E.
  - rewrite (lt_trans _ _ _ Hca E) in Hbc. discriminate.
  - rewrite (lt_total _ _ E Hab) in Hca. congruence.
Qed.

Lemma insert_by_perm x s : Permutation (insert_by lt key x s) (x :: s).
Proof.
  induction s as [|y s IH]; simpl; [reflexivity|].
  destruct (lt (key y) (key x)); [|reflexivity].
  rewrite IH. apply perm_swap.
Qed.

Lemma sorted_perm l : Permutation (sorted lt key l) l.
Proof.
  induction l as [|x l IH]; simpl; [reflexivity|].
  now rewrite insert_by_perm, IH.
Qed.

Lemma insert_by_sorted x s :
  StronglySorted le_key s -> StronglySorted le_key (insert_by lt key x s).
Proof.
  induction 1 as [|y s Hs IH Hy]; simpl.
  - repeat constructor.
  - destruct (lt (key y) (key x)) eqn:E.
    + constructor; [assumption|].
      apply (Permutation_Forall (Permutation_sym (insert_by_perm x s))).
      constructor; [|assumption].
      unfold le_key, le. now apply lt_asym.
    + constructor; [now constructor|].
      constructor; [exact E|].
      eapply Forall_impl; [exact Hy|]. intros z Hz.
      eapply le_trans; [exact E | exact Hz].
Qed.

Lemma sorted_sorted l : StronglySorted le_key (sorted lt key l).
Proof.
  induction l as [|x l IH]; simpl; [constructor|].
  now apply insert_by_sorted.
Qed.

(** Insertion puts [x] in front of the elements of its own key. *)
Lemma insert_by_filter_key k x s :
  List.filter (fun y => bool_decide (key y = k)) (insert_by lt key x s) =
  List.filter (fun y => bool_decide (key y = k)) (x :: s).
Proof.
  induction s as [|y s IH]; [reflexivity|].
  cbn [insert_by]. destruct (lt (key y) (key x)) eqn:E; [|reflexivity].
  cbn [List.filter] in *. rewrite IH.
  destruct (bool_decide (key x = k)) eqn:Ex; [|reflexivity].
  destruct (bool_decide (key y = k)) eqn:Ey; [|reflexivity].
  apply bool_decide_eq_true_1 in Ex, Ey.
  rewrite Ex, Ey, lt_irrefl in E. discriminate.
Qed.

(** Stability: the elements of one key keep their order. *)
Lemma sorted_stable k l :
  List.filter (fun y => bool_decide (key y = k)) (sorted lt key l) =
  List.filter (fun y => bool_decide (key y = k)) l.
Proof.
  induction l as [|x l IH]; [reflexivity|].
  cbn [sorted]. rewrite insert_by_filter_key.
  cbn [List.filter]. now rewrite IH.
Qed.

(** Elements of a greatest key stay behind, in their order. *)
Lemma insert_by_app_top x s top :
  Forall (fun z => lt (key z) (key x) = false) top ->
  insert_by lt key x (s ++ top) = insert_by lt key x s ++ top.
Proof.
  intros Htop. induction s as [|y s IH]; simpl.
  - destruct Htop as [|z top Hz Htop]; simpl; [reflexivity|].
    now rewrite Hz.
  - destruct (lt (key y) (key x)); [now rewrite IH | reflexivity].
Qed.

Lemma insert_by_last x s :
  Forall (fun y => lt (key y) (key x) = true) s ->
  insert_by lt key x s = s ++ [x].
Proof.
  induction 1 as [|y s Hy Hs IH]; simpl; [reflexivity|].
  now rewrite Hy, IH.
Qed.

(** With a greatest key [top], the result is the sort of the elements
    below [top], then the elements of key [top] in their order. *)
Lemma sorted_top_last (top : K) l :
  (forall y, lt top (key y) = false) ->
  sorted lt key l =
  sorted lt key (List.filter (fun y => negb (bool_decide (key y = top))) l)
  ++ List.filter (fun y => bool_decide (key y = top)) l.
Proof.
  intros Htop. induction l as [|x l IH]; [reflexivity|].
  cbn [sorted List.filter]. rewrite IH at 1.
  destruct (bool_decide (key x = top)) eqn:Ex; cbn [negb sorted].
  - apply bool_decide_eq_true_1 in Ex.
    rewrite insert_by_app_top.
    + rewrite insert_by_last; [now rewrite <- app_assoc|].
      apply (Permutation_Forall (Permutation_sym (sorted_perm _))).
      apply Forall_forall. intros y Hy.
      apply list_elem_of_In, filter_In in Hy as [_ Hy].
      apply negb_true_iff, bool_decide_eq_false_1 in Hy.
      destruct (lt (key y) (key x)) eqn:E; [reflexivity|].
      exfalso. apply Hy. rewrite Ex in *.
      apply lt_total; [exact E | apply Htop].
    + apply Forall_forall. intros z Hz.
      apply list_elem_of_In, filter_In in Hz as [_ Hz].
      apply bool_decide_eq_true_1 in Hz. rewrite Hz, Ex. apply lt_irrefl.
  - rewrite insert_by_app_top; [reflexivity|].
    apply Forall_forall. intros z Hz.
    apply list_elem_of_In, filter_In in Hz as [_ Hz].
    apply bool_decide_eq_true_1 in Hz. rewrite Hz. apply Htop.
Qed.
End SortedFacts.

(** ** Sort by priority *)

Lemma Zltb_asym (a b : Z) : (a <? b) = true -> (b <? a) = false.
Proof. lia. Qed.

Lemma Zltb_trans (a b c : Z) :
  (a <? b) = true -> (b <? c) = true -> (a <? c) = true.
Proof. lia. Qed.

Lemma Zltb_total (a b : Z) : (a <? b) = false -> (b <? a) = false -> a = b.
Proof. lia. Qed.

Lemma priority_order_get_cases (p : string) :
  (p = "High" /\ priority_order_get p = 1) \/
  (p = "Medium" /\ priority_order_get p = 2) \/
  (p <> "High" /\ p <> "Medium" /\ priority_order_get p = 3).
Proof.
  unfold priority_order_get.
  destruct (String.eqb_spec p "High") as [->|H1]; [now left|].
  destruct (String.eqb_spec p "Medium") as [->|H2]; [right; now left|].
  right; right. now destruct (String.eqb p "Low").
Qed.

(** The sort key tells the three classes apart. *)
Lemma priority_key_class (t : Task.t) :
  bool_decide (priority_key t = 1) = is_high t /\
  bool_decide (priority_key t = 2) = is_medium t /\
  bool_decide (priority_key t = 3) = is_low t.
Proof.
  unfold priority_key, is_low, is_high, is_medium.
  destruct (Task.priority t) as [p|]; cbn [get].
  - destruct (priority_order_get_cases p)
      as [[-> ->] | [[-> ->] | (H1 & H2 & ->)]]; [now vm_compute.. |].
    rewrite !(bool_decide_eq_false_2 (Some p = _)) by congruence.
    now vm_compute.
  - now vm_compute.
Qed.

Lemma priority_key_range (t : Task.t) :
  priority_key t = 1 \/ priority_key t = 2 \/ priority_key t = 3.
Proof.
  unfold priority_key.
  destruct (priority_order_get_cases (get (Task.priority t) "Low"))
    as [[_ ->] | [[_ ->] | (_ & _ & ->)]]; auto.
Qed.

Lemma filter_none {A} (f : A -> bool) (l : list A) :
  Forall (fun x => f x = false) l -> List.filter f l = [].
Proof. apply filter_nil_iff. Qed.

(** A list in ascending order of a key among 1, 2, 3 is its elements of
    key 1, then those of key 2, then those of key 3. *)
Lemma three_buckets {A} (key : A -> Z) (l : list A) :
  Forall (fun x => key x = 1 \/ key x = 2 \/ key x = 3) l ->
  StronglySorted (fun x y => (key y <? key x) = false) l ->
  l = List.filter (fun x => bool_decide (key x = 1)) l ++
      List.filter (fun x => bool_decide (key x = 2)) l ++
      List.filter (fun x => bool_decide (key x = 3)) l.
Proof.
  intros Hr Hs. induction Hs as [|x l Hs IH Hx]; [reflexivity|].
  inversion Hr as [|? ? Hkx Hr']; subst. specialize (IH Hr').
  cbn [List.filter].
  assert (Hlow : forall k, k < key x ->
            List.filter (fun y => bool_decide (key y = k)) l = []).
  { intros k Hk. apply filter_none. eapply Forall_impl; [exact Hx|].
    intros y Hy. cbv beta in Hy. apply bool_decide_eq_false_2. lia. }
  destruct Hkx as [Hk | [Hk | Hk]]; rewrite Hk in *;
    repeat match goal with
    | |- context [bool_decide (?a = ?b)] =>
        first [ rewrite (bool_decide_eq_true_2 (a = b)) by reflexivity
              | rewrite (bool_decide_eq_false_2 (a = b)) by discriminate ]
    end.
  - cbn [app]. now rewrite <- IH.
  - rewrite (Hlow 1) in IH |- * by lia. cbn [app] in IH |- *.
    now rewrite <- IH.
  - rewrite (Hlow 1), (Hlow 2) in IH |- * by lia. cbn [app] in IH |- *.
    now rewrite <- IH.
Qed.

(** C8: [sort_tasks_by_priority] is a stable sort that puts the High tasks
    first, then the Medium ones, then the rest (Low, absent and
    unrecognised priorities alike), each class in the order of the input. *)
Theorem sort_tasks_by_priority_spec (tasks : list Task.t) :
  Permutation (sort_tasks_by_priority tasks) tasks /\
  sort_tasks_by_priority tasks =
    List.filter is_high tasks ++ List.filter is_medium tasks ++
    List.filter is_low tasks.
Proof.
  unfold sort_tasks_by_priority. split.
  - apply sorted_perm.
  - rewrite (three_buckets priority_key (sorted Z.ltb priority_key tasks)).
    + rewrite !(sorted_stable Z.ltb priority_key Zltb_asym).
      f_equal; [|f_equal]; apply filter_ext_eq; intros t;
        apply priority_key_class.
    + apply Forall_forall. intros t _. apply priority_key_range.
    + apply (sorted_sorted Z.ltb priority_key Zltb_asym Zltb_trans Zltb_total).
Qed.

(** ** Order of moments *)

Lemma lex_lt_asym (a b : list Z) : lex_lt a b = true -> lex_lt b a = false.
Proof.
  revert b. induction a as [|x a IH]; intros [|y b]; simpl; try discriminate.
  intros H. apply orb_true_iff in H as [H | H].
  - apply orb_false_iff. split; [lia|].
    apply andb_false_iff. left. lia.
  - apply andb_true_iff in H as [Hxy H]. apply IH in H.
    apply orb_false_iff. split; [lia|]. now rewrite H, andb_false_r.
Qed.

Lemma lex_lt_trans (a b c : list Z) :
  lex_lt a b = true -> lex_lt b c = true -> lex_lt a c = true.
Proof.
  revert b c. induction a as [|x a IH]; intros [|y b] [|z c]; simpl;
    try discriminate.
  intros H1 H2.
  apply orb_true_iff in H1 as [H1 | H1], H2 as [H2 | H2];
    try apply andb_true_iff in H1 as [E1 H1];
    try apply andb_true_iff in H2 as [E2 H2];
    apply orb_true_iff.
  - left. lia.
  - left. lia.
  - left. lia.
  - right. apply andb_true_iff. split; [lia | now apply (IH b)].
Qed.

Lemma lex_lt_total (a b : list Z) :
  length a = length b ->
  lex_lt a b = false -> lex_lt b a = false -> a = b.
Proof.
  revert b. induction a as [|x a IH]; intros [|y b]; simpl;
    try discriminate; [reflexivity|].
  intros Hl H1 H2.
  apply orb_false_iff in H1 as [L1 H1], H2 as [L2 H2].
  assert (x = y) as -> by lia.
  rewrite Z.eqb_refl in H1, H2. cbn [andb] in H1, H2.
  f_equal. apply IH; [lia | assumption..].
Qed.

Lemma datetime_lt_asym (a b : datetime) :
  datetime_lt a b = true -> datetime_lt b a = false.
Proof. apply lex_lt_asym. Qed.

Lemma datetime_lt_trans (a b c : datetime) :
  datetime_lt a b = true -> datetime_lt b c = true -> datetime_lt a c = true.
Proof. apply lex_lt_trans. Qed.

Lemma datetime_lt_total (a b : datetime) :
  datetime_lt a b = false -> datetime_lt b a = false -> a = b.
Proof.
  intros H1 H2.
  pose proof (lex_lt_total (fields a) (fields b) eq_refl H1 H2) as H.
  destruct a, b. unfold fields in H. cbn in H. congruence.
Qed.

(** ** Parsing of due dates *)

(** What [strptime] returns is midnight of a day that exists. *)
Lemma strptime_ymd_ok (s : string) (d : datetime) :
  strptime_ymd s = Ok d ->
  check_date_fields (year d) (month d) (day d) = true /\
  hour d = 0 /\ minute d = 0 /\ second d = 0 /\ microsecond d = 0.
Proof.
  unfold strptime_ymd. destruct (re_ymd s) as [|[[[y m] dd] rest] ms];
    [discriminate|].
  destruct rest; [|discriminate]. unfold make_date.
  destruct (check_date_fields y m dd) eqn:E; [|discriminate].
  intros [= <-]. now cbn.
Qed.

Lemma days_in_month_le_31 (y m : Z) : days_in_month y m <= 31.
Proof.
  unfold days_in_month. destruct ((m =? 2) && is_leap y); [lia|].
  destruct (Z.to_nat m) as [|[|[|[|[|[|[|[|[|[|[|[|[|n]]]]]]]]]]]]];
    cbn; try lia.
  destruct n; cbn; lia.
Qed.

Lemma check_date_fields_bounds (y m d : Z) :
  check_date_fields y m d = true ->
  1 <= y <= 9999 /\ 1 <= m <= 12 /\ 1 <= d <= days_in_month y m.
Proof.
  unfold check_date_fields, MINYEAR, MAXYEAR.
  rewrite !andb_true_iff. lia.
Qed.

(** A date that parses sorts before the sentinel. *)
Lemma strptime_ymd_before_max (s : string) (d : datetime) :
  strptime_ymd s = Ok d -> datetime_lt d datetime_max = true.
Proof.
  intros H. apply strptime_ymd_ok in H as (Hc & Hh & _).
  apply check_date_fields_bounds in Hc as (Hy & Hm & Hd).
  pose proof (days_in_month_le_31 (year d) (month d)).
  unfold datetime_lt, fields, datetime_max. cbn. rewrite Hh.
  destruct (Z.ltb_spec (year d) 9999); [reflexivity|].
  destruct (Z.eqb_spec (year d) 9999); [|lia]. cbn [orb andb].
  destruct (Z.ltb_spec (month d) 12); [reflexivity|].
  destruct (Z.eqb_spec (month d) 12); [|lia]. cbn [orb andb].
  destruct (Z.ltb_spec (day d) 31); [reflexivity|].
  destruct (Z.eqb_spec (day d) 31); [|lia]. reflexivity.
Qed.

Lemma parse_due_date_sentinel (t : Task.t) :
  bool_decide (parse_due_date t = datetime_max) = negb (has_due_date t).
Proof.
  unfold parse_due_date, has_due_date.
  destruct (strptime_ymd _) as [d|e] eqn:E; cbn [negb].
  - apply bool_decide_eq_false_2. intros ->.
    apply strptime_ymd_before_max in E. discriminate E.
  - now apply bool_decide_eq_true_2.
Qed.

Lemma parse_due_date_le_max (t : Task.t) :
  datetime_lt datetime_max (parse_due_date t) = false.
Proof.
  unfold parse_due_date. destruct (strptime_ymd _) as [d|e] eqn:E.
  - apply datetime_lt_asym. now apply strptime_ymd_before_max in E.
  - reflexivity.
Qed.

(** ** Sort by due date *)

Lemma StronglySorted_weaken {A} (R R' : A -> A -> Prop) (l : list A) :
  (forall a b, R a b -> R' a b) -> StronglySorted R l -> StronglySorted R' l.
Proof.
  intros HR. induction 1 as [|x l Hl IH Hx]; constructor; [assumption|].
  eapply Forall_impl; [exact Hx|]. intros y. apply HR.
Qed.

(** C7: [sort_tasks_by_due_date] is a stable sort, ascending by the parsed
    due date: it permutes the input, no task comes after one of a later
    date, tasks of one date keep their order, and the tasks whose due date
    is absent or does not parse come after all the others, in the order of
    the input. *)
Theorem sort_tasks_by_due_date_spec (tasks : list Task.t) :
  Permutation (sort_tasks_by_due_date tasks) tasks /\
  StronglySorted
    (fun a b => datetime_le (parse_due_date a) (parse_due_date b) = true)
    (sort_tasks_by_due_date tasks) /\
  (forall d,
     List.filter (fun t => bool_decide (parse_due_date t = d))
       (sort_tasks_by_due_date tasks) =
     List.filter (fun t => bool_decide (parse_due_date t = d)) tasks) /\
  sort_tasks_by_due_date tasks =
    sort_tasks_by_due_date (List.filter has_due_date tasks) ++
    List.filter (fun t => negb (has_due_date t)) tasks.
Proof.
  unfold sort_tasks_by_due_date. split; [|split; [|split]].
  - apply sorted_perm.
  - eapply StronglySorted_weaken;
      [|apply (sorted_sorted datetime_lt parse_due_date datetime_lt_asym
                 datetime_lt_trans datetime_lt_total)].
    intros a b H. cbv beta in H. unfold datetime_le. now rewrite H.
  - intros d. apply (sorted_stable datetime_lt parse_due_date datetime_lt_asym).
  - rewrite (sorted_top_last datetime_lt parse_due_date datetime_lt_asym
               datetime_lt_total datetime_max tasks parse_due_date_le_max)
      at 1.
    f_equal; [f_equal|]; apply filter_ext_eq; intros t;
      rewrite parse_due_date_sentinel; [apply negb_involutive | reflexivity].
Qed.

(** ** The calendar *)

Lemma days_before_year_succ (y : Z) :
  days_before_year (y + 1) =
  days_before_year y + 365 + (if is_leap y then 1 else 0).
Proof.
  unfold days_before_year, is_leap. cbv zeta.
  replace (y + 1 - 1) with y by lia.
  destruct (Z.eqb_spec (y mod 4) 0), (Z.eqb_spec (y mod 100) 0),
    (Z.eqb_spec (y mod 400) 0); cbn [negb andb orb];
    Z.div_mod_to_equations; lia.
Qed.

Lemma days_before_year_mono (y1 y2 : Z) :
  y1 < y2 -> days_before_year (y1 + 1) <= days_before_year y2.
Proof.
  intros H. unfold days_before_year. cbv zeta.
  Z.div_mod_to_equations. lia.
Qed.

Lemma days_before_month_succ (y m : Z) :
  1 <= m < 12 ->
  days_before_month y (m + 1) = days_before_month y m + days_in_month y m.
Proof.
  intros H. unfold days_before_month, days_in_month.
  assert (Hm : m = 1 \/ m = 2 \/ m = 3 \/ m = 4 \/ m = 5 \/ m = 6 \/ m = 7 \/
               m = 8 \/ m = 9 \/ m = 10 \/ m = 11) by lia.
  destruct (is_leap y);
    repeat (destruct Hm as [-> | Hm]; [reflexivity|]); subst; reflexivity.
Qed.

Lemma days_in_month_pos (y m : Z) : 1 <= m <= 12 -> 28 <= days_in_month y m.
Proof.
  intros H. unfold days_in_month.
  assert (Hm : m = 1 \/ m = 2 \/ m = 3 \/ m = 4 \/ m = 5 \/ m = 6 \/ m = 7 \/
               m = 8 \/ m = 9 \/ m = 10 \/ m = 11 \/ m = 12) by lia.
  destruct (is_leap y);
    repeat (destruct Hm as [-> | Hm]; [now vm_compute|]); subst;
    now vm_compute.
Qed.

Lemma days_before_month_12 (y : Z) :
  days_before_month y 12 + days_in_month y 12 =
  365 + (if is_leap y then 1 else 0).
Proof. unfold days_before_month, days_in_month. now destruct (is_leap y). Qed.

Lemma days_before_month_1 (y : Z) : days_before_month y 1 = 0.
Proof. reflexivity. Qed.

(** Within a year, months are laid out one after the other. *)
Lemma days_before_month_mono (y m1 m2 : Z) :
  1 <= m1 -> m1 < m2 -> m2 <= 12 ->
  days_before_month y m1 + days_in_month y m1 <= days_before_month y m2.
Proof.
  intros H1 H H2.
  assert (Hm : exists k, m2 = m1 + 1 + Z.of_nat k).
  { exists (Z.to_nat (m2 - m1 - 1)). lia. }
  destruct Hm as [k ->]. induction k as [|k IH].
  - rewrite Z.add_0_r, days_before_month_succ by lia. lia.
  - replace (m1 + 1 + Z.of_nat (S k)) with ((m1 + 1 + Z.of_nat k) + 1) by lia.
    rewrite days_before_month_succ by lia.
    pose proof (days_in_month_pos y (m1 + 1 + Z.of_nat k)).
    specialize (IH ltac:(lia) ltac:(lia)). lia.
Qed.

Lemma days_before_month_end (y m : Z) :
  1 <= m <= 12 ->
  days_before_month y m + days_in_month y m <=
  365 + (if is_leap y then 1 else 0).
Proof.
  intros H. destruct (Z.eq_dec m 12) as [->|Hne].
  - now rewrite days_before_month_12.
  - pose proof (days_before_month_mono y m 12 ltac:(lia) ltac:(lia) ltac:(lia)).
    pose proof (days_before_month_12 y).
    pose proof (days_in_month_pos y 12 ltac:(lia)). lia.
Qed.

Lemma days_before_month_nonneg (y m : Z) :
  1 <= m <= 12 -> 0 <= days_before_month y m.
Proof.
  intros H. destruct (Z.eq_dec m 1) as [->|Hne].
  - now rewrite days_before_month_1.
  - pose proof (days_before_month_mono y 1 m ltac:(lia) ltac:(lia) ltac:(lia)).
    pose proof (days_in_month_pos y 1 ltac:(lia)).
    rewrite days_before_month_1 in *. lia.
Qed.

(** The day number orders dates as year, month, day do. *)
Lemma ordinal_lt (y1 m1 d1 y2 m2 d2 : Z) :
  check_date_fields y1 m1 d1 = true ->
  check_date_fields y2 m2 d2 = true ->
  lex_lt [y1; m1; d1] [y2; m2; d2] = true ->
  ordinal y1 m1 d1 < ordinal y2 m2 d2.
Proof.
  intros H1 H2 H.
  apply check_date_fields_bounds in H1 as (Hy1 & Hm1 & Hd1).
  apply check_date_fields_bounds in H2 as (Hy2 & Hm2 & Hd2).
  unfold ordinal. cbn [lex_lt] in H.
  assert (H' : y1 < y2 \/ (y1 = y2 /\ (m1 < m2 \/ (m1 = m2 /\ d1 < d2))))
    by lia.
  clear H. destruct H' as [H | [Ey [H | [Em H]]]].
  - pose proof (days_before_year_mono y1 y2 ltac:(lia)).
    rewrite days_before_year_succ in *.
    pose proof (days_before_month_end y1 m1 ltac:(lia)).
    pose proof (days_before_month_nonneg y2 m2 ltac:(lia)). lia.
  - assert (y1 = y2) as -> by lia.
    pose proof (days_before_month_mono y2 m1 m2 ltac:(lia) ltac:(lia)
                  ltac:(lia)).
    lia.
  - assert (y1 = y2) as -> by lia. assert (m1 = m2) as -> by lia. lia.
Qed.

(** ** Moments as timestamps *)

Lemma valid_datetime_bounds (dt : datetime) :
  valid_datetime dt = true ->
  check_date_fields (year dt) (month dt) (day dt) = true /\
  0 <= hour dt <= 23 /\ 0 <= minute dt <= 59 /\ 0 <= second dt <= 59 /\
  0 <= microsecond dt <= 999999.
Proof.
  unfold valid_datetime, check_time_fields. rewrite !andb_true_iff.
  intros [Hd Ht]. split; [exact Hd | lia].
Qed.

(** The timestamp orders valid moments as the comparison of fields does. *)
Lemma timestamp_lt (a b : datetime) :
  valid_datetime a = true -> valid_datetime b = true ->
  datetime_lt a b = true -> timestamp a < timestamp b.
Proof.
  intros Ha Hb H.
  apply valid_datetime_bounds in Ha as (Da & ? & ? & ? & ?).
  apply valid_datetime_bounds in Hb as (Db & ? & ? & ? & ?).
  unfold datetime_lt, fields in H. cbn [lex_lt] in H.
  unfold timestamp.
  destruct (lex_lt [year a; month a; day a] [year b; month b; day b]) eqn:E.
  - pose proof (ordinal_lt _ _ _ _ _ _ Da Db E). lia.
  - cbn [lex_lt] in E.
    assert (year a = year b /\ month a = month b /\ day a = day b)
      as (-> & -> & ->) by lia.
    lia.
Qed.

Lemma datetime_lt_timestamp (a b : datetime) :
  valid_datetime a = true -> valid_datetime b = true ->
  datetime_lt a b = (timestamp a <? timestamp b).
Proof.
  intros Ha Hb. destruct (datetime_lt a b) eqn:E.
  - pose proof (timestamp_lt a b Ha Hb E). lia.
  - destruct (datetime_lt b a) eqn:E'.
    + pose proof (timestamp_lt b a Hb Ha E'). lia.
    + rewrite (datetime_lt_total a b E E'). lia.
Qed.

Lemma datetime_le_timestamp (a b : datetime) :
  valid_datetime a = true -> valid_datetime b = true ->
  datetime_le a b = (timestamp a <=? timestamp b).
Proof.
  intros Ha Hb. unfold datetime_le.
  rewrite (datetime_lt_timestamp b a Hb Ha). lia.
Qed.

(** Before the last day, the next day exists and is twenty-four hours
    later. *)
Lemma add_one_day_ok (now : datetime) :
  valid_datetime now = true -> datetime_lt now last_day = true ->
  exists tomorrow,
    add_one_day now = Ok tomorrow /\ valid_datetime tomorrow = true /\
    timestamp tomorrow = timestamp now + day_us.
Proof.
  intros Hv Hlast. pose proof Hv as Hv'.
  apply valid_datetime_bounds in Hv' as (Hd & Hh & Hmi & Hs & Hus).
  pose proof Hd as Hd'.
  apply check_date_fields_bounds in Hd' as (Hy & Hm & Hday).
  unfold datetime_lt, fields, last_day in Hlast.
  cbn [lex_lt year month day hour minute second microsecond] in Hlast.
  pose proof (days_in_month_pos (year now) (month now) Hm) as Hdim.
  pose proof (days_in_month_le_31 (year now) (month now)) as Hdim'.
  assert (Hnext : year now < 9999 \/ month now < 12 \/ day now < 31) by lia.
  unfold add_one_day, MAXYEAR.
  unfold valid_datetime, check_time_fields, check_date_fields, MINYEAR, MAXYEAR,
    timestamp, ordinal, day_us.
  destruct (Z.ltb_spec (day now) (days_in_month (year now) (month now)))
    as [Hlt | Hge].
  - destruct (Z.leb_spec (year now) 9999); [|lia].
    eexists. split; [reflexivity|]. cbn [year month day hour minute second
      microsecond]. split; [|lia].
    rewrite !andb_true_iff. lia.
  - assert (Hend : day now = days_in_month (year now) (month now)) by lia.
    destruct (Z.ltb_spec (month now) 12) as [Hm12 | Hm12].
    + destruct (Z.leb_spec (year now) 9999); [|lia].
      eexists. split; [reflexivity|]. cbn [year month day hour minute second
        microsecond].
      pose proof (days_in_month_pos (year now) (month now + 1) ltac:(lia)).
      rewrite days_before_month_succ by lia.
      split; [|lia]. rewrite !andb_true_iff. lia.
    + assert (Hmonth : month now = 12) by lia.
      assert (Hd31 : days_in_month (year now) 12 = 31)
        by (unfold days_in_month; now destruct (is_leap (year now))).
      rewrite Hmonth in *.
      destruct (Z.leb_spec (year now + 1) 9999); [|lia].
      eexists. split; [reflexivity|]. cbn [year month day hour minute second
        microsecond].
      rewrite days_before_year_succ, days_before_month_1.
      pose proof (days_before_month_12 (year now)).
      assert (Hjan : days_in_month (year now + 1) 1 = 31)
        by (unfold days_in_month; now destruct (is_leap (year now + 1))).
      rewrite Hjan. split; [|lia]. rewrite !andb_true_iff. lia.
Qed.

Lemma strptime_ymd_valid (s : string) (d : datetime) :
  strptime_ymd s = Ok d -> valid_datetime d = true.
Proof.
  intros H. apply strptime_ymd_ok in H as (Hc & Hh & Hm & Hs & Hu).
  unfold valid_datetime, check_time_fields. now rewrite Hc, Hh, Hm, Hs, Hu.
Qed.

(** ** Due soon *)

Lemma due_soon_iff (now tomorrow : datetime) (t : Task.t) :
  valid_datetime now = true -> valid_datetime tomorrow = true ->
  timestamp tomorrow = timestamp now + day_us ->
  due_soon now tomorrow t = true <-> DueSoon now t.
Proof.
  intros Hn Ht Hts. unfold due_soon, DueSoon.
  destruct (get (Task.completed t) false).
  { split; [discriminate | intros [H _]; discriminate]. }
  destruct (get (Task.due_date t) "") as [|c s] eqn:Es.
  { cbn [str_truthy]. split; [discriminate|].
    intros (_ & d & Hd & _). discriminate Hd. }
  cbn [str_truthy]. destruct (strptime_ymd (String c s)) as [d|e] eqn:Ed.
  - pose proof (strptime_ymd_valid _ _ Ed) as Hd.
    rewrite (datetime_le_timestamp now d Hn Hd),
      (datetime_le_timestamp d tomorrow Hd Ht), Hts.
    split.
    + intros H. split; [reflexivity|]. exists d. split; [reflexivity | lia].
    + intros (_ & d' & [= <-] & H). lia.
  - split; [discriminate|]. intros (_ & d & Hd & _). discriminate Hd.
Qed.

(** C6: at a moment [now] whose next day exists, [get_due_soon_tasks]
    returns, and returns exactly the tasks that are not completed and whose
    due date parses to a midnight between [now] and twenty-four hours
    later, ends included, in the order of the input; a task whose due date
    is absent or does not parse is left out and raises nothing. *)
Theorem get_due_soon_tasks_spec (now : datetime) (tasks : list Task.t) :
  valid_datetime now = true ->
  datetime_lt now last_day = true ->
  exists soon,
    get_due_soon_tasks now tasks = Ok soon /\
    (forall t, In t soon <-> In t tasks /\ DueSoon now t) /\
    sublist soon tasks.
Proof.
  intros Hn Hlast.
  destruct (add_one_day_ok now Hn Hlast) as (tomorrow & Ha & Hv & Hts).
  unfold get_due_soon_tasks. rewrite Ha. cbn [bind].
  eexists. split; [reflexivity|]. split.
  - intros t. rewrite filter_In, (due_soon_iff now tomorrow t Hn Hv Hts).
    reflexivity.
  - apply filter_sublist.
Qed.

(** The due-soon query on the sample data, at the sample clock reading. *)
Lemma get_due_soon_tasks_witness :
  valid_datetime now0 = true /\ datetime_lt now0 last_day = true /\
  exists soon,
    get_due_soon_tasks now0 sample_tasks = Ok soon /\
    (forall t, In t soon <-> In t sample_tasks /\ DueSoon now0 t) /\
    sublist soon sample_tasks.
Proof.
  split; [reflexivity|]. split; [reflexivity|].
  apply (get_due_soon_tasks_spec now0 sample_tasks); reflexivity.
Defined.

(** The render path on the sample data: the search for "task", the
    category "Work", completed tasks hidden. *)
Lemma render_filters_search_first_witness :
  "task" <> "" /\
  render_filters sample_tasks "Work" "All" false "task" = Ok [task_one].
Proof.
  split; [discriminate|].
  apply (render_filters_search_first sample_tasks "Work" "All" false "task").
  - discriminate.
  - repeat constructor; eexists; reflexivity.
Defined.

(** ** Canonical dates *)

Lemma digit_cases (p : Z) :
  0 <= p <= 9 ->
  p = 0 \/ p = 1 \/ p = 2 \/ p = 3 \/ p = 4 \/ p = 5 \/ p = 6 \/ p = 7 \/
  p = 8 \/ p = 9.
Proof. lia. Qed.

(** Digit characters compare as the digits do. *)
Lemma digit_char_compare (p q : Z) :
  0 <= p <= 9 -> 0 <= q <= 9 ->
  Ascii.compare (digit_char p) (digit_char q) = (p ?= q).
Proof.
  intros Hp Hq.
  destruct (digit_cases p Hp)
    as [->|[->|[->|[->|[->|[->|[->|[->|[->| ->]]]]]]]]];
  destruct (digit_cases q Hq)
    as [->|[->|[->|[->|[->|[->|[->|[->|[->| ->]]]]]]]]];
  reflexivity.
Qed.

Lemma lex_lt3_iff (a b c a' b' c' : Z) :
  lex_lt [a; b; c] [a'; b'; c'] = true <->
  a < a' \/ (a = a' /\ (b < b' \/ (b = b' /\ c < c'))).
Proof. cbn [lex_lt]. lia. Qed.

(** On dates that exist, the text order of [strftime] is the order of the
    dates. *)
Lemma strftime_ymd_lt (a b : datetime) :
  check_date_fields (year a) (month a) (day a) = true ->
  check_date_fields (year b) (month b) (day b) = true ->
  str_lt (strftime_ymd a) (strftime_ymd b) =
  lex_lt [year a; month a; day a] [year b; month b; day b].
Proof.
  intros Ha Hb.
  apply check_date_fields_bounds in Ha as (Hya & Hma & Hda).
  apply check_date_fields_bounds in Hb as (Hyb & Hmb & Hdb).
  pose proof (days_in_month_le_31 (year a) (month a)).
  pose proof (days_in_month_le_31 (year b) (month b)).
  apply Bool.eq_iff_eq_true. rewrite lex_lt3_iff.
  unfold str_lt, String.ltb, strftime_ymd, four_digits, two_digits.
  cbn [String.append String.compare].
  set (ya := year a) in *. set (yb := year b) in *.
  set (ma := month a) in *. set (mb := month b) in *.
  set (da := day a) in *. set (db := day b) in *.
  rewrite !digit_char_compare by (Z.div_mod_to_equations; lia).
  change (Ascii.compare "-" "-") with Eq. cbn iota.
  destruct (Z.compare_spec (ya / 100 / 10) (yb / 100 / 10));
    [|split; [intros _ | reflexivity]; Z.div_mod_to_equations; lia
     |split; [discriminate | Z.div_mod_to_equations; lia]].
  destruct (Z.compare_spec (ya / 100 mod 10) (yb / 100 mod 10));
    [|split; [intros _ | reflexivity]; Z.div_mod_to_equations; lia
     |split; [discriminate | Z.div_mod_to_equations; lia]].
  destruct (Z.compare_spec (ya mod 100 / 10) (yb mod 100 / 10));
    [|split; [intros _ | reflexivity]; Z.div_mod_to_equations; lia
     |split; [discriminate | Z.div_mod_to_equations; lia]].
  destruct (Z.compare_spec ((ya mod 100) mod 10) ((yb mod 100) mod 10));
    [|split; [intros _ | reflexivity]; Z.div_mod_to_equations; lia
     |split; [discriminate | Z.div_mod_to_equations; lia]].
  assert (ya = yb) as -> by (Z.div_mod_to_equations; lia).
  destruct (Z.compare_spec (ma / 10) (mb / 10));
    [|split; [intros _ | reflexivity]; Z.div_mod_to_equations; lia
     |split; [discriminate | Z.div_mod_to_equations; lia]].
  destruct (Z.compare_spec (ma mod 10) (mb mod 10));
    [|split; [intros _ | reflexivity]; Z.div_mod_to_equations; lia
     |split; [discriminate | Z.div_mod_to_equations; lia]].
  assert (ma = mb) as -> by (Z.div_mod_to_equations; lia).
  destruct (Z.compare_spec (da / 10) (db / 10));
    [|split; [intros _ | reflexivity]; Z.div_mod_to_equations; lia
     |split; [discriminate | Z.div_mod_to_equations; lia]].
  destruct (Z.compare_spec (da mod 10) (db mod 10));
    [|split; [intros _ | reflexivity]; Z.div_mod_to_equations; lia
     |split; [discriminate | Z.div_mod_to_equations; lia]].
  split; [discriminate | Z.div_mod_to_equations; lia].
Qed.

Lemma digit_char_is_digit (p : Z) :
  0 <= p <= 9 -> is_digit (digit_char p) = true /\ digit_val (digit_char p) = p.
Proof.
  intros Hp.
  destruct (digit_cases p Hp)
    as [->|[->|[->|[->|[->|[->|[->|[->|[->| ->]]]]]]]]];
    split; reflexivity.
Qed.

Lemma re_year_four_digits (y : Z) (r : string) :
  0 <= y <= 9999 -> re_year (four_digits y ++ r) = [(y, r)].
Proof.
  intros Hy. unfold four_digits, two_digits. cbn [String.append re_year].
  destruct (digit_char_is_digit (y / 100 / 10)) as [-> ->];
    [Z.div_mod_to_equations; lia|].
  destruct (digit_char_is_digit (y / 100 mod 10)) as [-> ->];
    [Z.div_mod_to_equations; lia|].
  destruct (digit_char_is_digit (y mod 100 / 10)) as [-> ->];
    [Z.div_mod_to_equations; lia|].
  destruct (digit_char_is_digit ((y mod 100) mod 10)) as [-> ->];
    [Z.div_mod_to_equations; lia|].
  cbn [andb]. do 2 f_equal. Z.div_mod_to_equations. lia.
Qed.

Lemma month_cases (m : Z) :
  1 <= m <= 12 ->
  m = 1 \/ m = 2 \/ m = 3 \/ m = 4 \/ m = 5 \/ m = 6 \/ m = 7 \/ m = 8 \/
  m = 9 \/ m = 10 \/ m = 11 \/ m = 12.
Proof. lia. Qed.

(** The month and the day of a canonical date are read back: the first
    match of the rest of the pattern is the month, the day and no text
    left. *)
Lemma re_month_day_canonical (y m d : Z) :
  1 <= m <= 12 -> 1 <= d <= 31 ->
  exists others,
    flat_map (fun r2 =>
      flat_map (fun '(m, r3) =>
        flat_map (fun r4 =>
          List.map (fun '(d, r5) => (y, m, d, r5)) (re_day r4))
        (re_lit "-" r3))
      (re_month r2))
    (re_lit "-" ("-" ++ two_digits m ++ "-" ++ two_digits d)%string)
    = (y, m, d, "") :: others.
Proof.
  intros Hm Hd.
  assert (Hd' : exists k, (k < 31)%nat /\ d = 1 + Z.of_nat k).
  { exists (Z.to_nat (d - 1)). lia. }
  destruct Hd' as (k & Hk & ->).
  destruct (month_cases m Hm)
    as [->|[->|[->|[->|[->|[->|[->|[->|[->|[->|[->| ->]]]]]]]]]]];
    do 31 (destruct k as [|k]; [eexists; reflexivity|]); lia.
Qed.

(** [strptime] reads back what [strftime] writes for a date that exists. *)
Lemma strptime_strftime (dt : datetime) :
  check_date_fields (year dt) (month dt) (day dt) = true ->
  strptime_ymd (strftime_ymd dt) =
    Ok (mkdt (year dt) (month dt) (day dt) 0 0 0 0).
Proof.
  intros H. pose proof H as Hb.
  apply check_date_fields_bounds in Hb as (Hy & Hm & Hd).
  pose proof (days_in_month_le_31 (year dt) (month dt)).
  unfold MINYEAR, MAXYEAR in *.
  unfold strptime_ymd, re_ymd, strftime_ymd.
  rewrite re_year_four_digits by lia. cbn [flat_map]. rewrite app_nil_r.
  destruct (re_month_day_canonical (year dt) (month dt) (day dt))
    as [others ->]; [lia.. |].
  unfold make_date. now rewrite H.
Qed.

(** ** Overdue *)

(** X9: the comparison of [get_overdue_tasks] is on text: a task with no
    [due_date] key is compared as the empty text, which is below every
    date, so such a task is overdue as long as it is not completed. *)
Lemma get_overdue_tasks_undated (now : datetime) (tasks : list Task.t)
    (t : Task.t) :
  In t tasks -> Task.due_date t = None ->
  get (Task.completed t) false = false ->
  In t (get_overdue_tasks now tasks).
Proof.
  intros Hin Hd Hc. unfold get_overdue_tasks. apply filter_In.
  split; [assumption|]. rewrite Hc, Hd. reflexivity.
Qed.

(** X8: at a clock from year 1000 on, where today is written with four
    digits of year, and on due dates in the form the page writes them, the
    text comparison is the comparison of dates: there [get_overdue_tasks]
    returns exactly the overdue tasks. *)
Lemma get_overdue_tasks_canonical (now : datetime) (tasks : list Task.t) :
  valid_datetime now = true ->
  1000 <= year now ->
  Forall canonical_due_date tasks ->
  forall t, In t (get_overdue_tasks now tasks) <-> In t tasks /\ Overdue now t.
Proof.
  intros Hn Hyear Hall t. unfold get_overdue_tasks. rewrite filter_In.
  apply valid_datetime_bounds in Hn as (Hnd & _).
  rewrite Forall_forall in Hall.
  assert (Hiff : In t tasks ->
            negb (get (Task.completed t) false) &&
            str_lt (get (Task.due_date t) "") (strftime_ymd now) = true <->
            Overdue now t).
  { intros Hin.
    destruct (Hall t (proj2 (list_elem_of_In _ _) Hin)) as (d & Hd & Hdue).
    unfold Overdue. rewrite Hdue. cbn [get].
    rewrite (strptime_strftime d Hd), (strftime_ymd_lt d now Hd Hnd).
    rewrite andb_true_iff, negb_true_iff. split.
    - intros [Hc Hlt]. split; [exact Hc|]. eexists. split; [reflexivity|].
      exact Hlt.
    - intros (Hc & d' & [= <-] & Hlt). split; [exact Hc | exact Hlt]. }
  split; intros [Hin H]; (split; [exact Hin|]); now apply Hiff.
Qed.

(** C1 (the code departs from it): at 2026-11-04, of a task with no due
    date, a task with a malformed due date and a task due on 2026-9-1,
    [get_overdue_tasks] returns the first two, which are not overdue (they
    have no due date that parses), and not the third, which is. *)
Theorem get_overdue_tasks_text_comparison :
  get_overdue_tasks now0 [task_undated; task_malformed; task_unpadded] =
    [task_undated; task_malformed] /\
  ~ Overdue now0 task_undated /\
  ~ Overdue now0 task_malformed /\
  Overdue now0 task_unpadded.
Proof.
  split; [reflexivity|]. split; [|split].
  - intros (_ & d & Hd & _). discriminate Hd.
  - intros (_ & d & Hd & _). discriminate Hd.
  - split; [reflexivity|]. eexists. split; reflexivity.
Qed.

(** ** Loading *)




Lemma load_tasks_undecodable (file_path : string) (w : world) :
  files w !! file_path = Some Undecodable ->
  load_tasks file_path w = Some (Raise UnicodeDecodeError, w).
Proof. intros H. unfold load_tasks, open_read. now rewrite H. Qed.




(** ** Decoding what the encoder wrote *)

(** Evaluates the tests of the decoder on the characters that are known. *)
Ltac eval_bool t :=
  let b := eval vm_compute in t in
  lazymatch b with
  | true => change t with true
  | false => change t with false
  end.

Ltac char_tests :=
  repeat match goal with
  | |- context [char_is ?c ?n] => eval_bool (char_is c n)
  | |- context [is_ws ?c] => eval_bool (is_ws c)
  | |- context [is_digit ?c] => eval_bool (is_digit c)
  | |- context [Ascii.eqb ?c ?d] => eval_bool (Ascii.eqb c d)
  end; cbn iota.

Ltac scan_steps := repeat progress (cbn [skip_ws app]; char_tests).

(** A character written by the encoder is read back as itself. *)
Lemma scanstring_escape_char (c : ascii) (tail : list ascii) :
  scanstring (escape_char c ++ tail) = decoded_map (cons c) (scanstring tail).
Proof.
  destruct c as [[] [] [] [] [] [] [] []]; reflexivity.
Qed.

Lemma scanstring_encoded (cs rest : list ascii) :
  scanstring (flat_map escape_char cs ++ "034"%char :: rest) = Decoded cs rest.
Proof.
  induction cs as [|c cs IH]; [reflexivity|].
  cbn [flat_map]. rewrite <- app_assoc, scanstring_escape_char, IH.
  reflexivity.
Qed.

Lemma pos_to_uint_head (p : positive) :
  match Pos.to_uint p with
  | Decimal.Nil | Decimal.D0 _ => False
  | _ => True
  end.
Proof.
  pose proof (DecimalPos.Unsigned.to_of (Pos.to_uint p)) as H.
  rewrite DecimalPos.Unsigned.of_to in H. cbn [N.to_uint] in H.
  pose proof (DecimalPos.Unsigned.to_uint_nonzero p) as Hnz.
  pose proof (DecimalPos.Unsigned.to_uint_nonnil p) as Hnn.
  destruct (Pos.to_uint p) as [|d| | | | | | | | |]; try exact I.
  - now apply Hnn.
  - rewrite DecimalFacts.unorm_D0 in H. unfold Decimal.unorm in H.
    destruct (Decimal.nzhead d) eqn:E; try discriminate H.
    + apply Hnz. congruence.
    + now apply DecimalFacts.nzhead_nonzero in E.
Qed.

Lemma delimited_char (c : ascii) (r : list ascii) :
  delimited (c :: r) -> N_of_ascii c = 44%N \/ N_of_ascii c = 10%N.
Proof.
  unfold delimited, char_is. intros H.
  apply orb_true_iff in H as [H | H]; apply N.eqb_eq in H; auto.
Qed.

Lemma delimited_no_digit (rest : list ascii) :
  delimited rest -> scan_digits rest = (Decimal.Nil, rest).
Proof.
  destruct rest as [|c r]; [reflexivity|]. intros H.
  cbn [scan_digits]. unfold digit_of_char.
  destruct (delimited_char c r H) as [-> | ->]; reflexivity.
Qed.

Lemma delimited_no_float (rest : list ascii) :
  delimited rest -> float_follows rest = false.
Proof.
  destruct rest as [|c [|d r]]; try reflexivity. intros H.
  unfold float_follows, char_is.
  destruct (delimited_char c _ H) as [-> | ->]; reflexivity.
Qed.

Lemma scan_digits_encoded (d : Decimal.uint) (rest : list ascii) :
  delimited rest -> scan_digits (uint_chars d ++ rest) = (d, rest).
Proof.
  intros H. induction d; cbn [uint_chars app];
    [now apply delimited_no_digit | ..];
    cbn [scan_digits]; unfold digit_of_char; cbn; now rewrite IHd.
Qed.

(** The decimal digits of a positive number. *)
Lemma scan_integer_encoded (p : positive) (rest : list ascii) :
  delimited rest ->
  scan_integer (uint_chars (Pos.to_uint p) ++ rest) =
    Some (Pos.to_uint p, rest).
Proof.
  intros H. pose proof (pos_to_uint_head p) as Hh.
  pose proof (scan_digits_encoded (Pos.to_uint p) rest H) as Hd.
  destruct (Pos.to_uint p); try contradiction;
    cbn [uint_chars app] in *; unfold scan_integer; char_tests;
    now rewrite Hd.
Qed.

Lemma split_sign_digits (p : positive) (rest : list ascii) :
  split_sign (uint_chars (Pos.to_uint p) ++ rest) =
    (false, uint_chars (Pos.to_uint p) ++ rest).
Proof.
  pose proof (pos_to_uint_head p) as Hh.
  destruct (Pos.to_uint p); try contradiction; reflexivity.
Qed.

Lemma scan_number_encoded (n : Z) (rest : list ascii) :
  delimited rest -> scan_number (int_repr n ++ rest) = Decoded (PInt n) rest.
Proof.
  intros H. pose proof (delimited_no_float rest H) as Hf.
  unfold scan_number.
  destruct n as [|p|p]; unfold int_repr.
  - cbn [app split_sign]. char_tests. unfold scan_integer. char_tests.
    now rewrite Hf.
  - rewrite split_sign_digits, (scan_integer_encoded p rest H), Hf.
    now rewrite DecimalPos.Unsigned.of_to.
  - cbn [app split_sign]. char_tests.
    rewrite (scan_integer_encoded p rest H), Hf.
    now rewrite DecimalPos.Unsigned.of_to.
Qed.

Lemma int_repr_head (n : Z) :
  exists c r, int_repr n = c :: r /\ (is_digit c || char_is c 45 = true).
Proof.
  destruct n as [|p|p]; cbn [int_repr]; [now eexists _, _ | | now eexists _, _].
  pose proof (pos_to_uint_head p) as Hh.
  destruct (Pos.to_uint p); try contradiction; now eexists _, _.
Qed.

(** A digit or a minus sign sends [scan_once] to the number branch. *)
Lemma scan_once_number (fuel : nat) (c : ascii) (r : list ascii) :
  is_digit c || char_is c 45 = true ->
  scan_once (S fuel) (c :: r) = scan_number (c :: r).
Proof.
  destruct c as [[] [] [] [] [] [] [] []]; try discriminate; reflexivity.
Qed.

Lemma iterencode_start (level : nat) (v : pyval) (rest : list ascii) :
  value_start (iterencode level v ++ rest).
Proof.
  destruct v as [|[]|n|s|[|x xs]|[|kv kvs]]; try (now cbn).
  destruct (int_repr_head n) as (c & r & E & H).
  cbn [iterencode]. rewrite E. cbn [app value_start].
  destruct c as [[] [] [] [] [] [] [] []]; try discriminate H; now cbn.
Qed.

Lemma skip_ws_value (s : list ascii) : value_start s -> skip_ws s = s.
Proof. destruct s as [|c r]; [easy|]. intros [H _]. cbn. now rewrite H. Qed.

Lemma skip_ws_spaces (n : nat) (s : list ascii) :
  skip_ws (repeat " "%char n ++ s) = skip_ws s.
Proof. induction n as [|n IH]; [reflexivity | exact IH]. Qed.

Lemma skip_ws_newline_indent (level : nat) (s : list ascii) :
  skip_ws (newline_indent level ++ s) = skip_ws s.
Proof. unfold newline_indent. cbn [app skip_ws]. apply skip_ws_spaces. Qed.

Lemma delimited_newline_indent (level : nat) (s : list ascii) :
  delimited (newline_indent level ++ s).
Proof. reflexivity. Qed.

(** *** Lists *)

Lemma array_items_encoded (scan : list ascii -> decoded pyval) (level : nat)
    (xs : list pyval) :
  forall (x : pyval) (values : list pyval) (fuel : nat) (rest : list ascii),
  (forall y, In y (x :: xs) -> forall rest', delimited rest' ->
     scan (iterencode (S level) y ++ rest') = Decoded y rest') ->
  (length xs < fuel)%nat ->
  array_items scan fuel values
    (iterencode (S level) x ++
     flat_map
       (fun value =>
          chars "," ++ newline_indent (S level) ++ iterencode (S level) value)
       xs ++
     newline_indent level ++ chars "]" ++ rest)
  = Decoded (PList (values ++ x :: xs)) rest.
Proof.
  induction xs as [|y ys IH]; intros x values fuel rest Hscan Hfuel;
    (destruct fuel as [|fuel]; [cbn in Hfuel; lia|]); cbn [array_items].
  - cbn [flat_map app].
    rewrite (Hscan x (or_introl eq_refl)) by apply delimited_newline_indent.
    rewrite skip_ws_newline_indent.
    cbn [chars list_ascii_of_string app skip_ws].
    char_tests. reflexivity.
  - cbn [flat_map]. rewrite <- !app_assoc.
    cbn [chars list_ascii_of_string app].
    rewrite (Hscan x (or_introl eq_refl)) by reflexivity.
    cbn [skip_ws]. char_tests.
    rewrite skip_ws_newline_indent, skip_ws_value by apply iterencode_start.
    replace (values ++ x :: y :: ys) with ((values ++ [x]) ++ y :: ys)
      by now rewrite <- app_assoc.
    apply IH.
    + intros z Hz. apply Hscan. now right.
    + cbn in Hfuel. lia.
Qed.

Lemma JSONArray_encoded (scan : list ascii -> decoded pyval) (fuel : nat)
    (level : nat) (s : list ascii) :
  value_start s ->
  JSONArray scan fuel (newline_indent level ++ s) = array_items scan fuel [] s.
Proof.
  intros H. unfold JSONArray.
  rewrite skip_ws_newline_indent, skip_ws_value by assumption.
  destruct s as [|c r]; [contradiction|]. destruct H as [_ H]. now rewrite H.
Qed.

(** *** Dicts *)

Lemma dict_set_fresh (k : string) (v : pyval) (items : list (string * pyval)) :
  ~ In k (List.map fst items) -> dict_set k v items = items ++ [(k, v)].
Proof.
  induction items as [|[k' v'] items IH]; intros H; [reflexivity|].
  cbn [dict_set]. destruct (String.eqb_spec k' k) as [->|Hne].
  - exfalso. apply H. now left.
  - cbn [app]. rewrite IH; [reflexivity|]. intros Hin. apply H. now right.
Qed.

Lemma dict_of_pairs_app (pairs acc : list (string * pyval)) :
  NoDup (List.map fst (acc ++ pairs)) ->
  fold_left (fun d kv => dict_set (fst kv) (snd kv) d) pairs acc = acc ++ pairs.
Proof.
  revert acc. induction pairs as [|[k v] pairs IH]; intros acc H.
  - now rewrite app_nil_r.
  - cbn [fold_left fst snd]. rewrite dict_set_fresh.
    + rewrite IH; rewrite <- app_assoc; [reflexivity | exact H].
    + rewrite map_app in H. cbn [List.map fst] in H.
      apply NoDup_ListNoDup in H. apply NoDup_remove_2 in H.
      intros Hin. apply H. apply in_or_app. now left.
Qed.

(** A dict is the dict of its items. *)
Lemma dict_of_pairs_nodup (pairs : list (string * pyval)) :
  NoDup (List.map fst pairs) -> dict_of_pairs pairs = pairs.
Proof. intros H. now apply (dict_of_pairs_app pairs []). Qed.

Lemma object_items_encoded (scan : list ascii -> decoded pyval) (level : nat)
    (items : list (string * pyval)) :
  forall (item : string * pyval) (pairs : list (string * pyval)) (fuel : nat)
         (rest : list ascii),
  (forall kv, In kv (item :: items) -> forall rest', delimited rest' ->
     scan (iterencode (S level) (snd kv) ++ rest') = Decoded (snd kv) rest') ->
  (length items < fuel)%nat ->
  NoDup (List.map fst (pairs ++ item :: items)) ->
  object_items scan fuel pairs
    (flat_map escape_char (chars (fst item)) ++ ["034"%char] ++ chars ": " ++
     iterencode (S level) (snd item) ++
     flat_map
       (fun item =>
          chars "," ++ newline_indent (S level) ++
          encode_basestring_ascii (fst item) ++ chars ": " ++
          iterencode (S level) (snd item))
       items ++
     newline_indent level ++ chars "}" ++ rest)
  = Decoded (PDict (pairs ++ item :: items)) rest.
Proof.
  induction items as [|next items IH];
    intros [k v] pairs fuel rest Hscan Hfuel Hnd;
    (destruct fuel as [|fuel]; [cbn in Hfuel; lia|]);
    cbn [object_items fst snd].
  - cbn [flat_map app chars list_ascii_of_string].
    rewrite scanstring_encoded. scan_steps.
    rewrite skip_ws_value by apply iterencode_start.
    rewrite (Hscan (k, v) (or_introl eq_refl))
      by apply delimited_newline_indent.
    rewrite skip_ws_newline_indent. scan_steps.
    unfold chars. rewrite string_of_list_ascii_of_string.
    now rewrite dict_of_pairs_nodup.
  - cbn [flat_map]. rewrite <- !app_assoc.
    cbn [app chars list_ascii_of_string].
    rewrite scanstring_encoded. scan_steps.
    rewrite skip_ws_value by apply iterencode_start.
    rewrite (Hscan (k, v) (or_introl eq_refl)) by reflexivity.
    scan_steps.
    rewrite skip_ws_newline_indent. unfold encode_basestring_ascii.
    scan_steps.
    fold (chars k). unfold chars at 1. rewrite string_of_list_ascii_of_string.
    rewrite <- !app_assoc.
    replace (pairs ++ (k, v) :: next :: items)
      with ((pairs ++ [(k, v)]) ++ next :: items)
      by now rewrite <- app_assoc.
    apply IH.
    + intros kv Hkv. apply Hscan. now right.
    + cbn in Hfuel. lia.
    + now rewrite <- app_assoc.
Qed.

Lemma JSONObject_encoded (scan : list ascii -> decoded pyval) (fuel : nat)
    (level : nat) (s : list ascii) :
  JSONObject scan fuel (newline_indent level ++ "034"%char :: s) =
  object_items scan fuel [] s.
Proof.
  unfold JSONObject. rewrite skip_ws_newline_indent. cbn [skip_ws].
  now char_tests.
Qed.

(** *** Values *)

(** Induction on a value with the hypothesis on every element. *)
Lemma pyval_nested_ind (P : pyval -> Prop) :
  P PNone -> (forall b, P (PBool b)) -> (forall n, P (PInt n)) ->
  (forall s, P (PStr s)) ->
  (forall values, Forall P values -> P (PList values)) ->
  (forall items, Forall (fun kv => P (snd kv)) items -> P (PDict items)) ->
  forall v, P v.
Proof.
  intros HNone HBool HInt HStr HList HDict.
  refine (fix IH (v : pyval) : P v :=
            match v with
            | PNone => HNone
            | PBool b => HBool b
            | PInt n => HInt n
            | PStr s => HStr s
            | PList values =>
                HList values
                  ((fix go (l : list pyval) : Forall P l :=
                      match l with
                      | [] => @ListDef.Forall_nil _ P
                      | x :: l' => @ListDef.Forall_cons _ P x l' (IH x) (go l')
                      end) values)
            | PDict items =>
                HDict items
                  ((fix go (l : list (string * pyval))
                      : Forall (fun kv => P (snd kv)) l :=
                      match l with
                      | [] => @ListDef.Forall_nil _ _
                      | kv :: l' =>
                          @ListDef.Forall_cons _ (fun kv => P (snd kv)) kv l'
                            (IH (snd kv)) (go l')
                      end) items)
            end).
Qed.

Lemma wf_pyval_list (values : list pyval) :
  wf_pyval (PList values) <-> Forall wf_pyval values.
Proof.
  cbn [wf_pyval]. induction values as [|x l IH]; cbn [fold_right].
  - split; [constructor | trivial].
  - rewrite IH. split; [intros [? ?]; now constructor | now inversion 1].
Qed.

Lemma wf_pyval_dict (items : list (string * pyval)) :
  wf_pyval (PDict items) <->
  NoDup (List.map fst items) /\ Forall (fun kv => wf_pyval (snd kv)) items.
Proof.
  cbn [wf_pyval]. apply and_iff_compat_l.
  induction items as [|x l IH]; cbn [fold_right].
  - split; [constructor | trivial].
  - rewrite IH. split; [intros [? ?]; now constructor | now inversion 1].
Qed.

Lemma pysize_elements {A} (f : A -> pyval) (l : list A) :
  (length l <= fold_right (fun x n => pysize (f x) + S n) O l)%nat /\
  Forall (fun x =>
            pysize (f x) < fold_right (fun x n => pysize (f x) + S n) O l)%nat
         l.
Proof.
  induction l as [|x l [IH1 IH2]]; cbn [fold_right length].
  - split; [lia | constructor].
  - split; [lia|]. constructor; [lia|].
    eapply Forall_impl; [exact IH2|]. intros y Hy. cbv beta in Hy. lia.
Qed.

(** What the encoder writes for a value, at any nesting level and before
    any text that ends a number, [scan_once] reads back as that value,
    given the fuel to do so. *)
Lemma scan_once_encoded (v : pyval) :
  wf_pyval v ->
  forall (level : nat) (rest : list ascii) (fuel : nat),
  delimited rest -> (pysize v <= fuel)%nat ->
  scan_once fuel (iterencode level v ++ rest) = Decoded v rest.
Proof.
  induction v as [|b|n|s|values IH|items IH] using pyval_nested_ind;
    intros Hwf level rest fuel Hrest Hfuel;
    (destruct fuel as [|fuel]; [cbn in Hfuel; lia|]).
  - reflexivity.
  - now destruct b.
  - destruct (int_repr_head n) as (c & r & E & Hc).
    cbn [iterencode]. pose proof (scan_number_encoded n rest Hrest) as Hn.
    rewrite E in *. cbn [app] in *. now rewrite scan_once_number.
  - cbn [iterencode scan_once]. unfold encode_basestring_ascii.
    cbn [app]. char_tests. rewrite <- app_assoc. cbn [app].
    rewrite scanstring_encoded. cbn [decoded_map]. unfold chars.
    now rewrite string_of_list_ascii_of_string.
  - apply wf_pyval_list in Hwf.
    destruct values as [|x xs]; [reflexivity|].
    cbn [iterencode scan_once chars list_ascii_of_string app]. char_tests.
    rewrite <- !app_assoc.
    rewrite JSONArray_encoded by apply iterencode_start.
    cbn [pysize] in Hfuel.
    destruct (pysize_elements (fun y => y) (x :: xs)) as [Hlen Hsz].
    cbn [length] in Hlen.
    apply (array_items_encoded (scan_once fuel) level xs x [] fuel rest).
    + intros y Hy rest' Hrest'.
      rewrite Forall_forall in IH, Hwf, Hsz.
      apply list_elem_of_In in Hy.
      apply IH; [assumption | now apply Hwf | assumption|].
      specialize (Hsz y Hy). cbv beta in Hsz. lia.
    + lia.
  - apply wf_pyval_dict in Hwf as [Hnd Hwf].
    destruct items as [|[k x] items]; [reflexivity|].
    cbn [iterencode scan_once chars list_ascii_of_string app]. char_tests.
    unfold encode_basestring_ascii at 1. rewrite <- !app_assoc.
    cbn [app]. rewrite JSONObject_encoded. rewrite <- !app_assoc.
    cbn [pysize] in Hfuel.
    destruct (pysize_elements snd ((k, x) :: items)) as [Hlen Hsz].
    cbn [length] in Hlen.
    apply (object_items_encoded (scan_once fuel) level items (k, x) [] fuel
             rest).
    + intros kv Hkv rest' Hrest'.
      rewrite Forall_forall in IH, Hwf, Hsz.
      apply list_elem_of_In in Hkv.
      apply IH; [assumption | now apply Hwf | assumption|].
      specialize (Hsz kv Hkv). cbv beta in Hsz. lia.
    + lia.
    + exact Hnd.
Qed.

Lemma newline_indent_length (level : nat) :
  (1 <= length (newline_indent level))%nat.
Proof. unfold newline_indent. cbn [length]. lia. Qed.

(** The fuel [json_loads] starts with covers what the encoder wrote. *)
Lemma pysize_le_length (v : pyval) :
  forall level, (pysize v <= length (iterencode level v))%nat.
Proof.
  induction v as [|b|n|s|values IH|items IH] using pyval_nested_ind;
    intros level;
    pose proof (newline_indent_length level);
    pose proof (newline_indent_length (S level)).
  - cbn. lia.
  - destruct b; cbn; lia.
  - destruct (int_repr_head n) as (c & r & E & _).
    cbn [iterencode pysize]. rewrite E. cbn [length]. lia.
  - cbn [iterencode pysize encode_basestring_ascii app length]. lia.
  - destruct values as [|x xs]; [cbn; lia|].
    cbn [iterencode pysize fold_right]. inversion IH as [|? ? Hx Hxs]; subst.
    rewrite !length_app. cbn [chars list_ascii_of_string length].
    specialize (Hx (S level)).
    match goal with
    | |- context [length (flat_map ?f xs)] =>
        assert (Hrest :
          (fold_right (fun x n => pysize x + S n) 0 xs <=
           length (flat_map f xs))%nat)
    end.
    { clear Hx IH. induction Hxs as [|y ys Hy Hys IHys]; [cbn; lia|].
      cbn [fold_right flat_map]. rewrite !length_app.
      cbn [chars list_ascii_of_string length] in *.
      specialize (Hy (S level)). lia. }
    lia.
  - destruct items as [|[k x] items]; [cbn; lia|].
    cbn [iterencode pysize fold_right fst snd].
    inversion IH as [|? ? Hx Hxs]; subst. cbn [snd] in Hx.
    rewrite !length_app. cbn [chars list_ascii_of_string length].
    specialize (Hx (S level)).
    match goal with
    | |- context [length (flat_map ?f items)] =>
        assert (Hrest :
          (fold_right (fun kv n => pysize (snd kv) + S n) 0 items <=
           length (flat_map f items))%nat)
    end.
    { clear Hx IH. induction Hxs as [|y ys Hy Hys IHys]; [cbn; lia|].
      cbn [fold_right flat_map]. rewrite !length_app.
      cbn [chars list_ascii_of_string length] in *.
      specialize (Hy (S level)). lia. }
    lia.
Qed.

Lemma length_string_of_list_ascii (l : list ascii) :
  String.length (string_of_list_ascii l) = length l.
Proof. induction l as [|c l IH]; cbn; [reflexivity | now rewrite IH]. Qed.

(** The decoder reads back what the encoder wrote. *)
Lemma json_loads_dumps (v : pyval) :
  wf_pyval v -> json_loads (json_dumps v) = Some (Ok v).
Proof.
  intros Hwf. unfold json_loads, json_dumps, decode, chars.
  rewrite list_ascii_of_string_of_list_ascii, length_string_of_list_ascii.
  rewrite skip_ws_value
    by (rewrite <- (app_nil_r (iterencode 0 v)); apply iterencode_start).
  pose proof (scan_once_encoded v Hwf 0%nat [] (S (length (iterencode 0 v))) I)
    as H.
  rewrite app_nil_r in H. rewrite H; [reflexivity|].
  pose proof (pysize_le_length v 0%nat). lia.
Qed.

(** *** Task collections *)

Lemma wf_task_to_py (t : Task.t) : wf_pyval (task_to_py t).
Proof.
  destruct t as [i ti de pr ca du co cr]. apply wf_pyval_dict. split.
  - destruct ti, de, pr, ca, du, co, cr; cbn;
      apply (bool_decide_unpack _); vm_compute; exact I.
  - destruct ti, de, pr, ca, du, co, cr; cbn; repeat constructor.
Qed.

Lemma wf_tasks_to_py (tasks : list Task.t) : wf_pyval (tasks_to_py tasks).
Proof.
  apply wf_pyval_list. apply Forall_forall. intros v Hv.
  apply list_elem_of_In, in_map_iff in Hv as (t & <- & _).
  apply wf_task_to_py.
Qed.

Lemma load_save (tasks : pyval) (file_path : string) (w : world) :
  wf_pyval tasks ->
  load_tasks file_path (save_tasks tasks file_path w) =
    Some (Ok tasks, save_tasks tasks file_path w).
Proof.
  intros Hwf. unfold load_tasks, open_read, save_tasks, open_write.
  cbn [files]. rewrite lookup_insert_eq. now rewrite json_loads_dumps.
Qed.

Lemma task_of_to_py (t : Task.t) : task_of_py (task_to_py t) = Some t.
Proof.
  destruct t as [i ti de pr ca du co cr].
  destruct ti, de, pr, ca, du, co, cr; reflexivity.
Qed.

Lemma tasks_of_to_py (tasks : list Task.t) :
  tasks_of_py (tasks_to_py tasks) = Some tasks.
Proof.
  unfold tasks_of_py, tasks_to_py.
  induction tasks as [|t l IH]; [reflexivity|].
  cbn [List.map all_some]. now rewrite task_of_to_py, IH.
Qed.

(** C4: saving a collection of tasks to a path and loading from that path
    returns the value that was saved, and that value reads back as the
    tasks that were saved; the empty collection, one task and many tasks
    are instances. *)
Theorem save_load_round_trip (tasks : list Task.t) (file_path : string)
    (w : world) :
  load_tasks file_path (save_tasks (tasks_to_py tasks) file_path w) =
    Some (Ok (tasks_to_py tasks),
          save_tasks (tasks_to_py tasks) file_path w) /\
  tasks_of_py (tasks_to_py tasks) = Some tasks.
Proof.
  split.
  - apply load_save, wf_tasks_to_py.
  - apply tasks_of_to_py.
Qed.

(** ** The decoder has the fuel it needs *)

Lemma skip_ws_length (s : list ascii) : (length (skip_ws s) <= length s)%nat.
Proof.
  induction s as [|c r IH]; cbn [skip_ws]; [lia|].
  destruct (is_ws c); cbn [length]; lia.
Qed.

Lemma decoded_map_inv {A B} (f : A -> B) (d : decoded A) (b : B)
    (r : list ascii) :
  decoded_map f d = Decoded b r -> exists a, d = Decoded a r /\ b = f a.
Proof. destruct d; cbn; try discriminate. intros [= <- <-]. eauto. Qed.

Lemma decoded_map_fuel {A B} (f : A -> B) (d : decoded A) :
  decoded_map f d = OutOfFuel -> d = OutOfFuel.
Proof. now destruct d. Qed.

(** [scanstring] reads at least the closing quote, and needs no fuel. *)
Lemma scanstring_consumes_upto (n : nat) :
  forall s, (length s <= n)%nat ->
  scanstring s <> OutOfFuel /\
  forall x r, scanstring s = Decoded x r -> (length r < length s)%nat.
Proof.
  induction n as [|n IH]; intros s Hn.
  - destruct s; [|cbn in Hn; lia]. split; [discriminate | discriminate].
  - destruct s as [|c r]; [split; discriminate|]. cbn [length] in Hn.
    cbn [scanstring]. destruct (char_is c 34).
    { split; [discriminate|]. intros x r' [= <- <-]. cbn. lia. }
    destruct (char_is c 92).
    + destruct r as [|esc r1]; [split; discriminate|].
      cbn [length] in Hn. destruct (char_is esc 117).
      * destruct r1 as [|h1 [|h2 [|h3 [|h4 r2]]]]; try (split; discriminate).
        cbn [length] in Hn.
        destruct (decode_uXXXX h1 h2 h3 h4) as [uni|];
          [|split; discriminate].
        destruct (uni <? 256)%N; [|split; discriminate].
        destruct (IH r2 ltac:(lia)) as [Hf Hc]. split.
        -- intros E. now apply decoded_map_fuel in E.
        -- intros x r' E. apply decoded_map_inv in E as (y & E & _).
           apply Hc in E. cbn [length]. lia.
      * destruct (backslash esc); [|split; discriminate].
        destruct (IH r1 ltac:(lia)) as [Hf Hc]. split.
        -- intros E. now apply decoded_map_fuel in E.
        -- intros x r' E. apply decoded_map_inv in E as (y & E & _).
           apply Hc in E. cbn [length]. lia.
    + destruct (N_of_ascii c <? 32)%N; [split; discriminate|].
      destruct (IH r ltac:(lia)) as [Hf Hc]. split.
      * intros E. now apply decoded_map_fuel in E.
      * intros x r' E. apply decoded_map_inv in E as (y & E & _).
        apply Hc in E. cbn [length]. lia.
Qed.

Lemma scanstring_fuel (s : list ascii) : scanstring s <> OutOfFuel.
Proof. now apply (scanstring_consumes_upto (length s) s). Qed.

Lemma scanstring_consumes (s : list ascii) (x r : list ascii) :
  scanstring s = Decoded x r -> (length r < length s)%nat.
Proof. now apply (scanstring_consumes_upto (length s) s). Qed.

Lemma scan_digits_length (s : list ascii) :
  (length (snd (scan_digits s)) <= length s)%nat.
Proof.
  induction s as [|c r IH]; cbn [scan_digits]; [cbn; lia|].
  destruct (digit_of_char c); [|cbn; lia].
  destruct (scan_digits r) as [d r']. cbn [snd length] in *. lia.
Qed.

Lemma is_digit_digit_of_char (c : ascii) :
  is_digit c = true -> exists D, digit_of_char c = Some D.
Proof.
  destruct c as [[] [] [] [] [] [] [] []]; try discriminate; intros _;
    now eexists.
Qed.

Lemma scan_integer_consumes (s : list ascii) (d : Decimal.uint)
    (r : list ascii) :
  scan_integer s = Some (d, r) -> (length r < length s)%nat.
Proof.
  destruct s as [|c s']; [discriminate|]. unfold scan_integer.
  destruct (char_is c 48); [intros [= <- <-]; cbn; lia|].
  destruct (is_digit c) eqn:Ed; [|discriminate].
  destruct (is_digit_digit_of_char c Ed) as [D ED].
  cbn [scan_digits]. rewrite ED.
  pose proof (scan_digits_length s') as Hl.
  destruct (scan_digits s') as [d' r']. intros [= <- <-].
  cbn [snd length] in *. lia.
Qed.

Lemma split_sign_length (s : list ascii) :
  (length (snd (split_sign s)) <= length s)%nat.
Proof.
  destruct s as [|c r]; [cbn; lia|]. cbn [split_sign].
  destruct (char_is c 45); cbn [snd length]; lia.
Qed.

Lemma scan_number_consumes (s : list ascii) :
  scan_number s <> OutOfFuel /\
  forall v r, scan_number s = Decoded v r -> (length r < length s)%nat.
Proof.
  unfold scan_number. pose proof (split_sign_length s) as Hs.
  destruct (split_sign s) as [neg s1]. cbn [snd] in Hs.
  destruct (scan_integer s1) as [[d rest]|] eqn:E.
  - apply scan_integer_consumes in E.
    destruct (float_follows rest); split; try discriminate.
    intros v r [= <- <-]. lia.
  - destruct (_ || _); split; discriminate.
Qed.

Lemma array_items_consumes (scan : list ascii -> decoded pyval) :
  consumes scan ->
  forall fuel values s v r,
    array_items scan fuel values s = Decoded v r ->
    (length r < length s)%nat.
Proof.
  intros Hc. induction fuel as [|fuel IH]; intros values s v r;
    [discriminate|].
  cbn [array_items]. destruct (scan s) as [value r1| | |] eqn:E;
    try discriminate.
  apply Hc in E. pose proof (skip_ws_length r1) as Hw.
  destruct (skip_ws r1) as [|c r2]; [discriminate|]. cbn [length] in Hw.
  destruct (char_is c 93); [intros [= <- <-]; lia|].
  destruct (char_is c 44); [|discriminate].
  intros H. apply IH in H. pose proof (skip_ws_length r2). lia.
Qed.

Lemma array_items_fuel (scan : list ascii -> decoded pyval) (m : nat) :
  consumes scan -> fuelled scan m ->
  forall fuel values s,
    (length s < m)%nat -> (length s < fuel)%nat ->
    array_items scan fuel values s <> OutOfFuel.
Proof.
  intros Hc Hf. induction fuel as [|fuel IH]; intros values s Hm Hn; [lia|].
  cbn [array_items]. destruct (scan s) as [value r1| | |] eqn:E;
    try discriminate; [|destruct (Hf s Hm E)].
  apply Hc in E. pose proof (skip_ws_length r1) as Hw.
  destruct (skip_ws r1) as [|c r2]; [discriminate|]. cbn [length] in Hw.
  destruct (char_is c 93); [discriminate|].
  destruct (char_is c 44); [|discriminate].
  pose proof (skip_ws_length r2). apply IH; lia.
Qed.

Lemma JSONArray_consumes (scan : list ascii -> decoded pyval) (fuel : nat) :
  consumes scan ->
  forall s v r, JSONArray scan fuel s = Decoded v r ->
                (length r <= length s)%nat.
Proof.
  intros Hc s v r. unfold JSONArray. pose proof (skip_ws_length s) as Hw.
  destruct (skip_ws s) as [|c r1].
  - intros H. apply (array_items_consumes scan Hc) in H. cbn in H. lia.
  - cbn [length] in Hw. destruct (char_is c 93); [intros [= <- <-]; lia|].
    intros H. apply (array_items_consumes scan Hc) in H. cbn [length] in H.
    lia.
Qed.

Lemma JSONArray_fuel (scan : list ascii -> decoded pyval) (fuel m : nat) :
  consumes scan -> fuelled scan m ->
  forall s, (length s < m)%nat -> (length s < fuel)%nat ->
            JSONArray scan fuel s <> OutOfFuel.
Proof.
  intros Hc Hf s Hm Hn. unfold JSONArray. pose proof (skip_ws_length s) as Hw.
  destruct (skip_ws s) as [|c r1].
  - apply (array_items_fuel scan m Hc Hf); cbn; lia.
  - destruct (char_is c 93); [discriminate|].
    apply (array_items_fuel scan m Hc Hf); lia.
Qed.

Lemma object_items_consumes (scan : list ascii -> decoded pyval) :
  consumes scan ->
  forall fuel pairs s v r,
    object_items scan fuel pairs s = Decoded v r ->
    (length r < length s)%nat.
Proof.
  intros Hc. induction fuel as [|fuel IH]; intros pairs s v r;
    [discriminate|].
  cbn [object_items]. destruct (scanstring s) as [key r0| | |] eqn:Ek;
    try discriminate.
  apply scanstring_consumes in Ek. pose proof (skip_ws_length r0) as Hw0.
  destruct (skip_ws r0) as [|c r1]; [discriminate|]. cbn [length] in Hw0.
  destruct (char_is c 58); [|discriminate].
  pose proof (skip_ws_length r1) as Hw1.
  destruct (scan (skip_ws r1)) as [value r2| | |] eqn:E; try discriminate.
  apply Hc in E. pose proof (skip_ws_length r2) as Hw2.
  destruct (skip_ws r2) as [|c2 r3]; [discriminate|]. cbn [length] in Hw2.
  destruct (char_is c2 125); [intros [= <- <-]; lia|].
  destruct (char_is c2 44); [|discriminate].
  pose proof (skip_ws_length r3) as Hw3.
  destruct (skip_ws r3) as [|q r4]; [discriminate|]. cbn [length] in Hw3.
  destruct (char_is q 34); [|discriminate].
  intros H. apply IH in H. lia.
Qed.

Lemma object_items_fuel (scan : list ascii -> decoded pyval) (m : nat) :
  consumes scan -> fuelled scan m ->
  forall fuel pairs s,
    (length s < m)%nat -> (length s < fuel)%nat ->
    object_items scan fuel pairs s <> OutOfFuel.
Proof.
  intros Hc Hf. induction fuel as [|fuel IH]; intros pairs s Hm Hn; [lia|].
  cbn [object_items]. destruct (scanstring s) as [key r0| | |] eqn:Ek;
    try discriminate; [|now apply scanstring_fuel in Ek].
  apply scanstring_consumes in Ek. pose proof (skip_ws_length r0) as Hw0.
  destruct (skip_ws r0) as [|c r1]; [discriminate|]. cbn [length] in Hw0.
  destruct (char_is c 58); [|discriminate].
  pose proof (skip_ws_length r1) as Hw1.
  destruct (scan (skip_ws r1)) as [value r2| | |] eqn:E; try discriminate;
    [|apply Hf in E; [contradiction | lia]].
  apply Hc in E. pose proof (skip_ws_length r2) as Hw2.
  destruct (skip_ws r2) as [|c2 r3]; [discriminate|]. cbn [length] in Hw2.
  destruct (char_is c2 125); [discriminate|].
  destruct (char_is c2 44); [|discriminate].
  pose proof (skip_ws_length r3) as Hw3.
  destruct (skip_ws r3) as [|q r4]; [discriminate|]. cbn [length] in Hw3.
  destruct (char_is q 34); [|discriminate].
  apply IH; lia.
Qed.

Lemma JSONObject_consumes (scan : list ascii -> decoded pyval) (fuel : nat) :
  consumes scan ->
  forall s v r, JSONObject scan fuel s = Decoded v r ->
                (length r <= length s)%nat.
Proof.
  intros Hc s v r. unfold JSONObject. pose proof (skip_ws_length s) as Hw.
  destruct (skip_ws s) as [|c r1]; [discriminate|]. cbn [length] in Hw.
  destruct (char_is c 125); [intros [= <- <-]; lia|].
  destruct (char_is c 34); [|discriminate].
  intros H. apply (object_items_consumes scan Hc) in H. lia.
Qed.

Lemma JSONObject_fuel (scan : list ascii -> decoded pyval) (fuel m : nat) :
  consumes scan -> fuelled scan m ->
  forall s, (length s < m)%nat -> (length s < fuel)%nat ->
            JSONObject scan fuel s <> OutOfFuel.
Proof.
  intros Hc Hf s Hm Hn. unfold JSONObject. pose proof (skip_ws_length s) as Hw.
  destruct (skip_ws s) as [|c r1]; [discriminate|]. cbn [length] in Hw.
  destruct (char_is c 125); [discriminate|].
  destruct (char_is c 34); [|discriminate].
  apply (object_items_fuel scan m Hc Hf); lia.
Qed.

(** [scan_once] reads at least one character, and a text shorter than the
    fuel leaves fuel over. *)
Lemma scan_once_consumes_fuel (fuel : nat) :
  consumes (scan_once fuel) /\ fuelled (scan_once fuel) fuel.
Proof.
  induction fuel as [|fuel [IHc IHf]].
  - split; [intros s v r; discriminate | intros s H; lia].
  - split.
    + intros s v r. cbn [scan_once]. destruct s as [|c s']; [discriminate|].
      cbn [length]. destruct (char_is c 34).
      { intros E. apply decoded_map_inv in E as (y & E & _).
        apply scanstring_consumes in E. lia. }
      destruct (char_is c 123).
      { intros E. apply (JSONObject_consumes _ _ IHc) in E. lia. }
      destruct (char_is c 91).
      { intros E. apply (JSONArray_consumes _ _ IHc) in E. lia. }
      destruct (starts_with (chars "null") (c :: s')).
      { intros [= <- <-]. cbn [skipn]. pose proof (length_skipn 3 s'). lia. }
      destruct (starts_with (chars "true") (c :: s')).
      { intros [= <- <-]. cbn [skipn]. pose proof (length_skipn 3 s'). lia. }
      destruct (starts_with (chars "false") (c :: s')).
      { intros [= <- <-]. cbn [skipn]. pose proof (length_skipn 4 s'). lia. }
      intros E. now apply (proj2 (scan_number_consumes (c :: s'))) in E.
    + intros s Hs. cbn [scan_once]. destruct s as [|c s']; [discriminate|].
      cbn [length] in Hs. destruct (char_is c 34).
      { intros E. apply decoded_map_fuel in E. now apply scanstring_fuel in E. }
      destruct (char_is c 123).
      { apply (JSONObject_fuel _ fuel fuel IHc IHf); lia. }
      destruct (char_is c 91).
      { apply (JSONArray_fuel _ fuel fuel IHc IHf); lia. }
      destruct (starts_with (chars "null") (c :: s')); [discriminate|].
      destruct (starts_with (chars "true") (c :: s')); [discriminate|].
      destruct (starts_with (chars "false") (c :: s')); [discriminate|].
      apply scan_number_consumes.
Qed.

Lemma length_chars (text : string) : length (chars text) = String.length text.
Proof.
  unfold chars. induction text as [|c s IH]; cbn; [reflexivity | now f_equal].
Qed.

(** [json_loads] never runs out of fuel: it returns [None] only for a text
    whose value is outside the model. *)
Lemma json_loads_has_fuel (text : string) :
  decode (S (String.length text)) (chars text) <> OutOfFuel.
Proof.
  unfold decode.
  destruct (scan_once _ _) as [obj r| | |] eqn:E; try discriminate.
  - now destruct (skip_ws r).
  - apply (proj2 (scan_once_consumes_fuel _)) in E; [contradiction|].
    pose proof (skip_ws_length (chars text)). rewrite length_chars in *. lia.
Qed.

Lemma json_loads_none (text : string) :
  json_loads text = None <->
  decode (S (String.length text)) (chars text) = Unmodelled.
Proof.
  unfold json_loads. pose proof (json_loads_has_fuel text) as H.
  destruct (decode _ _); split; congruence.
Qed.

(** ** At the edges *)

(** On the last day a moment can be on, the next day does not exist and
    [get_due_soon_tasks] raises. *)
Lemma get_due_soon_tasks_last_day (tasks : list Task.t) :
  get_due_soon_tasks last_day tasks = Raise OverflowError.
Proof. reflexivity. Qed.

(** A task without the [completed] key stops the render path when
    completed tasks are hidden. *)
Lemma render_filters_key_error :
  render_filters [Task.mk 1 (Some "a") (Some "b") None None None None None]
    "All" "All" false "a" = Raise (KeyError "completed").
Proof. reflexivity. Qed.

(** ** The tests of the repository, on the sample data *)

Example test_save_and_load_tasks :
  fst <$> load_tasks "tmp"
            (save_tasks (tasks_to_py sample_tasks) "tmp" empty_world)
  = Some (Ok (tasks_to_py sample_tasks)).
Proof. reflexivity. Qed.

Example test_generate_unique_id : generate_unique_id sample_tasks = 3.
Proof. reflexivity. Qed.

Example test_generate_unique_id_empty_list : generate_unique_id [] = 1.
Proof. reflexivity. Qed.

Example test_filter_tasks_by_priority :
  filter_tasks_by_priority sample_tasks "High" = [task_one] /\
  filter_tasks_by_priority sample_tasks "Urgent" = [].
Proof. split; reflexivity. Qed.

Example test_filter_tasks_by_category :
  filter_tasks_by_category sample_tasks "Personal" = [task_two] /\
  filter_tasks_by_category sample_tasks "Fitness" = [].
Proof. split; reflexivity. Qed.

Example test_search_tasks :
  search_tasks sample_tasks "first" = [task_one] /\
  search_tasks sample_tasks "Task One" = [task_one] /\
  search_tasks sample_tasks "task one" = [task_one] /\
  search_tasks sample_tasks "Nonexistent" = [].
Proof. repeat split; reflexivity. Qed.

Example test_get_overdue_tasks :
  get_overdue_tasks now0 sample_tasks = [task_two].
Proof. reflexivity. Qed.

Example test_get_due_soon_tasks :
  get_due_soon_tasks now0 sample_tasks = Ok [task_one].
Proof. reflexivity. Qed.

Example test_sort_tasks :
  sort_tasks_by_priority sample_tasks = [task_one; task_two] /\
  sort_tasks_by_due_date sample_tasks = [task_two; task_one].
Proof. split; reflexivity. Qed.

Example test_load_tasks_file_not_found :
  fst <$> load_tasks "non_existing_tasks.json" empty_world
  = Some (Ok (PList [])).
Proof. reflexivity. Qed.

Example test_load_tasks_invalid_json :
  fst <$> load_tasks "bad_tasks.json"
            (open_write "bad_tasks.json" "{ invalid json }" empty_world)
  = Some (Ok (PList [])).
Proof. reflexivity. Qed.

(** * Further properties *)

(** ** Filters and search together *)

Lemma filter_filter_comm {A} (f g : A -> bool) (l : list A) :
  List.filter f (List.filter g l) = List.filter g (List.filter f l).
Proof.
  induction l as [|x l IH]; [reflexivity|]. cbn [List.filter].
  destruct (f x) eqn:Ef, (g x) eqn:Eg; cbn [List.filter];
    rewrite ?Ef, ?Eg, IH; reflexivity.
Qed.

Lemma filter_filter_absorb {A} (f g : A -> bool) (l : list A) :
  (forall x, g x = true -> f x = true) ->
  List.filter g (List.filter f l) = List.filter g l.
Proof.
  intros H. induction l as [|x l IH]; [reflexivity|]. cbn [List.filter].
  destruct (f x) eqn:Ef; cbn [List.filter].
  - now rewrite IH.
  - destruct (g x) eqn:Eg; [|exact IH]. apply H in Eg. congruence.
Qed.

Lemma filter_filter_none {A} (f g : A -> bool) (l : list A) :
  (forall x, f x = true -> g x = false) ->
  List.filter g (List.filter f l) = [].
Proof.
  intros H. induction l as [|x l IH]; [reflexivity|]. cbn [List.filter].
  destruct (f x) eqn:Ef; [|exact IH]. cbn [List.filter].
  now rewrite (H x Ef).
Qed.

Lemma get_eq_true (field : option string) (value : string) :
  get_eq field value = true <-> field = Some value.
Proof.
  rewrite get_eq_decide. apply bool_decide_eq_true.
Qed.

(** X1: the priority and category filters keep exactly the tasks that carry
    the key with the value asked for (a task without the key is never
    kept); filtering twice by one value is filtering once, filtering by two
    different values of one key leaves nothing, and the two filters can be
    applied in either order. *)
Theorem filters_by_priority_and_category (tasks : list Task.t)
    (p p' c : string) :
  (forall t, In t (filter_tasks_by_priority tasks p) <->
             In t tasks /\ Task.priority t = Some p) /\
  (forall t, In t (filter_tasks_by_category tasks c) <->
             In t tasks /\ Task.category t = Some c) /\
  filter_tasks_by_priority (filter_tasks_by_priority tasks p) p =
    filter_tasks_by_priority tasks p /\
  (p <> p' ->
   filter_tasks_by_priority (filter_tasks_by_priority tasks p) p' = []) /\
  filter_tasks_by_category (filter_tasks_by_priority tasks p) c =
    filter_tasks_by_priority (filter_tasks_by_category tasks c) p.
Proof.
  unfold filter_tasks_by_priority, filter_tasks_by_category.
  split; [|split; [|split; [|split]]].
  - intros t. now rewrite filter_In, get_eq_true.
  - intros t. now rewrite filter_In, get_eq_true.
  - now apply filter_filter_absorb.
  - intros Hne. apply filter_filter_none. intros t Ht.
    apply get_eq_true in Ht.
    destruct (get_eq (Task.priority t) p') eqn:E; [|reflexivity].
    apply get_eq_true in E. congruence.
  - apply filter_filter_comm.
Qed.

(** X2: the completed and the not-completed tasks, as
    [filter_tasks_by_completion] returns them, have no task in common; a
    task without the [completed] key is in neither list; when every task
    carries the key the two lists together are a rearrangement of the
    input. *)
Theorem filter_tasks_by_completion_split (tasks : list Task.t) :
  (forall t, In t (filter_tasks_by_completion tasks true) ->
             ~ In t (filter_tasks_by_completion tasks false)) /\
  (forall t b, Task.completed t = None ->
               ~ In t (filter_tasks_by_completion tasks b)) /\
  (Forall (fun t => is_Some (Task.completed t)) tasks ->
   Permutation
     (filter_tasks_by_completion tasks true ++
      filter_tasks_by_completion tasks false) tasks).
Proof.
  unfold filter_tasks_by_completion. split; [|split].
  - intros t H1 H2. apply filter_In in H1 as [_ H1], H2 as [_ H2].
    destruct (Task.completed t) as [[]|]; discriminate.
  - intros t b Hn H. apply filter_In in H as [_ H]. now rewrite Hn in H.
  - intros Hall. induction Hall as [|t l [c Hc] Hl IH]; [constructor|].
    cbn [List.filter]. rewrite Hc. destruct c; cbn [Bool.eqb app].
    + now constructor.
    + rewrite <- Permutation_middle. now constructor.
Qed.

Lemma contains_part (pre q suf s : Unicode.text) :
  Unicode.contains (pre ++ q ++ suf) s = true -> Unicode.contains q s = true.
Proof.
  rewrite !contains_iff. intros (a & b & ->).
  exists (a ++ pre), (suf ++ b). now rewrite <- !app_assoc.
Qed.

Lemma plain_match_part (pre q suf : Unicode.text) (t : Unicode.Task.t) :
  plain_match (pre ++ q ++ suf) t = true -> plain_match q t = true.
Proof.
  unfold plain_match. rewrite !List.map_app, !orb_true_iff.
  intros [H | H]; [left | right]; exact (contains_part _ _ _ _ H).
Qed.

(** X3: on texts that the model knows and that hold no capital sigma,
    lengthening the query narrows the search, and searching within the
    results of a search for a part of the query finds the same as searching
    the whole collection. *)
Theorem search_tasks_refine (tasks : list Unicode.Task.t)
    (pre q suf : Unicode.text) :
  plain (pre ++ q ++ suf) -> Forall plain_task tasks ->
  exists narrow wide,
    Unicode.search_tasks tasks (pre ++ q ++ suf) = Some narrow /\
    Unicode.search_tasks tasks q = Some wide /\
    sublist narrow wide /\
    Unicode.search_tasks wide (pre ++ q ++ suf) = Some narrow.
Proof.
  intros Hlong Hall.
  assert (Hq : plain q).
  { apply plain_app in Hlong as [_ H]. now apply plain_app in H as [H _]. }
  exists (List.filter (plain_match (pre ++ q ++ suf)) tasks),
         (List.filter (plain_match q) tasks).
  assert (E : List.filter (plain_match (pre ++ q ++ suf))
                (List.filter (plain_match q) tasks) =
              List.filter (plain_match (pre ++ q ++ suf)) tasks).
  { apply filter_filter_absorb. intros t. apply plain_match_part. }
  split; [now apply search_tasks_plain_filter|].
  split; [now apply search_tasks_plain_filter|]. split.
  - rewrite <- E. apply filter_sublist.
  - rewrite search_tasks_plain_filter;
      [now rewrite E | exact Hlong | now apply Forall_filter_keep].
Qed.

(** The search for "task t" within the search for "TASK", in the sample
    data. *)
Lemma search_tasks_refine_witness :
  exists narrow wide,
    Unicode.search_tasks (List.map unicode_task sample_tasks)
      ([] ++ Unicode.codes "TASK" ++ Unicode.codes " T") = Some narrow /\
    Unicode.search_tasks (List.map unicode_task sample_tasks)
      (Unicode.codes "TASK") = Some wide /\
    sublist narrow wide /\
    Unicode.search_tasks wide
      ([] ++ Unicode.codes "TASK" ++ Unicode.codes " T") = Some narrow.
Proof.
  apply (search_tasks_refine (List.map unicode_task sample_tasks) []
           (Unicode.codes "TASK") (Unicode.codes " T")).
  - apply plain_app. split; [constructor|]. apply plain_app.
    split; apply plain_codes.
  - apply Forall_forall. intros t Ht.
    apply list_elem_of_In, in_map_iff in Ht as (t0 & <- & _).
    apply plain_unicode_task.
Defined.

Lemma search_filter_comm (f : Task.t -> bool) (l : list Task.t) (q : string) :
  search_tasks (List.filter f l) q = List.filter f (search_tasks l q).
Proof. unfold search_tasks. apply filter_filter_comm. Qed.

Lemma by_category_search (c q : string) (l : list Task.t) :
  by_category c (search_tasks l q) = search_tasks (by_category c l) q.
Proof.
  unfold by_category. destruct (String.eqb c "All"); [reflexivity|].
  symmetry. apply search_filter_comm.
Qed.

Lemma by_priority_search (p q : string) (l : list Task.t) :
  by_priority p (search_tasks l q) = search_tasks (by_priority p l) q.
Proof.
  unfold by_priority. destruct (String.eqb p "All"); [reflexivity|].
  symmetry. apply search_filter_comm.
Qed.

Lemma by_visibility_search (show : bool) (q : string) (l : list Task.t) :
  by_visibility show (search_tasks l q) = search_tasks (by_visibility show l) q.
Proof.
  unfold by_visibility. destruct show; [reflexivity|].
  symmetry. apply search_filter_comm.
Qed.

(** The value of the render path when every task carries the [completed]
    key. *)
Lemma render_filters_value
    (tasks : list Task.t) (filter_category filter_priority : string)
    (show_completed : bool) (search_query : string) :
  Forall (fun t => is_Some (Task.completed t)) tasks ->
  render_filters tasks filter_category filter_priority show_completed
    search_query =
  Ok (if str_truthy search_query
      then search_tasks
             (by_visibility show_completed
                (by_priority filter_priority
                   (by_category filter_category tasks))) search_query
      else by_visibility show_completed
             (by_priority filter_priority
                (by_category filter_category tasks))).
Proof.
  intros Hall. unfold render_filters.
  rewrite (apply_filters_total _ _ _ tasks Hall). cbn [bind].
  destruct (str_truthy search_query).
  - rewrite apply_filters_total by now apply Forall_filter_keep.
    now rewrite by_category_search, by_priority_search, by_visibility_search.
  - now apply apply_filters_total.
Qed.

(** X4: the render path filters, throws the filtered list away, searches
    the whole collection and filters again; what it displays is what a
    search within the filtered list would have found.  Hypothesis: every
    task carries the [completed] key. *)
Theorem render_filters_search_within
    (tasks : list Task.t) (filter_category filter_priority : string)
    (show_completed : bool) (search_query : string) :
  Forall (fun t => is_Some (Task.completed t)) tasks ->
  render_filters tasks filter_category filter_priority show_completed
    search_query =
  Ok (if str_truthy search_query
      then search_tasks
             (by_visibility show_completed
                (by_priority filter_priority
                   (by_category filter_category tasks))) search_query
      else by_visibility show_completed
             (by_priority filter_priority
                (by_category filter_category tasks))).
Proof. apply render_filters_value. Qed.

(** The render path on the sample data, hiding completed tasks. *)
Lemma render_filters_search_within_witness :
  render_filters sample_tasks "All" "Low" false "task" = Ok [task_two].
Proof.
  apply (render_filters_search_within sample_tasks "All" "Low" false "task").
  repeat constructor; eexists; reflexivity.
Defined.

(** ** Sorting and filtering together *)

Section SortedCompose.
Context {A K : Type}.
Variable lt : K -> K -> bool.
Variable key : A -> K.

Hypothesis lt_asym : forall a b, lt a b = true -> lt b a = false.
Hypothesis lt_trans :
  forall a b c, lt a b = true -> lt b c = true -> lt a c = true.
Hypothesis lt_total : forall a b, lt a b = false -> lt b a = false -> a = b.

(** A list in ascending order is its own sort. *)
Lemma sorted_of_sorted (s : list A) :
  StronglySorted (fun x y => lt (key y) (key x) = false) s ->
  sorted lt key s = s.
Proof.
  induction 1 as [|x s Hs IH Hx]; [reflexivity|].
  cbn [sorted]. rewrite IH. destruct Hx as [|y s' Hy _]; [reflexivity|].
  cbn [insert_by]. now rewrite Hy.
Qed.

Lemma sorted_idempotent (l : list A) :
  sorted lt key (sorted lt key l) = sorted lt key l.
Proof.
  apply sorted_of_sorted.
  apply (sorted_sorted lt key lt_asym lt_trans lt_total).
Qed.

(** Dropping elements commutes with inserting into a sorted list. *)
Lemma insert_by_filter (f : A -> bool) (x : A) (s : list A) :
  StronglySorted (fun x y => lt (key y) (key x) = false) s ->
  List.filter f (insert_by lt key x s) =
  if f x then insert_by lt key x (List.filter f s) else List.filter f s.
Proof.
  induction 1 as [|y s Hs IH Hy]; [cbn; now destruct (f x)|].
  cbn [insert_by]. destruct (lt (key y) (key x)) eqn:E.
  - cbn [List.filter]. rewrite IH.
    destruct (f x), (f y); cbn [insert_by]; rewrite ?E; reflexivity.
  - cbn [List.filter]. destruct (f x) eqn:Ex; [|reflexivity].
    destruct (f y) eqn:Ey.
    + cbn [insert_by]. now rewrite E.
    + destruct (List.filter f s) as [|z r] eqn:Ez; [reflexivity|].
      cbn [insert_by].
      assert (Hz : In z s).
      { apply (proj1 (filter_In f z s)). rewrite Ez. now left. }
      rewrite Forall_forall in Hy.
      specialize (Hy z (proj2 (list_elem_of_In _ _) Hz)). cbv beta in Hy.
      destruct (lt (key z) (key x)) eqn:Ezx; [|reflexivity].
      exfalso. destruct (lt (key x) (key y)) eqn:Exy.
      * rewrite (lt_trans _ _ _ Ezx Exy) in Hy. discriminate.
      * rewrite (lt_total _ _ Exy E) in Ezx. congruence.
Qed.

(** Filtering the sort is sorting the filtered list. *)
Lemma sorted_filter (f : A -> bool) (l : list A) :
  sorted lt key (List.filter f l) = List.filter f (sorted lt key l).
Proof.
  induction l as [|x l IH]; [reflexivity|].
  cbn [sorted List.filter].
  rewrite insert_by_filter
    by apply (sorted_sorted lt key lt_asym lt_trans lt_total).
  destruct (f x); [cbn [sorted]; now rewrite IH | exact IH].
Qed.
End SortedCompose.

(** X5: each sort returns a list that is already sorted unchanged; so
    sorting twice by one key is sorting once. *)
Theorem sort_tasks_idempotent (tasks : list Task.t) :
  sort_tasks_by_priority (sort_tasks_by_priority tasks) =
    sort_tasks_by_priority tasks /\
  sort_tasks_by_due_date (sort_tasks_by_due_date tasks) =
    sort_tasks_by_due_date tasks.
Proof.
  unfold sort_tasks_by_priority, sort_tasks_by_due_date. split.
  - apply (sorted_idempotent _ _ Zltb_asym Zltb_trans Zltb_total).
  - apply (sorted_idempotent _ _ datetime_lt_asym datetime_lt_trans
             datetime_lt_total).
Qed.

(** X6: for each sort and any condition on tasks, keeping the tasks that
    meet the condition and then sorting gives the same list as sorting and
    then keeping them. *)
Theorem sort_tasks_filter_commute (f : Task.t -> bool) (tasks : list Task.t) :
  sort_tasks_by_priority (List.filter f tasks) =
    List.filter f (sort_tasks_by_priority tasks) /\
  sort_tasks_by_due_date (List.filter f tasks) =
    List.filter f (sort_tasks_by_due_date tasks).
Proof.
  unfold sort_tasks_by_priority, sort_tasks_by_due_date. split.
  - apply (sorted_filter _ _ Zltb_asym Zltb_trans Zltb_total).
  - apply (sorted_filter _ _ datetime_lt_asym datetime_lt_trans
             datetime_lt_total).
Qed.

Lemma apply_sort_filter (sort_option : string) (f : Task.t -> bool)
    (l : list Task.t) :
  apply_sort sort_option (List.filter f l) =
  List.filter f (apply_sort sort_option l).
Proof.
  unfold apply_sort, sort_tasks_by_priority, sort_tasks_by_due_date.
  destruct (String.eqb sort_option "Priority").
  - apply (sorted_filter _ _ Zltb_asym Zltb_trans Zltb_total).
  - destruct (String.eqb sort_option "Due Date"); [|reflexivity].
    apply (sorted_filter _ _ datetime_lt_asym datetime_lt_trans
             datetime_lt_total).
Qed.

Lemma apply_sort_search (sort_option q : string) (l : list Task.t) :
  apply_sort sort_option (search_tasks l q) =
  search_tasks (apply_sort sort_option l) q.
Proof. unfold search_tasks. apply apply_sort_filter. Qed.

Lemma apply_sort_filters (sort_option c p : string) (show : bool)
    (l : list Task.t) :
  apply_sort sort_option (by_visibility show (by_priority p (by_category c l)))
  = by_visibility show
      (by_priority p (by_category c (apply_sort sort_option l))).
Proof.
  unfold by_visibility, by_priority, by_category.
  destruct show, (String.eqb p "All"), (String.eqb c "All");
    now rewrite ?apply_sort_filter.
Qed.

Lemma apply_sort_keeps {P : Task.t -> Prop} (sort_option : string)
    (l : list Task.t) :
  Forall P l -> Forall P (apply_sort sort_option l).
Proof.
  intros H. unfold apply_sort, sort_tasks_by_priority, sort_tasks_by_due_date.
  destruct (String.eqb sort_option "Priority");
    [|destruct (String.eqb sort_option "Due Date")]; try assumption;
    eapply Permutation_Forall; try exact H;
    apply Permutation_sym, sorted_perm.
Qed.

(** X7: the list displayed (filters, search, then the sort selected) is
    the list the render path would compute from the whole collection
    sorted first: the sort can be moved in front of the search and the
    filters.  Hypothesis: every task carries the [completed] key. *)
Theorem render_list_sort_first
    (tasks : list Task.t) (filter_category filter_priority : string)
    (show_completed : bool) (search_query sort_option : string) :
  Forall (fun t => is_Some (Task.completed t)) tasks ->
  render_list tasks filter_category filter_priority show_completed
    search_query sort_option =
  render_filters (apply_sort sort_option tasks) filter_category
    filter_priority show_completed search_query.
Proof.
  intros Hall. unfold render_list.
  rewrite (render_filters_value tasks _ _ _ _ Hall). cbn [bind].
  rewrite (render_filters_value (apply_sort sort_option tasks))
    by now apply apply_sort_keeps.
  destruct (str_truthy search_query).
  - now rewrite apply_sort_search, apply_sort_filters.
  - now rewrite apply_sort_filters.
Qed.

(** The display of the sample data sorted by due date. *)
Lemma render_list_sort_first_witness :
  render_list sample_tasks "All" "All" false "task" "Due Date" =
  Ok [task_two; task_one].
Proof.
  apply (render_list_sort_first sample_tasks "All" "All" false "task"
           "Due Date").
  repeat constructor; eexists; reflexivity.
Defined.

(** ** Overdue and due soon *)

(** The overdue query on the sample data: both due dates are in the form
    the page writes. *)
Lemma get_overdue_tasks_canonical_witness :
  In task_two (get_overdue_tasks now0 sample_tasks) <->
  In task_two sample_tasks /\ Overdue now0 task_two.
Proof.
  apply (get_overdue_tasks_canonical now0 sample_tasks);
    [reflexivity | cbn; lia |].
  repeat constructor.
  - exists (mkdt 2026 11 5 0 0 0 0). split; reflexivity.
  - exists (mkdt 2026 11 3 0 0 0 0). split; reflexivity.
Defined.

(** A task with no due date, among the sample data. *)
Lemma get_overdue_tasks_undated_witness :
  In task_undated (get_overdue_tasks now0 (task_undated :: sample_tasks)).
Proof.
  apply (get_overdue_tasks_undated now0 (task_undated :: sample_tasks)
           task_undated); [now left | reflexivity | reflexivity].
Defined.

Lemma add_one_day_time (now tomorrow : datetime) :
  add_one_day now = Ok tomorrow ->
  hour tomorrow = hour now /\ minute tomorrow = minute now /\
  second tomorrow = second now /\ microsecond tomorrow = microsecond now.
Proof.
  unfold add_one_day.
  destruct (if day now <? _ then _ else _) as [[y m] d].
  destruct (y <=? MAXYEAR); [|discriminate]. intros [= <-]. now cbn.
Qed.

(** Two dates that exist and have the same day number are the same date. *)
Lemma ordinal_inj (y1 m1 d1 y2 m2 d2 : Z) :
  check_date_fields y1 m1 d1 = true ->
  check_date_fields y2 m2 d2 = true ->
  ordinal y1 m1 d1 = ordinal y2 m2 d2 ->
  y1 = y2 /\ m1 = m2 /\ d1 = d2.
Proof.
  intros H1 H2 E.
  destruct (lex_lt [y1; m1; d1] [y2; m2; d2]) eqn:L1.
  { pose proof (ordinal_lt _ _ _ _ _ _ H1 H2 L1). lia. }
  destruct (lex_lt [y2; m2; d2] [y1; m1; d1]) eqn:L2.
  { pose proof (ordinal_lt _ _ _ _ _ _ H2 H1 L2). lia. }
  pose proof (lex_lt_total [y1; m1; d1] [y2; m2; d2] eq_refl L1 L2) as H.
  now injection H.
Qed.

Lemma due_soon_dates (now tomorrow d : datetime) :
  valid_datetime now = true -> valid_datetime tomorrow = true ->
  valid_datetime d = true -> at_midnight d ->
  add_one_day now = Ok tomorrow ->
  timestamp tomorrow = timestamp now + day_us ->
  timestamp now <= timestamp d <= timestamp now + day_us <->
  same_date d tomorrow \/ (same_date d now /\ at_midnight now).
Proof.
  intros Hn Ht Hd (Hh & Hm & Hs & Hu) Ha Hts.
  apply add_one_day_time in Ha as (Th & Tm & Ts & Tu).
  apply valid_datetime_bounds in Hn as (Dn & ? & ? & ? & ?).
  apply valid_datetime_bounds in Ht as (Dt & _).
  apply valid_datetime_bounds in Hd as (Dd & _).
  unfold same_date, at_midnight.
  assert (Ho : ordinal (year tomorrow) (month tomorrow) (day tomorrow) =
               ordinal (year now) (month now) (day now) + 1).
  { unfold timestamp, day_us in Hts. rewrite Th, Tm, Ts, Tu in Hts. lia. }
  unfold timestamp, day_us in *. rewrite Hh, Hm, Hs, Hu.
  split.
  - intros Hw.
    assert (Hc : ordinal (year d) (month d) (day d) =
                 ordinal (year tomorrow) (month tomorrow) (day tomorrow) \/
                 (ordinal (year d) (month d) (day d) =
                  ordinal (year now) (month now) (day now) /\
                  hour now = 0 /\ minute now = 0 /\ second now = 0 /\
                  microsecond now = 0)) by lia.
    destruct Hc as [E | [E Hz]].
    + left. now apply ordinal_inj.
    + right. split; [now apply ordinal_inj | exact Hz].
  - intros [(Ey & Em & Ed) | [(Ey & Em & Ed) Hz]]; rewrite Ey, Em, Ed; lia.
Qed.

(** X10: before the last day of the calendar, the due-soon query returns
    the tasks that are not completed and whose due date parses to the day
    after [now]; a task due on the day of [now] itself is returned only
    when [now] is exactly midnight. *)
Theorem get_due_soon_tasks_tomorrow (now : datetime) (tasks : list Task.t) :
  valid_datetime now = true ->
  datetime_lt now last_day = true ->
  exists tomorrow soon,
    add_one_day now = Ok tomorrow /\
    get_due_soon_tasks now tasks = Ok soon /\
    forall t,
      In t soon <->
      In t tasks /\ get (Task.completed t) false = false /\
      exists d,
        strptime_ymd (get (Task.due_date t) "") = Ok d /\
        (same_date d tomorrow \/ (same_date d now /\ at_midnight now)).
Proof.
  intros Hn Hlast.
  destruct (add_one_day_ok now Hn Hlast) as (tomorrow & Ha & Hv & Hts).
  exists tomorrow. unfold get_due_soon_tasks. rewrite Ha. cbn [bind].
  eexists. split; [reflexivity|]. split; [reflexivity|].
  intros t. rewrite filter_In, (due_soon_iff now tomorrow t Hn Hv Hts).
  unfold DueSoon. split.
  - intros (Hin & Hc & d & Hd & Hw). split; [exact Hin|].
    split; [exact Hc|]. exists d. split; [exact Hd|].
    pose proof (strptime_ymd_ok _ _ Hd) as (_ & Hmid).
    now apply (due_soon_dates now tomorrow d Hn Hv
                 (strptime_ymd_valid _ _ Hd) Hmid Ha Hts).
  - intros (Hin & Hc & d & Hd & Hw). split; [exact Hin|].
    split; [exact Hc|]. exists d. split; [exact Hd|].
    pose proof (strptime_ymd_ok _ _ Hd) as (_ & Hmid).
    now apply (due_soon_dates now tomorrow d Hn Hv
                 (strptime_ymd_valid _ _ Hd) Hmid Ha Hts).
Qed.

(** The due-soon query at the sample clock reading. *)
Lemma get_due_soon_tasks_tomorrow_witness :
  exists tomorrow soon,
    add_one_day now0 = Ok tomorrow /\
    get_due_soon_tasks now0 sample_tasks = Ok soon /\
    forall t,
      In t soon <->
      In t sample_tasks /\ get (Task.completed t) false = false /\
      exists d,
        strptime_ymd (get (Task.due_date t) "") = Ok d /\
        (same_date d tomorrow \/ (same_date d now0 /\ at_midnight now0)).
Proof.
  apply (get_due_soon_tasks_tomorrow now0 sample_tasks); reflexivity.
Defined.

(** A date that is earlier is an earlier moment, whatever the time of
    day. *)
Lemma datetime_lt_date (a b : datetime) :
  lex_lt [year a; month a; day a] [year b; month b; day b] = true ->
  datetime_lt a b = true.
Proof.
  unfold datetime_lt, fields. cbn [lex_lt]. lia.
Qed.

(** X11: at a clock from year 1000 on and on a due date in the form the
    page writes, no task is both overdue and due soon at the same clock
    reading. *)
Theorem overdue_not_due_soon
    (now : datetime) (tasks soon : list Task.t) (t : Task.t) :
  valid_datetime now = true ->
  1000 <= year now ->
  get_due_soon_tasks now tasks = Ok soon ->
  canonical_due_date t ->
  In t (get_overdue_tasks now tasks) -> ~ In t soon.
Proof.
  intros Hn Hyear Hsoon (d & Hd & Ed) Hover Hin.
  apply valid_datetime_bounds in Hn as (Hnd & _).
  unfold get_due_soon_tasks in Hsoon.
  destruct (add_one_day now) as [tomorrow|e]; [|discriminate].
  cbn [bind] in Hsoon. injection Hsoon as <-.
  apply filter_In in Hin as [_ Hin].
  unfold get_overdue_tasks in Hover. apply filter_In in Hover as [_ Hover].
  apply andb_true_iff in Hover as [_ Hover].
  unfold due_soon in Hin. rewrite Ed in Hin, Hover. cbn [get] in Hin, Hover.
  rewrite (strftime_ymd_lt d now Hd Hnd) in Hover.
  rewrite (strptime_strftime d Hd) in Hin.
  destruct (get (Task.completed t) false); [discriminate|].
  destruct (str_truthy (strftime_ymd d)); [|discriminate].
  apply andb_true_iff in Hin as [Hin _]. unfold datetime_le in Hin.
  rewrite (datetime_lt_date (mkdt (year d) (month d) (day d) 0 0 0 0) now)
    in Hin by exact Hover.
  discriminate.
Qed.

(** At the sample clock reading, the second sample task is overdue. *)
Lemma overdue_not_due_soon_witness : ~ In task_two [task_one].
Proof.
  apply (overdue_not_due_soon now0 sample_tasks [task_one] task_two).
  - reflexivity.
  - cbn. lia.
  - reflexivity.
  - exists (mkdt 2026 11 3 0 0 0 0). split; reflexivity.
  - vm_compute. now left.
Defined.

(** X12: the due-soon query raises [OverflowError] exactly on the last day
    of the calendar, whatever the tasks are. *)
Theorem get_due_soon_tasks_overflow (now : datetime) (tasks : list Task.t) :
  valid_datetime now = true ->
  get_due_soon_tasks now tasks = Raise OverflowError <->
  same_date now last_day.
Proof.
  intros Hn. unfold same_date, last_day.
  cbn [year month day]. split.
  - intros Hraise.
    destruct (datetime_lt now last_day) eqn:Hlast.
    + destruct (add_one_day_ok now Hn Hlast) as (tomorrow & Ha & _).
      unfold get_due_soon_tasks in Hraise. rewrite Ha in Hraise.
      discriminate.
    + apply valid_datetime_bounds in Hn as (Hd & Hh & Hmi & Hs & Hus).
      apply check_date_fields_bounds in Hd as (Hy & Hm & Hday).
      pose proof (days_in_month_le_31 (year now) (month now)).
      unfold MINYEAR, MAXYEAR in *.
      unfold datetime_lt, fields, last_day in Hlast.
      cbn [lex_lt year month day hour minute second microsecond] in Hlast.
      lia.
  - intros (Ey & Em & Ed). unfold get_due_soon_tasks, add_one_day.
    rewrite Ey, Em, Ed. reflexivity.
Qed.

(** The last second of the calendar. *)
Lemma get_due_soon_tasks_overflow_witness :
  get_due_soon_tasks (mkdt 9999 12 31 23 59 59 0) sample_tasks =
    Raise OverflowError <->
  same_date (mkdt 9999 12 31 23 59 59 0) last_day.
Proof.
  apply (get_due_soon_tasks_overflow (mkdt 9999 12 31 23 59 59 0)
           sample_tasks).
  reflexivity.
Defined.

(** ** Adding a task *)

Lemma generate_unique_id_above (tasks : list Task.t) :
  Forall (fun t => Task.id t < generate_unique_id tasks) tasks.
Proof.
  destruct tasks as [|t ts]; [constructor|].
  destruct (py_max_spec (Task.id t) (map Task.id ts)) as [_ Hall].
  cbn [generate_unique_id]. apply Forall_forall. intros x Hx.
  apply list_elem_of_In in Hx.
  rewrite Forall_forall in Hall.
  assert (Hin : In (Task.id x) (Task.id t :: map Task.id ts)).
  { destruct Hx as [<- | Hx]; [now left | right; now apply in_map]. }
  apply list_elem_of_In, Hall in Hin. lia.
Qed.

Lemma generate_unique_id_snoc (tasks : list Task.t) (t : Task.t) :
  Task.id t = generate_unique_id tasks ->
  generate_unique_id (tasks ++ [t]) = Task.id t + 1.
Proof.
  intros Hid. destruct tasks as [|a l]; [reflexivity|].
  cbn [app generate_unique_id] in *. unfold py_max in *.
  rewrite map_app, fold_left_app. cbn [map fold_left]. lia.
Qed.

(** The condition of the form, as the page reads it. *)
Lemma add_task_accepted (submit_button : bool)
    (task_title task_description task_priority task_category : string)
    (task_due_date now now' : datetime) (tasks : list Task.t) (w : world) :
  let t := new_task task_title task_description task_priority task_category
             task_due_date now' tasks in
  add_task submit_button task_title task_description task_priority
    task_category task_due_date now now' tasks w = (tasks, w) \/
  (date_le now task_due_date = true /\
   add_task submit_button task_title task_description task_priority
     task_category task_due_date now now' tasks w =
   (tasks ++ [t],
    save_tasks (tasks_to_py (tasks ++ [t])) DEFAULT_TASKS_FILE w)).
Proof.
  cbv zeta. unfold add_task.
  destruct (submit_button && str_truthy task_title &&
            str_truthy task_description && date_le now task_due_date)
    eqn:E; [right | now left].
  apply andb_true_iff in E as [_ E]. now split.
Qed.

(** X13: adding a task keeps the ids of the collection distinct. *)
Theorem add_task_unique_ids (submit_button : bool)
    (task_title task_description task_priority task_category : string)
    (task_due_date now now' : datetime) (tasks : list Task.t) (w : world) :
  NoDup (map Task.id tasks) ->
  NoDup (map Task.id
           (fst (add_task submit_button task_title task_description
                   task_priority task_category task_due_date now now'
                   tasks w))).
Proof.
  intros Hnd.
  destruct (add_task_accepted submit_button task_title task_description
              task_priority task_category task_due_date now now' tasks w)
    as [-> | [_ ->]]; [exact Hnd|].
  cbn [fst]. rewrite map_app. apply NoDup_app. split; [exact Hnd|].
  split; [|apply NoDup_singleton].
  intros i Hi Hi'. apply list_elem_of_In in Hi, Hi'.
  destruct Hi' as [<- | []]. apply in_map_iff in Hi as (t & Ht & Hin).
  pose proof (generate_unique_id_above tasks) as Hall.
  rewrite Forall_forall in Hall.
  apply list_elem_of_In, Hall in Hin. cbn [new_task Task.id] in Ht. lia.
Qed.

(** A second task added to the sample data. *)
Lemma add_task_unique_ids_witness :
  NoDup (map Task.id
           (fst (add_task true "Task Three" "Third task" "Low" "Work"
                   now0 now0 now0 sample_tasks empty_world))).
Proof.
  apply (add_task_unique_ids true "Task Three" "Third task" "Low" "Work"
           now0 now0 now0 sample_tasks empty_world).
  apply NoDup_cons. split; [|apply NoDup_singleton].
  intros H. apply list_elem_of_In in H. destruct H as [H | []].
  discriminate H.
Defined.

(** X14: the task added takes the id that [generate_unique_id] gives, and
    the id given after it is the next integer: the ids of tasks added one
    after the other are consecutive. *)
Theorem new_task_next_id
    (task_title task_description task_priority task_category : string)
    (task_due_date now' : datetime) (tasks : list Task.t) :
  generate_unique_id
    (tasks ++ [new_task task_title task_description task_priority
                 task_category task_due_date now' tasks]) =
  generate_unique_id tasks + 1.
Proof. now rewrite generate_unique_id_snoc. Qed.

(** X15: the form adds a task exactly when the button was pressed, title
    and description are not empty and the due date is not before the day
    of the clock; the collection with the new task at its end is then what
    [load_tasks] reads back from the default file.  Otherwise the
    collection and the world are as they were. *)
Theorem add_task_saved (submit_button : bool)
    (task_title task_description task_priority task_category : string)
    (task_due_date now now' : datetime) (tasks : list Task.t) (w : world) :
  let '(tasks', w') :=
    add_task submit_button task_title task_description task_priority
      task_category task_due_date now now' tasks w in
  (submit_button = true /\ task_title <> "" /\ task_description <> "" /\
   lex_lt [year task_due_date; month task_due_date; day task_due_date]
          [year now; month now; day now] = false /\
   tasks' = tasks ++ [new_task task_title task_description task_priority
                        task_category task_due_date now' tasks] /\
   load_tasks DEFAULT_TASKS_FILE w' = Some (Ok (tasks_to_py tasks'), w'))
  \/
  ((submit_button = false \/ task_title = "" \/ task_description = "" \/
    lex_lt [year task_due_date; month task_due_date; day task_due_date]
           [year now; month now; day now] = true) /\
   tasks' = tasks /\ w' = w).
Proof.
  unfold add_task, date_le.
  destruct submit_button; [|right; split; [now left | now split]].
  destruct task_title as [|c1 s1];
    [right; split; [right; now left | now split]|].
  destruct task_description as [|c2 s2];
    [right; split; [right; right; now left | now split]|].
  destruct (lex_lt _ _) eqn:E;
    [right; split; [now repeat right | now split]|].
  left. cbn [andb str_truthy negb].
  repeat (split; [easy|]). apply load_save, wf_tasks_to_py.
Qed.

Lemma filter_snoc {A} (f : A -> bool) (l : list A) (x : A) :
  List.filter f (l ++ [x]) = List.filter f l ++ (if f x then [x] else []).
Proof.
  induction l as [|y l IH]; cbn [app List.filter].
  - now destruct (f x).
  - rewrite IH. now destruct (f y).
Qed.

(** X16: at a clock from year 1000 on, a task the form accepts is not
    overdue at the clock reading that accepted it: adding a task leaves the
    overdue list as it was.  (The due date accepted is not before the
    clock, so its year is written with four digits too.) *)
Theorem add_task_not_overdue (submit_button : bool)
    (task_title task_description task_priority task_category : string)
    (task_due_date now now' : datetime) (tasks : list Task.t) (w : world) :
  check_date_fields (year now) (month now) (day now) = true ->
  1000 <= year now ->
  check_date_fields (year task_due_date) (month task_due_date)
    (day task_due_date) = true ->
  get_overdue_tasks now
    (fst (add_task submit_button task_title task_description task_priority
            task_category task_due_date now now' tasks w)) =
  get_overdue_tasks now tasks.
Proof.
  intros Hn Hyear Hd.
  destruct (add_task_accepted submit_button task_title task_description
              task_priority task_category task_due_date now now' tasks w)
    as [-> | [Hle ->]]; [reflexivity|].
  cbn [fst]. unfold get_overdue_tasks. rewrite filter_snoc.
  cbn [new_task Task.completed Task.due_date get negb andb].
  rewrite (strftime_ymd_lt task_due_date now Hd Hn).
  unfold date_le in Hle. apply negb_true_iff in Hle. rewrite Hle.
  apply app_nil_r.
Qed.

(** A task due on the day it is added. *)
Lemma add_task_not_overdue_witness :
  get_overdue_tasks now0
    (fst (add_task true "Task Three" "Third task" "Low" "Work"
            now0 now0 now0 sample_tasks empty_world)) =
  get_overdue_tasks now0 sample_tasks.
Proof.
  apply (add_task_not_overdue true "Task Three" "Third task" "Low" "Work"
           now0 now0 now0 sample_tasks empty_world);
    [reflexivity | cbn; lia | reflexivity].
Defined.

(** X17: the creation stamp does not record the hour: two tasks created at
    moments that differ in the hour only are equal. *)
Theorem new_task_created_at_hour
    (task_title task_description task_priority task_category : string)
    (task_due_date now' : datetime) (h : Z) (tasks : list Task.t) :
  new_task task_title task_description task_priority task_category
    task_due_date
    (mkdt (year now') (month now') (day now') h (minute now') (second now')
       (microsecond now')) tasks =
  new_task task_title task_description task_priority task_category
    task_due_date now' tasks.
Proof. reflexivity. Qed.

(** ** The buttons of a task *)

Lemma filter_keep_all {A} (f : A -> bool) (l : list A) :
  (forall x, In x l -> f x = true) -> List.filter f l = l.
Proof.
  induction l as [|y l IH]; [reflexivity|]. intros H. cbn [List.filter].
  rewrite (H y (or_introl eq_refl)). f_equal. apply IH.
  intros x Hx. apply H. now right.
Qed.

Lemma toggle_first_none (id : Z) (tasks : list Task.t) :
  toggle_first id tasks = Ok None ->
  Forall (fun t => Task.id t <> id) tasks.
Proof.
  induction tasks as [|t rest IH]; cbn [toggle_first]; [constructor|].
  destruct (Task.id t =? id) eqn:E.
  - destruct (Task.completed t); discriminate.
  - destruct (toggle_first id rest) as [[r|]|e]; cbn [bind option_map];
      try discriminate.
    intros _. constructor; [lia | now apply IH].
Qed.

Lemma toggle_first_some (id : Z) (tasks tasks' : list Task.t) :
  toggle_first id tasks = Ok (Some tasks') ->
  exists pre t c post,
    tasks = pre ++ t :: post /\
    Forall (fun x => Task.id x <> id) pre /\
    Task.id t = id /\ Task.completed t = Some c /\
    tasks' = pre ++ set_completed t (negb c) :: post.
Proof.
  revert tasks'.
  induction tasks as [|t rest IH]; intros tasks'; cbn [toggle_first];
    [discriminate|].
  destruct (Task.id t =? id) eqn:E.
  - destruct (Task.completed t) as [c|] eqn:Ec; cbn [subscript bind];
      [|discriminate].
    intros [= <-]. exists [], t, c, rest.
    repeat split; [constructor | lia | exact Ec].
  - destruct (toggle_first id rest) as [[r|]|e]; cbn [bind option_map];
      try discriminate.
    intros [= <-].
    destruct (IH r eq_refl) as (pre & x & c & post & -> & Hpre & Hx & Hc & ->).
    exists (t :: pre), x, c, post.
    repeat split; [constructor; [lia | exact Hpre] | exact Hx | exact Hc].
Qed.

Lemma toggle_first_at (id : Z) (pre post : list Task.t) (t : Task.t) :
  Forall (fun x => Task.id x <> id) pre -> Task.id t = id ->
  toggle_first id (pre ++ t :: post) =
  let* c := subscript "completed" (Task.completed t) in
  Ok (Some (pre ++ set_completed t (negb c) :: post)).
Proof.
  intros Hpre Ht. induction Hpre as [|x pre Hx Hpre IH]; cbn [app toggle_first].
  - apply Z.eqb_eq in Ht. rewrite Ht. now destruct (Task.completed t).
  - apply Z.eqb_neq in Hx. rewrite Hx, IH.
    now destruct (Task.completed t).
Qed.

Lemma set_completed_twice (t : Task.t) (c : bool) :
  Task.completed t = Some c ->
  set_completed (set_completed t (negb c)) (negb (negb c)) = t.
Proof.
  destruct t as [i ti de pr ca du co cr]. cbn. intros ->.
  now rewrite negb_involutive.
Qed.

(** X18: the Complete/Undo button toggles the first task that has the id
    of the task clicked, leaves every other task as it is and saves the
    collection, which [load_tasks] then reads back; when no task has the
    id, nothing changes and nothing is written. *)
Theorem complete_click_first (id : Z) (tasks tasks' : list Task.t)
    (w w' : world) :
  complete_click id tasks w = Ok (tasks', w') ->
  (Forall (fun t => Task.id t <> id) tasks /\ tasks' = tasks /\ w' = w) \/
  (exists pre t c post,
     tasks = pre ++ t :: post /\
     Forall (fun x => Task.id x <> id) pre /\
     Task.id t = id /\ Task.completed t = Some c /\
     tasks' = pre ++ set_completed t (negb c) :: post /\
     load_tasks DEFAULT_TASKS_FILE w' = Some (Ok (tasks_to_py tasks'), w')).
Proof.
  unfold complete_click.
  destruct (toggle_first id tasks) as [[r|]|e] eqn:E; cbn [bind];
    [| |discriminate].
  - intros [= <- <-]. right.
    destruct (toggle_first_some id tasks r E)
      as (pre & t & c & post & Ht & Hpre & Hid & Hc & Hr).
    exists pre, t, c, post. repeat (split; [assumption|]).
    apply load_save, wf_tasks_to_py.
  - intros [= <- <-]. left. split; [|now split].
    now apply toggle_first_none.
Qed.

(** The first sample task is completed. *)
Lemma complete_click_first_witness :
  (Forall (fun t => Task.id t <> 1) sample_tasks /\
   [set_completed task_one true; task_two] = sample_tasks /\
   save_tasks (tasks_to_py [set_completed task_one true; task_two])
     DEFAULT_TASKS_FILE empty_world = empty_world) \/
  (exists pre t c post,
     sample_tasks = pre ++ t :: post /\
     Forall (fun x => Task.id x <> 1) pre /\
     Task.id t = 1 /\ Task.completed t = Some c /\
     [set_completed task_one true; task_two] =
       pre ++ set_completed t (negb c) :: post /\
     load_tasks DEFAULT_TASKS_FILE
       (save_tasks (tasks_to_py [set_completed task_one true; task_two])
          DEFAULT_TASKS_FILE empty_world) =
     Some (Ok (tasks_to_py [set_completed task_one true; task_two]),
           save_tasks (tasks_to_py [set_completed task_one true; task_two])
             DEFAULT_TASKS_FILE empty_world)).
Proof.
  apply (complete_click_first 1 sample_tasks
           [set_completed task_one true; task_two] empty_world
           (save_tasks (tasks_to_py [set_completed task_one true; task_two])
              DEFAULT_TASKS_FILE empty_world)).
  reflexivity.
Defined.

(** X19: a second click on the button undoes the first: the collection is
    as it was before the two clicks. *)
Theorem complete_click_twice (id : Z) (tasks tasks1 : list Task.t)
    (w w1 : world) :
  complete_click id tasks w = Ok (tasks1, w1) ->
  exists w2, complete_click id tasks1 w1 = Ok (tasks, w2).
Proof.
  intros H. unfold complete_click in *.
  destruct (toggle_first id tasks) as [[r|]|e] eqn:E; cbn [bind] in H;
    [| |discriminate].
  - injection H as <- <-.
    destruct (toggle_first_some id tasks r E)
      as (pre & t & c & post & -> & Hpre & Hid & Hc & ->).
    rewrite (toggle_first_at id pre post (set_completed t (negb c)) Hpre Hid).
    cbn [set_completed Task.completed subscript bind].
    change (Task.mk (Task.id t) (Task.title t) (Task.description t)
              (Task.priority t) (Task.category t) (Task.due_date t)
              (Some (negb (negb c))) (Task.created_at t))
      with (set_completed (set_completed t (negb c)) (negb (negb c))).
    rewrite (set_completed_twice t c Hc). eexists. reflexivity.
  - injection H as <- <-. rewrite E. cbn [bind]. eexists. reflexivity.
Qed.

(** Complete and Undo on the first sample task. *)
Lemma complete_click_twice_witness :
  exists w2,
    complete_click 1 [set_completed task_one true; task_two]
      (save_tasks (tasks_to_py [set_completed task_one true; task_two])
         DEFAULT_TASKS_FILE empty_world) =
    Ok (sample_tasks, w2).
Proof.
  apply (complete_click_twice 1 sample_tasks
           [set_completed task_one true; task_two] empty_world
           (save_tasks (tasks_to_py [set_completed task_one true; task_two])
              DEFAULT_TASKS_FILE empty_world)).
  reflexivity.
Defined.

(** X20: the button raises [KeyError] exactly when the first task that has
    the id clicked has no [completed] key; nothing else is raised. *)
Theorem complete_click_key_error (id : Z) (tasks : list Task.t) (w : world)
    (e : exn) :
  complete_click id tasks w = Raise e <->
  e = KeyError "completed" /\
  exists pre t post,
    tasks = pre ++ t :: post /\
    Forall (fun x => Task.id x <> id) pre /\
    Task.id t = id /\ Task.completed t = None.
Proof.
  split.
  - unfold complete_click.
    destruct (toggle_first id tasks) as [[r|]|e'] eqn:E; cbn [bind];
      [discriminate.. |].
    intros [= <-]. clear w.
    induction tasks as [|t rest IH]; cbn [toggle_first] in E;
      [discriminate|].
    destruct (Task.id t =? id) eqn:Eid.
    + destruct (Task.completed t) eqn:Ec; cbn [subscript bind] in E;
        [discriminate|].
      injection E as <-. split; [reflexivity|].
      exists [], t, rest. repeat split; [constructor | lia | exact Ec].
    + destruct (toggle_first id rest) as [r|e''] eqn:Er; cbn [bind] in E;
        [discriminate|].
      injection E as <-.
      destruct (IH eq_refl) as (He & pre & x & post & -> & Hpre & Hx & Hc).
      split; [exact He|]. exists (t :: pre), x, post.
      repeat split; [constructor; [lia | exact Hpre] | exact Hx | exact Hc].
  - intros (-> & pre & t & post & -> & Hpre & Hid & Hc).
    unfold complete_click. rewrite (toggle_first_at id pre post t Hpre Hid).
    now rewrite Hc.
Qed.

Lemma in_ids_unique (tasks : list Task.t) (a b : Task.t) :
  NoDup (map Task.id tasks) -> In a tasks -> In b tasks ->
  Task.id a = Task.id b -> a = b.
Proof.
  induction tasks as [|t rest IH]; [intros _ []|].
  cbn [map]. intros Hnd Ha Hb E. apply NoDup_cons in Hnd as [Hnot Hnd].
  destruct Ha as [<- | Ha], Hb as [<- | Hb]; [reflexivity | | |].
  - exfalso. apply Hnot. rewrite E. apply list_elem_of_In. now apply in_map.
  - exfalso. apply Hnot. rewrite <- E. apply list_elem_of_In. now apply in_map.
  - now apply IH.
Qed.

(** X21: with distinct ids, a click that completes a task takes it off the
    overdue list and off the due-soon list: after the click no task with
    that id is in either. *)
Theorem complete_click_clears (id : Z) (tasks tasks' : list Task.t)
    (w w' : world) (t : Task.t) (now : datetime) :
  NoDup (map Task.id tasks) ->
  In t tasks -> Task.id t = id -> Task.completed t = Some false ->
  complete_click id tasks w = Ok (tasks', w') ->
  Forall (fun x => Task.id x <> id) (get_overdue_tasks now tasks') /\
  forall soon, get_due_soon_tasks now tasks' = Ok soon ->
               Forall (fun x => Task.id x <> id) soon.
Proof.
  intros Hnd Hin Hid Hc Hclick.
  assert (Hdone : forall x, In x tasks' -> Task.id x = id ->
                            get (Task.completed x) false = true).
  { unfold complete_click in Hclick.
    destruct (toggle_first id tasks) as [[r|]|e] eqn:E; cbn [bind] in Hclick;
      [| |discriminate].
    - injection Hclick as <- <-.
      destruct (toggle_first_some id tasks r E)
        as (pre & t0 & c & post & Ht & Hpre & Hid0 & Hc0 & ->).
      assert (t0 = t) as ->.
      { apply (in_ids_unique tasks); [exact Hnd | | exact Hin | congruence].
        rewrite Ht. apply in_elt. }
      assert (c = false) as -> by congruence.
      rewrite Ht, map_app in Hnd. cbn [map] in Hnd.
      apply NoDup_app in Hnd as (_ & Hdisj & Hnd).
      apply NoDup_cons in Hnd as [Hnot _].
      intros x Hx Ex. apply in_app_or in Hx as [Hx | [<- | Hx]].
      + rewrite Forall_forall in Hpre. apply list_elem_of_In in Hx.
        now apply Hpre in Hx.
      + reflexivity.
      + exfalso. apply Hnot. rewrite Hid, <- Ex.
        apply list_elem_of_In. now apply in_map.
    - apply toggle_first_none in E. rewrite Forall_forall in E.
      apply list_elem_of_In, E in Hin. contradiction. }
  split.
  - apply Forall_forall. intros x Hx Ex. apply list_elem_of_In in Hx.
    unfold get_overdue_tasks in Hx. apply filter_In in Hx as [Hx Hf].
    rewrite (Hdone x Hx Ex) in Hf. discriminate.
  - intros soon Hsoon. unfold get_due_soon_tasks in Hsoon.
    destruct (add_one_day now) as [tomorrow|e]; [|discriminate].
    cbn [bind] in Hsoon. injection Hsoon as <-.
    apply Forall_forall. intros x Hx Ex. apply list_elem_of_In in Hx.
    apply filter_In in Hx as [Hx Hf]. unfold due_soon in Hf.
    rewrite (Hdone x Hx Ex) in Hf. discriminate.
Qed.

(** The overdue sample task is completed. *)
Lemma complete_click_clears_witness :
  Forall (fun x => Task.id x <> 2)
    (get_overdue_tasks now0 [task_one; set_completed task_two true]) /\
  forall soon,
    get_due_soon_tasks now0 [task_one; set_completed task_two true] =
      Ok soon ->
    Forall (fun x => Task.id x <> 2) soon.
Proof.
  apply (complete_click_clears 2 sample_tasks
           [task_one; set_completed task_two true] empty_world
           (save_tasks (tasks_to_py [task_one; set_completed task_two true])
              DEFAULT_TASKS_FILE empty_world) task_two now0).
  - apply NoDup_cons. split; [|apply NoDup_singleton].
    intros H. apply list_elem_of_In in H. destruct H as [H | []].
    discriminate H.
  - right. now left.
  - reflexivity.
  - reflexivity.
  - reflexivity.
Defined.

(** X22: the Delete button removes every task that has the id clicked and
    no other, keeps the order of the rest, and saves the collection, which
    [load_tasks] then reads back; a second click with the same id changes
    nothing. *)
Theorem delete_click_spec (id : Z) (tasks : list Task.t) (w : world) :
  let '(tasks', w') := delete_click id tasks w in
  (forall t, In t tasks' <-> In t tasks /\ Task.id t <> id) /\
  sublist tasks' tasks /\
  load_tasks DEFAULT_TASKS_FILE w' = Some (Ok (tasks_to_py tasks'), w') /\
  delete_click id tasks' w' = (tasks', w').
Proof.
  unfold delete_click. split; [|split; [|split]].
  - intros t. rewrite filter_In, negb_true_iff, Z.eqb_neq. reflexivity.
  - apply filter_sublist.
  - apply load_save, wf_tasks_to_py.
  - rewrite filter_filter_absorb by (intros x Hx; exact Hx).
    f_equal. unfold save_tasks, open_write. cbn [files stdout].
    now rewrite insert_insert_eq.
Qed.

(** X23: with distinct ids, the Delete button of a task of the collection
    removes that task alone: the collection is one task shorter and its
    ids are still distinct. *)
Theorem delete_click_one (id : Z) (tasks : list Task.t) (w : world) :
  NoDup (map Task.id tasks) -> In id (map Task.id tasks) ->
  S (length (fst (delete_click id tasks w))) = length tasks /\
  NoDup (map Task.id (fst (delete_click id tasks w))).
Proof.
  unfold delete_click. cbn [fst].
  induction tasks as [|t rest IH]; [intros _ []|].
  cbn [map]. intros Hnd Hin. apply NoDup_cons in Hnd as [Hnot Hnd].
  cbn [List.filter]. destruct (Task.id t =? id) eqn:E; cbn [negb].
  - apply Z.eqb_eq in E. subst id.
    assert (Hsame : List.filter (fun t0 => negb (Task.id t0 =? Task.id t))
                      rest = rest).
    { apply filter_keep_all. intros x Hx. apply negb_true_iff, Z.eqb_neq.
      intros Ex. apply Hnot. rewrite <- Ex. apply list_elem_of_In.
      now apply in_map. }
    rewrite Hsame. now split.
  - apply Z.eqb_neq in E. destruct Hin as [Hin | Hin]; [contradiction|].
    destruct (IH Hnd Hin) as [Hlen Hnd']. cbn [length map].
    split; [now rewrite Hlen|]. apply NoDup_cons. split; [|exact Hnd'].
    intros Hin'. apply Hnot. apply list_elem_of_In in Hin'.
    apply in_map_iff in Hin' as (x & Ex & Hx). apply filter_In in Hx as [Hx _].
    rewrite <- Ex. apply list_elem_of_In. now apply in_map.
Qed.

(** The second sample task is deleted. *)
Lemma delete_click_one_witness :
  S (length (fst (delete_click 2 sample_tasks empty_world))) =
    length sample_tasks /\
  NoDup (map Task.id (fst (delete_click 2 sample_tasks empty_world))).
Proof.
  apply (delete_click_one 2 sample_tasks empty_world).
  - apply NoDup_cons. split; [|apply NoDup_singleton].
    intros H. apply list_elem_of_In in H. destruct H as [H | []].
    discriminate H.
  - right. now left.
Defined.

(** X24: ids are reused: deleting the task added last gives back the
    collection as it was, so the next task added takes the id of the one
    deleted. *)
Theorem add_then_delete (submit_button : bool)
    (task_title task_description task_priority task_category : string)
    (task_due_date now now' : datetime) (tasks : list Task.t) (w : world) :
  let '(tasks1, w1) :=
    add_task submit_button task_title task_description task_priority
      task_category task_due_date now now' tasks w in
  let '(tasks2, w2) := delete_click (generate_unique_id tasks) tasks1 w1 in
  tasks2 = tasks /\ generate_unique_id tasks2 = generate_unique_id tasks.
Proof.
  assert (Hkeep : List.filter
                    (fun t => negb (Task.id t =? generate_unique_id tasks))
                    tasks = tasks).
  { apply filter_keep_all. intros x Hx.
    pose proof (generate_unique_id_above tasks) as Hall.
    rewrite Forall_forall in Hall. apply list_elem_of_In, Hall in Hx.
    apply negb_true_iff, Z.eqb_neq. lia. }
  destruct (add_task_accepted submit_button task_title task_description
              task_priority task_category task_due_date now now' tasks w)
    as [-> | [_ ->]]; unfold delete_click.
  - rewrite Hkeep. now split.
  - rewrite filter_snoc, Hkeep. cbn [new_task Task.id].
    rewrite Z.eqb_refl. cbn [negb]. rewrite app_nil_r. now split.
Qed.

(** ** The store *)

(** X25: the file holds what was saved last: after two saves to one path,
    [load_tasks] returns the second collection, and the world is the one a
    single save of it would have left. *)
Theorem save_tasks_last_write (a b : list Task.t) (file_path : string)
    (w : world) :
  save_tasks (tasks_to_py b) file_path
    (save_tasks (tasks_to_py a) file_path w) =
  save_tasks (tasks_to_py b) file_path w /\
  load_tasks file_path
    (save_tasks (tasks_to_py b) file_path
       (save_tasks (tasks_to_py a) file_path w)) =
  Some (Ok (tasks_to_py b), save_tasks (tasks_to_py b) file_path w).
Proof.
  assert (E : save_tasks (tasks_to_py b) file_path
                (save_tasks (tasks_to_py a) file_path w) =
              save_tasks (tasks_to_py b) file_path w).
  { unfold save_tasks, open_write. cbn [files stdout].
    now rewrite insert_insert_eq. }
  split; [exact E|]. rewrite E. apply load_save, wf_tasks_to_py.
Qed.

(** X27: [load_tasks] writes to no file, and prints nothing but the one
    warning, which comes with the empty list. *)
Theorem load_tasks_reads_only (file_path : string) (w : world) :
  match load_tasks file_path w with
  | Some (r, w') =>
      files w' = files w /\
      (w' = w \/
       (r = Ok (PList []) /\ w' = print (invalid_json_warning file_path) w))
  | None => True
  end.
Proof.
  unfold load_tasks.
  destruct (open_read file_path w) as [text|e].
  - destruct (json_loads text) as [[obj|[]]|]; cbn [print files];
      try (split; [reflexivity | now left]); [|exact I].
    split; [reflexivity | right; now split].
  - destruct e; cbn [print files];
      try (split; [reflexivity | now left]).
    split; [reflexivity | right; now split].
Qed.

(** ** The id allocator and the order of the collection *)

Lemma py_max_unique (x : Z) (xs : list Z) (m : Z) :
  In m (x :: xs) -> Forall (fun y => y <= m) (x :: xs) -> py_max x xs = m.
Proof.
  intros Hin Hall. destruct (py_max_spec x xs) as [Hin' Hall'].
  rewrite Forall_forall in Hall, Hall'.
  apply list_elem_of_In, Hall in Hin'. apply list_elem_of_In, Hall' in Hin.
  lia.
Qed.

(** X29: the id given depends on the tasks of the collection, not on their
    order: a collection rearranged (sorted, say) gets the same next id. *)
Theorem generate_unique_id_perm (tasks tasks' : list Task.t) :
  Permutation tasks tasks' ->
  generate_unique_id tasks = generate_unique_id tasks'.
Proof.
  intros Hp. destruct tasks as [|t ts].
  { apply Permutation_nil in Hp. now subst. }
  destruct tasks' as [|t' ts'].
  { apply Permutation_sym, Permutation_nil in Hp. discriminate. }
  cbn [generate_unique_id]. f_equal.
  destruct (py_max_spec (Task.id t') (map Task.id ts')) as [Hin Hall].
  assert (Hpi : Permutation (Task.id t' :: map Task.id ts')
                  (Task.id t :: map Task.id ts)).
  { apply Permutation_sym. exact (Permutation_map Task.id Hp). }
  apply py_max_unique.
  - exact (Permutation_in _ Hpi Hin).
  - exact (Permutation_Forall Hpi Hall).
Qed.

(** The sample data and the sample data sorted by due date. *)
Lemma generate_unique_id_perm_witness :
  generate_unique_id sample_tasks =
  generate_unique_id (sort_tasks_by_due_date sample_tasks).
Proof.
  apply (generate_unique_id_perm sample_tasks
           (sort_tasks_by_due_date sample_tasks)).
  apply perm_swap.
Defined.
